(** * side-quest-observability: event bus, ring-buffer store, emitter,
      reconnecting client and voice playback queue.

    A shallow embedding of the TypeScript sources of packages/server/src:
      - store.ts        (module [Store];  src/unnamed/part_005)
      - schema.ts       (module [Schema]; types of src/unnamed/part_011)
      - voice/queue.ts  (module [Queue])
      - server.ts       (module [Server]; voice/router.ts is
                         src/unnamed/part_012)
      - emit.ts         (module [Emit];   the second half of
                         client.test.ts)
      - client.ts       (module [Client], after the doubles its delays
                         are computed in, module [Double])
    preceded by the fragment of JavaScript the sources rely on (module
    [JS]) and followed by the vocabulary of the statements (module [Spec]),
    sample inputs (module [Sample]), the discovery files and start-up of
    server.ts with voice/config.ts (module [Discovery]), runs of the
    server and of the client (module [Runs]), and the proofs.

    Conventions.  Mutable objects are records threaded explicitly through
    the functions that mutate them.  What the runtime supplies (the clock,
    random numbers, fresh identifiers, the outcome of file, process and
    network operations) is an explicit argument.  A JavaScript string is a
    Rocq [string], one character per UTF-16 code unit (code units below
    256).  A function that can throw returns a [completion]. *)

From Stdlib Require Import ZArith QArith Qminmax Qround Qabs Lqa Lia Bool List Sorted Ascii String DecimalString.
From Stdlib Require DecimalPos.
From stdpp Require Import base gmap strings list.
Import ListNotations.

Local Open Scope Z_scope.
Local Open Scope string_scope.
Local Open Scope list_scope.
Local Open Scope stdpp_scope.

(* ===================================================================== *)
(** * The JavaScript fragment used by the sources *)
(* ===================================================================== *)

Module JS.

(** Abrupt completion: a call either returns or throws. *)
Inductive completion (A : Type) : Type :=
| Normal (a : A)
| Throw (name : string).
Arguments Normal {A} a.
Arguments Throw {A} name.

(** ** Numbers

    The numbers of the store and of the HTTP handlers are array indices,
    counts and parsed decimal integers: integral doubles, together with
    [NaN] and the two infinities. *)
Inductive number : Type :=
| Num (z : Z)
| NaN
| PosInf
| NegInf.

(** [a + b] *)
Definition num_add (a b : number) : number :=
  match a, b with
  | NaN, _ | _, NaN => NaN
  | PosInf, NegInf | NegInf, PosInf => NaN
  | PosInf, _ | _, PosInf => PosInf
  | NegInf, _ | _, NegInf => NegInf
  | Num x, Num y => Num (x + y)
  end.

(** [a % b]: the remainder has the sign of the dividend; [x % 0] is NaN. *)
Definition num_rem (a b : number) : number :=
  match a, b with
  | NaN, _ | _, NaN => NaN
  | PosInf, _ | NegInf, _ => NaN
  | Num x, PosInf | Num x, NegInf => Num x
  | Num x, Num y => if (y =? 0)%Z then NaN else Num (Z.rem x y)
  end.

(** Unary minus. *)
Definition num_neg (a : number) : number :=
  match a with
  | Num x => Num (- x)
  | NaN => NaN
  | PosInf => NegInf
  | NegInf => PosInf
  end.

(** [a <= b]; every comparison with NaN is false. *)
Definition num_le (a b : number) : bool :=
  match a, b with
  | NaN, _ | _, NaN => false
  | NegInf, _ => true
  | _, PosInf => true
  | PosInf, _ => false
  | _, NegInf => false
  | Num x, Num y => (x <=? y)%Z
  end.

(** [a > b] *)
Definition num_gt (a b : number) : bool :=
  match a, b with
  | NaN, _ | _, NaN => false
  | PosInf, PosInf => false
  | PosInf, _ => true
  | NegInf, _ => false
  | Num _, PosInf => false
  | Num _, NegInf => true
  | Num x, Num y => (y <? x)%Z
  end.

(** [Math.min(a, b)]: NaN when either argument is NaN. *)
Definition Math_min (a b : number) : number :=
  match a, b with
  | NaN, _ | _, NaN => NaN
  | _, _ => if num_le a b then a else b
  end.

(** [Number.isFinite] *)
Definition Number_isFinite (a : number) : bool :=
  match a with Num _ => true | _ => false end.

(** ** Arrays

    An array is a list; [Array.prototype.slice] clamps its relative
    indices as ECMA-262 prescribes (NaN counts as 0, a negative index is
    taken from the end). *)
Definition clamp_index (len : nat) (rel : number) : nat :=
  match rel with
  | NaN => 0%nat
  | NegInf => 0%nat
  | PosInf => len
  | Num z =>
      if (z <? 0)%Z then Z.to_nat (Z.max (Z.of_nat len + z) 0)
      else Z.to_nat (Z.min z (Z.of_nat len))
  end.

Definition Array_slice {A : Type} (l : list A) (start : number)
    (end_ : option number) : list A :=
  let len := length l in
  let k := clamp_index len start in
  let final := match end_ with
               | None => len
               | Some e => clamp_index len e
               end in
  firstn (final - k) (skipn k l).

(** [a[i] = v] on an array whose slots are [option A] ([None] is a hole).
    A non-negative integer is an array index: the write lands in the slot,
    extending the array with holes when the index is past the end.  Any
    other key (NaN for one) names an ordinary property, which no array
    operation sees. *)
Definition Array_set {A : Type} (l : list (option A)) (i : number) (v : A)
    : list (option A) :=
  match i with
  | Num z =>
      if (z <? 0)%Z then l
      else
        let n := Z.to_nat z in
        if (n <? length l)%nat then firstn n l ++ Some v :: skipn (S n) l
        else l ++ repeat None (n - length l) ++ [Some v]
  | _ => l
  end.

(** ** Strings *)

(** WhiteSpace and LineTerminator code units below 256. *)
Definition is_whitespace (c : ascii) : bool :=
  let n := nat_of_ascii c in
  ((n =? 9) || (n =? 10) || (n =? 11) || (n =? 12) || (n =? 13)
   || (n =? 32) || (n =? 160))%nat.

Fixpoint trimStart (s : string) : string :=
  match s with
  | EmptyString => EmptyString
  | String c r => if is_whitespace c then trimStart r else s
  end.

(** [trimEnd]: a character is kept when it is not white space or when
    something is kept after it. *)
Fixpoint trimEnd (s : string) : string :=
  match s with
  | EmptyString => EmptyString
  | String c r =>
      match trimEnd r with
      | EmptyString => if is_whitespace c then EmptyString else String c EmptyString
      | r' => String c r'
      end
  end.

Definition trim (s : string) : string := trimEnd (trimStart s).

(** A string is truthy when it is not empty. *)
Definition truthy_string (s : string) : bool :=
  match s with EmptyString => false | _ => true end.

(** [s.slice(0, n)] for [0 <= n]. *)
Definition String_slice0 (s : string) (n : nat) : string := substring 0 n s.

Fixpoint repeat_string (c : ascii) (n : nat) : string :=
  match n with
  | O => EmptyString
  | S k => String c (repeat_string c k)
  end.

(** The decimal numeral of an integer: what [String(n)] and
    [JSON.stringify(n)] print for an integral number of magnitude below
    1e21 (from there on JavaScript prints an exponent). *)
Definition Z_to_string (z : Z) : string := NilZero.string_of_int (Z.to_int z).

(** ** [Number.parseInt(s, 10)]

    Leading white space is skipped, one sign is read, then the longest
    run of decimal digits; no digit at all gives NaN.  A magnitude that
    rounds beyond the largest double is an infinity.  (Below that the
    integer is kept exact, not rounded to a double; the callers only
    compare the result with 0, 1000 and 1048576.) *)
Definition DOUBLE_OVERFLOW : Z := 2 ^ 1024 - 2 ^ 970.

Definition digit_of (c : ascii) : option Z :=
  let n := nat_of_ascii c in
  if ((48 <=? n) && (n <=? 57))%nat then Some (Z.of_nat (n - 48)) else None.

Fixpoint parse_digits (s : string) (acc : option Z) : option Z :=
  match s with
  | EmptyString => acc
  | String c r =>
      match digit_of c with
      | Some d =>
          parse_digits r (Some (10 * match acc with Some a => a | None => 0 end + d))
      | None => acc
      end
  end.

Definition parseInt (s : string) : number :=
  let s1 := trimStart s in
  let '(sign, s2) :=
    match s1 with
    | String "-" r => ((-1)%Z, r)
    | String "+" r => (1%Z, r)
    | _ => (1%Z, s1)
    end in
  match parse_digits s2 None with
  | Some n =>
      if (n <? DOUBLE_OVERFLOW)%Z then Num (sign * n)
      else if (sign <? 0)%Z then NegInf else PosInf
  | None => NaN
  end.

(** ** Values

    What [JSON.parse] produces, plus [undefined], which is what reading a
    missing property gives and what an object literal may hold.  Numbers
    inside payloads are integers. *)
#[local] Set Warnings "-register-all".
Inductive value : Type :=
| VUndefined
| VNull
| VBool (b : bool)
| VNum (n : Z)
| VStr (s : string)
| VArr (elems : list value)
| VObj (props : list (string * value)).

Definition object : Type := list (string * value).

(** [o.k] *)
Fixpoint prop (o : object) (k : string) : value :=
  match o with
  | [] => VUndefined
  | (k', v) :: r => if String.eqb k' k then v else prop r k
  end.

(** ['k' in o] *)
Fixpoint has_prop (o : object) (k : string) : bool :=
  match o with
  | [] => false
  | (k', _) :: r => String.eqb k' k || has_prop r k
  end.

(** [a ?? b] *)
Definition nullish (a b : value) : value :=
  match a with
  | VUndefined | VNull => b
  | _ => a
  end.

(** [typeof v === 'string'] *)
Definition is_string (v : value) : bool :=
  match v with VStr _ => true | _ => false end.

(** [v === VStr s] *)
Definition strict_eq_string (v : value) (s : string) : bool :=
  match v with VStr t => String.eqb t s | _ => false end.

(** [typeof v === 'object'] (true of null, arrays and objects) *)
Definition typeof_object (v : value) : bool :=
  match v with VNull | VArr _ | VObj _ => true | _ => false end.

(** [Array.isArray] *)
Definition Array_isArray (v : value) : bool :=
  match v with VArr _ => true | _ => false end.

(** [v === true] *)
Definition strict_eq_true (v : value) : bool :=
  match v with VBool true => true | _ => false end.

(** Truthiness of a value ([!v] is its negation). *)
Definition truthy (v : value) : bool :=
  match v with
  | VUndefined | VNull => false
  | VBool b => b
  | VNum n => negb (n =? 0)%Z
  | VStr s => truthy_string s
  | VArr _ | VObj _ => true
  end.

(** ** [JSON.stringify] *)

Definition hex_digit (n : nat) : ascii :=
  ascii_of_nat (if (n <? 10)%nat then 48 + n else 87 + n).

(** QuoteJSONString, one code unit at a time. *)
Definition quote_char (c : ascii) : string :=
  let n := nat_of_ascii c in
  if (n =? 34)%nat then String "\" (String c EmptyString)
  else if (n =? 92)%nat then String c (String c EmptyString)
  else if (n =? 8)%nat then "\b"
  else if (n =? 9)%nat then "\t"
  else if (n =? 10)%nat then "\n"
  else if (n =? 12)%nat then "\f"
  else if (n =? 13)%nat then "\r"
  else if (n <? 32)%nat then
    "\u00" +:+ String (hex_digit (n / 16)) (String (hex_digit (n mod 16)) EmptyString)
  else String c EmptyString.

Fixpoint quote_body (s : string) : string :=
  match s with
  | EmptyString => EmptyString
  | String c r => quote_char c +:+ quote_body r
  end.

Definition dquote : ascii := ascii_of_nat 34.

Definition JSON_quote (s : string) : string :=
  String dquote (quote_body s +:+ String dquote EmptyString).

Fixpoint join (sep : string) (l : list string) : string :=
  match l with
  | [] => EmptyString
  | [x] => x
  | x :: r => x +:+ sep +:+ join sep r
  end.

(** SerializeJSONProperty: [None] stands for [undefined].  Inside an array
    [undefined] prints as [null]; inside an object the property is left
    out.  (Properties print in the order of the list.) *)
Fixpoint JSON_stringify (v : value) : option string :=
  match v with
  | VUndefined => None
  | VNull => Some "null"
  | VBool true => Some "true"
  | VBool false => Some "false"
  | VNum n => Some (Z_to_string n)
  | VStr s => Some (JSON_quote s)
  | VArr elems =>
      Some ("[" +:+
            join "," (List.map (fun x => match JSON_stringify x with
                                         | Some s => s
                                         | None => "null"
                                         end) elems)
            +:+ "]")
  | VObj props =>
      Some ("{" +:+
            join "," (List.flat_map
                        (fun kv => match JSON_stringify (snd kv) with
                                   | Some s => [JSON_quote (fst kv) +:+ ":" +:+ s]
                                   | None => []
                                   end) props)
            +:+ "}")
  end.

(** [Object.hasOwn(o, k)]: the own properties of an object that
    [JSON.parse] built are the members of its text. *)
Fixpoint hasOwn (o : object) (k : string) : bool :=
  match o with
  | [] => false
  | (k', _) :: r => String.eqb k' k || hasOwn r k
  end.

(** ToString, as [String(v)] and a template literal apply it.  An array
    joins the strings of its elements, [null] and [undefined] giving the
    empty string.  For an object OrdinaryToPrimitive looks [toString] up:
    without an own property of that name it finds Object.prototype's and
    the result is [object Object]; an own [toString] of a parsed object is
    no function, [valueOf] (own and no function, or inherited and
    returning the object) gives no primitive either, and a TypeError is
    thrown. *)
Fixpoint ToString (v : value) : completion string :=
  match v with
  | VUndefined => Normal "undefined"
  | VNull => Normal "null"
  | VBool true => Normal "true"
  | VBool false => Normal "false"
  | VNum n => Normal (Z_to_string n)
  | VStr s => Normal s
  | VArr elems =>
      match (fix strings (l : list value) : completion (list string) :=
               match l with
               | [] => Normal []
               | x :: r =>
                   match (match x with
                          | VUndefined | VNull => Normal EmptyString
                          | _ => ToString x
                          end) with
                   | Throw name => Throw name
                   | Normal s =>
                       match strings r with
                       | Throw name => Throw name
                       | Normal ss => Normal (s :: ss)
                       end
                   end
               end) elems with
      | Throw name => Throw name
      | Normal ss => Normal (join "," ss)
      end
  | VObj props =>
      if hasOwn props "toString" then Throw "TypeError"
      else Normal "[object Object]"
  end.

End JS.


(* ===================================================================== *)
(** * schema.ts: the event envelope and its factory *)
(* ===================================================================== *)

Module Schema.
Import JS.

(** [EventEnvelope] of types.ts.  The string-typed fields hold strings on
    every path that builds an envelope; [data] is whatever the producer
    sent. *)
Record EventEnvelope : Type := {
  schemaVersion : string;
  id : string;
  timestamp : string;
  type : string;
  app : string;
  appRoot : string;
  source : string;
  correlationId : string;
  data : value
}.

(** [EventContext]; [None] is an omitted (undefined) correlation id. *)
Record EventContext : Type := {
  context_app : string;
  context_appRoot : string;
  context_source : string;
  context_correlationId : option string
}.

(** What the runtime hands to one call of the factory: the results of
    [nanoId()], [new Date().toISOString()] and [generateCorrelationId()]. *)
Record Runtime : Type := {
  nanoId : string;
  toISOString : string;
  generateCorrelationId : string
}.

Definition createEvent (rt : Runtime) (type_ : string) (data_ : value)
    (context : EventContext) : EventEnvelope :=
  {| schemaVersion := "1.0.0";
     id := nanoId rt;
     timestamp := toISOString rt;
     type := type_;
     app := context_app context;
     appRoot := context_appRoot context;
     source := context_source context;
     correlationId := match context_correlationId context with
                      | Some c => c
                      | None => generateCorrelationId rt
                      end;
     data := data_ |}.

(** The envelope as the object [JSON.stringify] sees. *)
Definition to_value (e : EventEnvelope) : value :=
  VObj [ ("schemaVersion", VStr (schemaVersion e));
         ("id", VStr (id e));
         ("timestamp", VStr (timestamp e));
         ("type", VStr (type e));
         ("app", VStr (app e));
         ("appRoot", VStr (appRoot e));
         ("source", VStr (source e));
         ("correlationId", VStr (correlationId e));
         ("data", data e) ].

End Schema.

(* ===================================================================== *)
(** * store.ts: the ring buffer *)
(* ===================================================================== *)

Module Store.
Import JS Schema.

(** Rate-limit persist-failure warnings to once per 30 seconds. *)
Definition PERSIST_WARN_INTERVAL_MS : Z := 30000.

Record StoreOptions : Type := {
  options_capacity : option nat;
  options_persistPath : option string
}.

(** [EventFilter].  The filter with three [None]s stands for both [{}]
    and an omitted argument, which [filter?.x] does not tell apart. *)
Record EventFilter : Type := {
  filter_type : option string;
  filter_since : option string;
  filter_limit : option number
}.

Definition no_filter : EventFilter :=
  {| filter_type := None; filter_since := None; filter_limit := None |}.

(** The private fields of [EventStore].  A slot of [buffer] is [None]
    while it is a hole of [new Array(capacity)]. *)
Record EventStore : Type := {
  buffer : list (option EventEnvelope);
  capacity : nat;
  persistPath : option string;
  writeIndex : number;
  count : nat;
  lastWarnAt : Z;
  persistErrors : nat
}.

(** The constructor.  [new Array(n)] accepts only an unsigned integer, so
    the capacity is a [nat]. *)
Definition new_EventStore (options : StoreOptions) : EventStore :=
  let capacity_ := match options_capacity options with
                   | Some c => c
                   | None => 1000%nat
                   end in
  {| buffer := repeat None capacity_;
     capacity := capacity_;
     persistPath := options_persistPath options;
     writeIndex := Num 0;
     count := 0%nat;
     lastWarnAt := 0;
     persistErrors := 0%nat |}.

(** What the file system and the clock do during one [push]:
    whether [appendToFileSync] throws, and [Date.now()]. *)
Record PersistIO : Type := {
  appendThrows : bool;
  Date_now : Z
}.

Definition persist_enabled (s : EventStore) : bool :=
  match persistPath s with
  | Some p => truthy_string p
  | None => false
  end.

(** [push].  The journal file and the text written to stderr are outside
    the store; the counters the catch block updates are kept. *)
Definition push (s : EventStore) (event : EventEnvelope) (io : PersistIO)
    : EventStore :=
  let buffer_ := Array_set (buffer s) (writeIndex s) event in
  let writeIndex_ :=
    num_rem (num_add (writeIndex s) (Num 1)) (Num (Z.of_nat (capacity s))) in
  let count_ := if (count s <? capacity s)%nat then S (count s) else count s in
  if persist_enabled s && appendThrows io then
    let now := Date_now io in
    {| buffer := buffer_;
       capacity := capacity s;
       persistPath := persistPath s;
       writeIndex := writeIndex_;
       count := count_;
       lastWarnAt := if (PERSIST_WARN_INTERVAL_MS <=? now - lastWarnAt s)%Z
                     then now else lastWarnAt s;
       persistErrors := S (persistErrors s) |}
  else
    {| buffer := buffer_;
       capacity := capacity s;
       persistPath := persistPath s;
       writeIndex := writeIndex_;
       count := count_;
       lastWarnAt := lastWarnAt s;
       persistErrors := persistErrors s |}.

(** [toArray] *)
Definition toArray (s : EventStore) : list (option EventEnvelope) :=
  if (count s <? capacity s)%nat then
    Array_slice (buffer s) (Num 0) (Some (Num (Z.of_nat (count s))))
  else
    Array_slice (buffer s) (writeIndex s) None
    ++ Array_slice (buffer s) (Num 0) (Some (writeIndex s)).

(** [events.filter((e) => p(e))] where the callback reads a property of
    [e]: on a hole ([undefined]) the read throws a TypeError. *)
Fixpoint Array_filter (p : EventEnvelope -> bool)
    (events : list (option EventEnvelope))
    : completion (list (option EventEnvelope)) :=
  match events with
  | [] => Normal []
  | None :: _ => Throw "TypeError"
  | Some e :: rest =>
      match Array_filter p rest with
      | Normal kept => Normal (if p e then Some e :: kept else kept)
      | Throw name => Throw name
      end
  end.

Definition bind {A B : Type} (c : completion A) (k : A -> completion B)
    : completion B :=
  match c with
  | Normal a => k a
  | Throw name => Throw name
  end.

(** [a > b] on strings: code-unit order. *)
Definition string_gt (a b : string) : bool := String.ltb b a.

(** [query] *)
Definition query (s : EventStore) (filter : EventFilter)
    : completion (list (option EventEnvelope)) :=
  bind (match filter_type filter with
        | Some t =>
            if truthy_string t
            then Array_filter (fun e => String.eqb (type e) t) (toArray s)
            else Normal (toArray s)
        | None => Normal (toArray s)
        end) (fun events =>
  bind (match filter_since filter with
        | Some since =>
            if truthy_string since
            then Array_filter (fun e => string_gt (timestamp e) since) events
            else Normal events
        | None => Normal events
        end) (fun events =>
  match filter_limit filter with
  | Some limit =>
      if num_le limit (Num 0) then Normal []
      else Normal (Array_slice events (num_neg limit) None)
  | None => Normal events
  end)).

(** [last] *)
Definition last (s : EventStore) (n : number) : list (option EventEnvelope) :=
  if num_le n (Num 0) then [] else Array_slice (toArray s) (num_neg n) None.

(** [size] *)
Definition size (s : EventStore) : nat := count s.

(** [counts[type] = (counts[type] ?? 0) + 1] on the object [counts]
    (own keys of the object only: a type that names a member of
    Object.prototype, for which [counts[type]] finds the inherited member
    and the sum is a string, is not modelled). *)
Fixpoint bump (counts : list (string * nat)) (t : string) : list (string * nat) :=
  match counts with
  | [] => [(t, 1%nat)]
  | (k, n) :: r => if String.eqb k t then (k, S n) :: r else (k, n) :: bump r t
  end.

(** [typeCounts]; reading [event.type] off a hole throws. *)
Fixpoint count_types (events : list (option EventEnvelope))
    (counts : list (string * nat)) : completion (list (string * nat)) :=
  match events with
  | [] => Normal counts
  | None :: _ => Throw "TypeError"
  | Some e :: rest => count_types rest (bump counts (type e))
  end.

Definition typeCounts (s : EventStore) : completion (list (string * nat)) :=
  count_types (toArray s) [].

End Store.

(* ===================================================================== *)
(** * voice/queue.ts: the serial playback queue *)
(* ===================================================================== *)

Module Queue.
Import JS.

Record QueueItem : Type := {
  filePath : string;
  label : string;
  enqueuedAt : Z
}.

(** [maxDepth] bounds a length; a bound is a natural number. *)
Record Config : Type := {
  maxDepth : nat;
  maxAgeMs : Z;
  maxPlayMs : Z
}.

(** The private fields.  [currentProc] names the clip of the player
    process in flight. *)
Record PlaybackQueue : Type := {
  queue : list QueueItem;
  playing : bool;
  currentProc : option string;
  config : Config
}.

Definition new_PlaybackQueue (opt_maxDepth : option nat)
    (opt_maxAgeMs opt_maxPlayMs : option Z) : PlaybackQueue :=
  {| queue := [];
     playing := false;
     currentProc := None;
     config := {| maxDepth := default 10%nat opt_maxDepth;
                  maxAgeMs := default 30000 opt_maxAgeMs;
                  maxPlayMs := default 15000 opt_maxPlayMs |} |}.

(** What the runtime does during one synchronous turn: the value of
    [Date.now()] and whether [Bun.spawn] throws. *)
Record Turn : Type := {
  Date_now : Z;
  spawnThrows : bool
}.

(** [playOne] up to its [await]: the player is spawned and remembered; if
    the spawn throws, the catch block swallows it and the finally block
    clears [currentProc]. *)
Definition playOne_start (q : PlaybackQueue) (file : string) (t : Turn)
    : PlaybackQueue :=
  match (if spawnThrows t then Throw "spawn" else Normal file) with
  | Normal proc =>
      {| queue := queue q; playing := playing q;
         currentProc := Some proc; config := config q |}
  | Throw _ =>
      {| queue := queue q; playing := playing q;
         currentProc := None; config := config q |}
  end.

(** The [while] loop of [drain], from its head to the next [await] or to
    its end: stale items are shifted off and dropped; the first fresh
    item is shifted off and handed to the player. *)
Fixpoint drain_loop (maxAge now : Z) (items : list QueueItem)
    : list QueueItem * option QueueItem :=
  match items with
  | [] => ([], None)
  | item :: rest =>
      if (maxAge <? now - enqueuedAt item)%Z
      then drain_loop maxAge now rest
      else (rest, Some item)
  end.

Definition drain_run (q : PlaybackQueue) (t : Turn) : PlaybackQueue :=
  match drain_loop (maxAgeMs (config q)) (Date_now t) (queue q) with
  | (rest, Some item) =>
      playOne_start {| queue := rest; playing := playing q;
                       currentProc := currentProc q; config := config q |}
                    (filePath item) t
  | (rest, None) =>
      (* the loop ended: finally { this.playing = false } *)
      {| queue := rest; playing := false;
         currentProc := currentProc q; config := config q |}
  end.

(** [drain], up to the point where it first yields. *)
Definition drain (q : PlaybackQueue) (t : Turn) : PlaybackQueue :=
  drain_run {| queue := queue q; playing := true;
               currentProc := currentProc q; config := config q |} t.

(** [enqueue] *)
Definition enqueue (q : PlaybackQueue) (item : QueueItem) (t : Turn)
    : PlaybackQueue :=
  if (maxDepth (config q) <=? length (queue q))%nat then q
  else
    let q1 := {| queue := queue q ++ [item]; playing := playing q;
                 currentProc := currentProc q; config := config q |} in
    if negb (playing q1) then drain q1 t else q1.

(** The continuation of a suspended [drain]: the awaited [playOne]
    settles (the player exited, or timed out and was killed), its finally
    block clears [currentProc], and the loop goes on. *)
Definition resume (q : PlaybackQueue) (t : Turn) : PlaybackQueue :=
  if playing q then
    drain_run {| queue := queue q; playing := playing q;
                 currentProc := None; config := config q |} t
  else q.

(** [stop] *)
Definition stop (q : PlaybackQueue) : PlaybackQueue :=
  {| queue := []; playing := playing q; currentProc := None; config := config q |}.

(** [clear] *)
Definition clear (q : PlaybackQueue) : PlaybackQueue :=
  {| queue := []; playing := playing q;
     currentProc := currentProc q; config := config q |}.

(** [depth] and [isPlaying] *)
Definition depth (q : PlaybackQueue) : nat := length (queue q).
Definition isPlaying (q : PlaybackQueue) : bool := playing q.

(** Everything that can happen to a queue. *)
Inductive Op : Type :=
| OpEnqueue (item : QueueItem) (t : Turn)
| OpResume (t : Turn)
| OpStop
| OpClear.

Definition step (q : PlaybackQueue) (op : Op) : PlaybackQueue :=
  match op with
  | OpEnqueue item t => enqueue q item t
  | OpResume t => resume q t
  | OpStop => stop q
  | OpClear => clear q
  end.

Definition run (q : PlaybackQueue) (ops : list Op) : PlaybackQueue :=
  fold_left step ops q.

End Queue.

(* ===================================================================== *)
(** * server.ts: ingress, enrichment, query and broadcast *)
(* ===================================================================== *)

Module Server.
Import JS Schema Store.

(** Maximum accepted HTTP request body size (1MB). *)
Definition MAX_BODY_BYTES : Z := 1024 * 1024.

Definition EVENT_NAME_MAP : list (string * string) :=
  [ ("session-start", "hook.session_start");
    ("pre-tool-use", "hook.pre_tool_use");
    ("post-tool-use", "hook.post_tool_use");
    ("post-tool-use-failure", "hook.post_tool_use_failure");
    ("stop", "hook.stop") ].

Fixpoint assoc (m : list (string * string)) (k : string) : option string :=
  match m with
  | [] => None
  | (k', v) :: r => if String.eqb k' k then Some v else assoc r k
  end.

(** [name.replace(/-/g, '_')] *)
Fixpoint replace_dashes (s : string) : string :=
  match s with
  | EmptyString => EmptyString
  | String c r =>
      String (if Ascii.eqb c "-"%char then "_"%char else c) (replace_dashes r)
  end.

(** [mapEventName] (own keys of the map only: a path segment that names
    a member of Object.prototype is not modelled). *)
Definition mapEventName (name : string) : string :=
  match assoc EVENT_NAME_MAP name with
  | Some t => t
  | None => "hook." +:+ replace_dashes name
  end.

(** [truncateField].  [JSON.stringify(value ?? '')] is a string, since the
    argument is never [undefined]; the last branch is there for totality
    only. *)
Definition truncateField (v : value) (maxLen : nat) : value :=
  match JSON_stringify (nullish v (VStr "")) with
  | Some str =>
      if (String.length str <=? maxLen)%nat then v
      else VStr (String_slice0 str maxLen +:+ "...")
  | None => v
  end.

(** The default of the [maxLen] parameter. *)
Definition DEFAULT_MAX_LEN : nat := 2000.

(** [extractEventFields].  Only [String(raw.tool_error ?? '')] can throw;
    it is evaluated before anything is built from the fields. *)
Definition extractEventFields (eventName : string) (raw : object)
    : completion object :=
  if String.eqb eventName "session-start" then
    Normal
    [ ("hookEvent", VStr "session_start");
      ("sessionId", prop raw "session_id");
      ("source", nullish (prop raw "source") (VStr "unknown"));
      ("model", nullish (prop raw "model") (VStr ""));
      ("agentType", prop raw "agent_type");
      ("permissionMode", prop raw "permission_mode") ]
  else if String.eqb eventName "pre-tool-use" then
    Normal
    [ ("hookEvent", VStr "pre_tool_use");
      ("sessionId", prop raw "session_id");
      ("toolName", nullish (prop raw "tool_name") (VStr ""));
      ("toolInputPreview", truncateField (prop raw "tool_input") DEFAULT_MAX_LEN);
      ("permissionMode", prop raw "permission_mode") ]
  else if String.eqb eventName "post-tool-use" then
    Normal
    [ ("hookEvent", VStr "post_tool_use");
      ("sessionId", prop raw "session_id");
      ("toolName", nullish (prop raw "tool_name") (VStr ""));
      ("toolUseId", nullish (prop raw "tool_use_id") (VStr ""));
      ("toolResultPreview", truncateField (prop raw "tool_result") DEFAULT_MAX_LEN);
      ("permissionMode", prop raw "permission_mode") ]
  else if String.eqb eventName "post-tool-use-failure" then
    match ToString (nullish (prop raw "tool_error") (VStr "")) with
    | Throw name => Throw name
    | Normal toolError =>
        Normal
        [ ("hookEvent", VStr "post_tool_use_failure");
          ("sessionId", prop raw "session_id");
          ("toolName", nullish (prop raw "tool_name") (VStr ""));
          ("toolUseId", nullish (prop raw "tool_use_id") (VStr ""));
          ("toolError", VStr toolError);
          ("permissionMode", prop raw "permission_mode") ]
    end
  else if String.eqb eventName "stop" then
    Normal
    [ ("hookEvent", VStr "stop");
      ("sessionId", prop raw "session_id");
      ("transcriptPath", prop raw "transcript_path");
      ("permissionMode", prop raw "permission_mode") ]
  else
    Normal
    [ ("hookEvent", VStr eventName);
      ("sessionId", prop raw "session_id");
      ("raw", VObj raw) ].

(** [isNonEmptyString] *)
Definition isNonEmptyString (v : value) : bool :=
  match v with
  | VStr s => (0 <? String.length (trim s))%nat
  | _ => false
  end.

(** The string a value was narrowed to by a type guard. *)
Definition as_string (v : value) : string :=
  match v with VStr s => s | _ => EmptyString end.

(** ** Requests, responses and the server state *)

(** A request as the handlers read it: the method, the parsed URL, the
    Content-Length header, the outcome of [req.arrayBuffer()] ([None] when
    it throws, else the byte length) and the outcome of [JSON.parse] on
    the decoded body ([None] when it throws). *)
Record Request : Type := {
  method : string;
  pathname : string;
  searchParams : list (string * string);
  contentLength : option string;
  arrayBuffer : option Z;
  bodyJson : option value
}.

(** [url.searchParams.get(k)]; [None] is null. *)
Definition searchParams_get (req : Request) (k : string) : option string :=
  assoc (searchParams req) k.

(** A response: the status and the JSON body (headers are left out; every
    response of this module carries the same CORS headers). *)
Record Response : Type := {
  status : Z;
  body : value
}.

Definition Response_json (v : value) (status_ : Z) : Response :=
  {| status := status_; body := v |}.

(** A WebSocket client of Bun's pub/sub: the [type] parameter of the URL it
    upgraded with, the topics it is subscribed to and the frames it has
    been sent, oldest first. *)
Record WsClient : Type := {
  url_type : option string;
  topics : gset string;
  received : list string
}.

Definition ws_subscribe (ws : WsClient) (topic : string) : WsClient :=
  {| url_type := url_type ws; topics := topics ws ∪ {[ topic ]};
     received := received ws |}.

Definition ws_unsubscribe (ws : WsClient) (topic : string) : WsClient :=
  {| url_type := url_type ws; topics := topics ws ∖ {[ topic ]};
     received := received ws |}.

(** [websocket.open] *)
Definition websocket_open (ws : WsClient) : WsClient :=
  let ws1 := ws_subscribe ws "events.all" in
  match url_type ws with
  | Some typeFilter =>
      if truthy_string typeFilter then
        ws_unsubscribe (ws_subscribe ws1 ("events." +:+ typeFilter)) "events.all"
      else ws1
  | None => ws1
  end.

(** A connection that has just upgraded with the given [type] parameter. *)
Definition connect (type_param : option string) : WsClient :=
  websocket_open {| url_type := type_param; topics := ∅; received := [] |}.

(** [bunServer.publish(topic, message)]: one frame to every client
    subscribed to the topic. *)
Definition publish (clients : list WsClient) (topic message : string)
    : list WsClient :=
  List.map (fun ws =>
              if bool_decide (topic ∈ topics ws)
              then {| url_type := url_type ws; topics := topics ws;
                      received := received ws ++ [message] |}
              else ws) clients.

Record VoiceSystemConfig : Type := {
  mode : string;
  cacheDir : string
}.

(** What [startServer] closes over. *)
Record ServerState : Type := {
  store : EventStore;
  clients : list WsClient;
  playbackQueue : option Queue.PlaybackQueue;
  voiceConfig : VoiceSystemConfig;
  appName : string;
  appRoot_default : string;
  serverNonce : string
}.

Definition with_store (st : ServerState) (s : EventStore) : ServerState :=
  {| store := s; clients := clients st; playbackQueue := playbackQueue st;
     voiceConfig := voiceConfig st; appName := appName st;
     appRoot_default := appRoot_default st; serverNonce := serverNonce st |}.

Definition with_clients (st : ServerState) (c : list WsClient) : ServerState :=
  {| store := store st; clients := c; playbackQueue := playbackQueue st;
     voiceConfig := voiceConfig st; appName := appName st;
     appRoot_default := appRoot_default st; serverNonce := serverNonce st |}.

Definition with_queue (st : ServerState) (q : option Queue.PlaybackQueue)
    : ServerState :=
  {| store := store st; clients := clients st; playbackQueue := q;
     voiceConfig := voiceConfig st; appName := appName st;
     appRoot_default := appRoot_default st; serverNonce := serverNonce st |}.

(** The outcome of looking a clip up: [selectPhrase], [VOICE_MAP] and
    [cacheGet] consult a random choice and the disk. *)
Inductive ClipLookup : Type :=
| UnknownAgent
| NotCached
| Clip (file label text : string).

(** What the runtime supplies while one request is served. *)
Record Env : Type := {
  runtime : Runtime;
  Date_parse_isNaN : string -> bool;
  persistIO : PersistIO;
  turn : Queue.Turn;
  clipLookup : ClipLookup;
  upgrade_succeeds : bool;
  uptime : Z;
  staticResponse : Response
}.

(** [isValidTimestamp] *)
Definition isValidTimestamp (env : Env) (v : string) : bool :=
  negb (Date_parse_isNaN env v).

(** A field name between double quotes, as the error messages show it. *)
Definition quoted (s : string) : string :=
  String dquote (s +:+ String dquote EmptyString).

Definition missing_or_invalid (field : string) : string :=
  "Missing or invalid " +:+ quoted field +:+ " field".

(** [parseJsonObjectBody]: the parsed object, or the error response. *)
Definition error_response (message : string) (status_ : Z) : Response :=
  Response_json (VObj [("error", VStr message)]) status_.

Definition as_object (v : value) : object :=
  match v with VObj o => o | _ => [] end.

Definition parseJsonObjectBody (req : Request) : object + Response :=
  if (match contentLength req with
      | Some cl =>
          truthy_string cl && Number_isFinite (parseInt cl)
          && num_gt (parseInt cl) (Num MAX_BODY_BYTES)
      | None => false
      end)
  then inr (error_response "Request body too large (max 1MB)" 413)
  else
    match arrayBuffer req with
    | None => inr (error_response "Invalid JSON body" 400)
    | Some byteLength =>
        if (MAX_BODY_BYTES <? byteLength)%Z
        then inr (error_response "Request body too large (max 1MB)" 413)
        else
          match bodyJson req with
          | None => inr (error_response "Invalid JSON body" 400)
          | Some parsed =>
              if negb (truthy parsed) || negb (typeof_object parsed)
                 || Array_isArray parsed
              then inr (error_response "Body must be a JSON object" 400)
              else inl (as_object parsed)
          end
    end.

(** [validateFullEnvelope]: the event, or the error message.  The
    template literal of the first message applies ToString to the posted
    [schemaVersion], which can throw. *)
Definition validateFullEnvelope (env : Env) (body_ : object)
    : completion (EventEnvelope + string) :=
  if negb (strict_eq_string (prop body_ "schemaVersion") "1.0.0") then
    match ToString (prop body_ "schemaVersion") with
    | Throw name => Throw name
    | Normal shown => Normal (inr ("Unknown schemaVersion: " +:+ shown))
    end
  else Normal
  (if negb (isNonEmptyString (prop body_ "id")) then
    inr (missing_or_invalid "id")
  else if negb (isNonEmptyString (prop body_ "timestamp"))
          || negb (isValidTimestamp env (as_string (prop body_ "timestamp"))) then
    inr (missing_or_invalid "timestamp")
  else if negb (isNonEmptyString (prop body_ "type")) then
    inr (missing_or_invalid "type")
  else if negb (isNonEmptyString (prop body_ "app")) then
    inr (missing_or_invalid "app")
  else if negb (isNonEmptyString (prop body_ "appRoot")) then
    inr (missing_or_invalid "appRoot")
  else if negb (strict_eq_string (prop body_ "source") "cli")
          && negb (strict_eq_string (prop body_ "source") "hook") then
    inr (missing_or_invalid "source")
  else if negb (isNonEmptyString (prop body_ "correlationId")) then
    inr (missing_or_invalid "correlationId")
  else if negb (has_prop body_ "data") then
    inr ("Missing " +:+ quoted "data" +:+ " field")
  else
    inl {| schemaVersion := "1.0.0";
           id := as_string (prop body_ "id");
           timestamp := as_string (prop body_ "timestamp");
           type := as_string (prop body_ "type");
           app := as_string (prop body_ "app");
           appRoot := as_string (prop body_ "appRoot");
           source := as_string (prop body_ "source");
           correlationId := as_string (prop body_ "correlationId");
           data := prop body_ "data" |}).

(** [JSON.stringify(envelope)]; an object always serialises. *)
Definition stringify_envelope (e : EventEnvelope) : string :=
  default EmptyString (JSON_stringify (to_value e)).

(** Store the envelope and publish it on the broad and on the specific
    topic: the three statements both ingress handlers end with. *)
Definition store_and_publish (st : ServerState) (env : Env)
    (event : EventEnvelope) : ServerState :=
  let store_ := push (store st) event (persistIO env) in
  let message := stringify_envelope event in
  let clients1 := publish (clients st) "events.all" message in
  let clients2 := publish clients1 ("events." +:+ type event) message in
  with_clients (with_store st store_) clients2.

(** [triggerVoice] *)
Definition triggerVoice (env : Env) (q : Queue.PlaybackQueue)
    (cfg : VoiceSystemConfig) : Queue.PlaybackQueue :=
  if String.eqb (mode cfg) "off" then q
  else
    match clipLookup env with
    | Clip file label_ text =>
        Queue.enqueue q
          {| Queue.filePath := file;
             Queue.label := label_ +:+ ": " +:+ quoted text;
             Queue.enqueuedAt := Queue.Date_now (turn env) |}
          (turn env)
    | _ => q
    end.

(** [handleHookEvent]: the response, or the error the returned promise
    is rejected with, and the state left behind.  The arguments of
    [createEvent] are evaluated before anything is stored, so a throw in
    [extractEventFields] leaves the state as it was. *)
Definition handleHookEvent (st : ServerState) (env : Env) (req : Request)
    (eventName : string) : completion Response * ServerState :=
  match parseJsonObjectBody req with
  | inr response => (Normal response, st)
  | inl raw =>
      if String.eqb eventName "stop" && strict_eq_true (prop raw "stop_hook_active")
      then (Normal (Response_json (VObj [("status", VStr "skipped");
                                         ("reason", VStr "stop_hook_active")]) 200), st)
      else
        let eventType := mapEventName eventName in
        let appRoot_ := match prop raw "cwd" with
                        | VStr cwd => cwd
                        | _ => appRoot_default st
                        end in
        let appName_ := if isNonEmptyString (prop raw "app")
                        then as_string (prop raw "app") else appName st in
        match extractEventFields eventName raw with
        | Throw name => (Throw name, st)
        | Normal fields =>
            let envelope :=
              createEvent (runtime env) eventType (VObj fields)
                {| context_app := appName_;
                   context_appRoot := appRoot_;
                   context_source := "hook";
                   context_correlationId :=
                     Some (generateCorrelationId (runtime env)) |} in
            let st1 := store_and_publish st env envelope in
            let st2 :=
              match playbackQueue st1 with
              | Some q =>
                  if String.eqb eventName "stop"
                  then with_queue st1 (Some (triggerVoice env q (voiceConfig st1)))
                  else st1
              | None => st1
              end in
            (Normal (Response_json (VObj [("id", VStr (id envelope))]) 201), st2)
        end
  end.

(** [handlePostEnvelope]: the response, or the error the returned
    promise is rejected with, and the state left behind. *)
Definition handlePostEnvelope (st : ServerState) (env : Env) (req : Request)
    : completion Response * ServerState :=
  match parseJsonObjectBody req with
  | inr response => (Normal response, st)
  | inl body_ =>
      if negb (is_string (prop body_ "type")) then
        (Normal (error_response (missing_or_invalid "type") 400), st)
      else if negb (has_prop body_ "data") then
        (Normal (error_response ("Missing " +:+ quoted "data" +:+ " field") 400), st)
      else
        let checked :=
          match prop body_ "schemaVersion" with
          | VUndefined =>
              (* Partial payload -- wrap in a full envelope *)
              Normal (inl (createEvent (runtime env)
                     (as_string (prop body_ "type"))
                     (nullish (prop body_ "data") (VObj []))
                     {| context_app :=
                          if isNonEmptyString (prop body_ "app")
                          then as_string (prop body_ "app") else appName st;
                        context_appRoot :=
                          if isNonEmptyString (prop body_ "appRoot")
                          then as_string (prop body_ "appRoot")
                          else appRoot_default st;
                        context_source :=
                          if strict_eq_string (prop body_ "source") "hook"
                          then "hook" else "cli";
                        context_correlationId :=
                          if isNonEmptyString (prop body_ "correlationId")
                          then Some (as_string (prop body_ "correlationId"))
                          else None |}))
          | _ => validateFullEnvelope env body_
          end in
        match checked with
        | Throw name => (Throw name, st)
        | Normal (inr error) => (Normal (error_response error 400), st)
        | Normal (inl event) =>
            (Normal (Response_json (VObj [("ok", VBool true);
                                          ("id", VStr (id event))]) 201),
             store_and_publish st env event)
        end
  end.

(** An array slot as a JSON value. *)
Definition slot_value (slot : option EventEnvelope) : value :=
  match slot with
  | Some e => to_value e
  | None => VUndefined
  end.

(** [handleGetEvents]; it throws when [store.query] does. *)
Definition handleGetEvents (req : Request) (s : EventStore) : completion Response :=
  let type_ := searchParams_get req "type" in
  let since := searchParams_get req "since" in
  let limitStr := searchParams_get req "limit" in
  let rawLimit := match limitStr with
                  | Some l => if truthy_string l then parseInt l else Num 100
                  | None => Num 100
                  end in
  let limit := Math_min rawLimit (Num 1000) in
  match query s {| filter_type := type_;
                   filter_since := since;
                   filter_limit := Some limit |} with
  | Normal events => Normal (Response_json (VArr (List.map slot_value events)) 200)
  | Throw name => Throw name
  end.

(** The body of GET /health. *)
Definition handleHealth (st : ServerState) (env : Env) : completion Response :=
  match typeCounts (store st) with
  | Throw name => Throw name
  | Normal counts =>
      Normal (Response_json
        (VObj [ ("status", VStr "ok");
                ("nonce", VStr (serverNonce st));
                ("uptime", VNum (uptime env));
                ("events",
                 VObj [ ("total", VNum (Z.of_nat (size (store st))));
                        ("types",
                         VObj (List.map (fun kn => (fst kn, VNum (Z.of_nat (snd kn))))
                                        counts)) ]);
                ("persistErrors", VNum (Z.of_nat (persistErrors (store st))));
                ("wsClients",
                 VNum (Z.of_nat (length (List.filter
                         (fun ws => bool_decide ("events.all" ∈ topics ws))
                         (clients st)))));
                ("version", VStr "1.0.0");
                ("voice",
                 VObj [ ("mode", VStr (mode (voiceConfig st)));
                        ("queueDepth",
                         VNum (match playbackQueue st with
                               | Some q => Z.of_nat (Queue.depth q)
                               | None => 0
                               end));
                        ("isPlaying",
                         VBool (match playbackQueue st with
                                | Some q => Queue.isPlaying q
                                | None => false
                                end)) ]) ]) 200)
  end.

(** [/^\/events\/([^/]+)$/]: the captured segment. *)
Fixpoint has_slash (s : string) : bool :=
  match s with
  | EmptyString => false
  | String c r => Ascii.eqb c "/"%char || has_slash r
  end.

Definition hookMatch (path : string) : option string :=
  if String.prefix "/events/" path then
    let segment := substring 8 (String.length path - 8) path in
    if truthy_string segment && negb (has_slash segment) then Some segment else None
  else None.

(** [handleVoiceNotify] of voice/router.ts.  Reading a property of a
    null body throws. *)
Definition handleVoiceNotify (st : ServerState) (env : Env) (req : Request)
    (q : Queue.PlaybackQueue) : completion Response * ServerState :=
  let refuse reason status_ :=
    Response_json (VObj [("queued", VBool false); ("reason", VStr reason)]) status_ in
  if String.eqb (mode (voiceConfig st)) "off" then (Normal (refuse "voice_disabled" 200), st)
  else
    match bodyJson req with
    | None => (Normal (refuse "invalid_body" 400), st)
    | Some VNull => (Throw "TypeError", st)
    | Some _ =>
        match clipLookup env with
        | UnknownAgent => (Normal (refuse "unknown_agent" 200), st)
        | NotCached => (Normal (refuse "not_cached" 200), st)
        | Clip file label_ text =>
            (Normal (Response_json (VObj [("queued", VBool true);
                                          ("label", VStr label_);
                                          ("text", VStr text)]) 200),
             with_queue st (Some (triggerVoice env q (voiceConfig st))))
        end
    end.

(** The [fetch] handler of [Bun.serve]: [None] is the [undefined] returned
    after a successful upgrade. *)
Definition fetch (st : ServerState) (env : Env) (req : Request)
    : completion (option Response) * ServerState :=
  if String.eqb (method req) "OPTIONS" then
    (Normal (Some {| status := 204; body := VNull |}), st)
  else if String.eqb (pathname req) "/ws" then
    if upgrade_succeeds env then
      (Normal None,
       with_clients st (clients st ++ [connect (searchParams_get req "type")]))
    else (Normal (Some {| status := 400; body := VStr "WebSocket upgrade failed" |}), st)
  else
    match (if String.eqb (method req) "POST" then hookMatch (pathname req) else None) with
    | Some eventName =>
        let '(response, st') := handleHookEvent st env req eventName in
        (match response with
         | Normal r => Normal (Some r)
         | Throw name => Throw name
         end, st')
    | None =>
        if String.eqb (method req) "POST" && String.eqb (pathname req) "/voice/notify" then
          match playbackQueue st with
          | Some q =>
              if String.eqb (mode (voiceConfig st)) "off" then
                (Normal (Some (Response_json
                   (VObj [("queued", VBool false); ("reason", VStr "voice_disabled")]) 200)), st)
              else
                let '(response, st') := handleVoiceNotify st env req q in
                (match response with
                 | Normal r => Normal (Some r)
                 | Throw name => Throw name
                 end, st')
          | None =>
              (Normal (Some (Response_json
                 (VObj [("queued", VBool false); ("reason", VStr "voice_disabled")]) 200)), st)
          end
        else if String.eqb (method req) "POST" && String.eqb (pathname req) "/events" then
          let '(response, st') := handlePostEnvelope st env req in
          (match response with
           | Normal r => Normal (Some r)
           | Throw name => Throw name
           end, st')
        else if String.eqb (method req) "GET" && String.eqb (pathname req) "/events" then
          (match handleGetEvents req (store st) with
           | Normal r => Normal (Some r)
           | Throw name => Throw name
           end, st)
        else if String.eqb (method req) "GET" && String.eqb (pathname req) "/health" then
          (match handleHealth st env with
           | Normal r => Normal (Some r)
           | Throw name => Throw name
           end, st)
        else (Normal (Some (staticResponse env)), st)
    end.

End Server.

(* ===================================================================== *)
(** * emit.ts: the fire-and-forget emitter *)
(* ===================================================================== *)

Module Emit.
Import JS Schema.

(** Rate-limit interval for emit failure logging (30 seconds). *)
Definition EMIT_FAILURE_LOG_INTERVAL_MS : Z := 30000.

(** The two module-level variables. *)
Record EmitState : Type := {
  emitFailures : nat;
  lastEmitFailureLogAt : Z
}.

Definition initial : EmitState :=
  {| emitFailures := 0%nat; lastEmitFailureLogAt := 0 |}.

(** How the promise of [fetch] settles: fulfilled with a response of some
    HTTP status, or rejected (connection refused, abort by the 500 ms
    timer, ...) with an error that prints as [err]. *)
Inductive FetchOutcome : Type :=
| Fulfilled (status : Z)
| Rejected (err : string).

(** The world of one call: the network, as a function of the URL and the
    body posted, and the clock read in the catch block. *)
Record World : Type := {
  fetch : string -> string -> FetchOutcome;
  Date_now : Z
}.

Definition newline : string := String (ascii_of_nat 10) EmptyString.

(** [emitEvent]: the new state and the lines written to stderr. *)
Definition emitEvent (st : EmitState) (w : World) (event : EventEnvelope)
    (port : Z) : completion (EmitState * list string) :=
  let url := "http://127.0.0.1:" +:+ Z_to_string port +:+ "/events" in
  let body := default EmptyString (JSON_stringify (to_value event)) in
  (* try { await fetch(...); emitFailures = 0 } *)
  let attempt : completion EmitState :=
    match fetch w url body with
    | Fulfilled _ =>
        Normal {| emitFailures := 0%nat;
                  lastEmitFailureLogAt := lastEmitFailureLogAt st |}
    | Rejected err => Throw err
    end in
  (* catch (err) { ... } finally { clearTimeout(timeout) } *)
  match attempt with
  | Normal st' => Normal (st', [])
  | Throw err =>
      let failures := S (emitFailures st) in
      let now := Date_now w in
      if (EMIT_FAILURE_LOG_INTERVAL_MS <=? now - lastEmitFailureLogAt st)%Z then
        Normal ({| emitFailures := failures; lastEmitFailureLogAt := now |},
                ["[emitter] emit failure #" +:+ Z_to_string (Z.of_nat failures)
                 +:+ ": " +:+ err +:+ newline])
      else
        Normal ({| emitFailures := failures;
                   lastEmitFailureLogAt := lastEmitFailureLogAt st |}, [])
  end.

End Emit.
(* ===================================================================== *)
(** * The doubles of the reconnecting client *)
(* ===================================================================== *)

Module Double.

Local Open Scope Q_scope.

(** A JavaScript number where fractions matter: a finite double, given by
    its value, an infinity, or NaN.  (The two zeros are not told apart.)
    The result of an operation on finite doubles is the exact result
    rounded to the nearest double, ties to even, and an infinity when
    that is beyond the largest double. *)
Inductive double : Type :=
| Fin (x : Q)
| Inf
| NInf
| DNaN.

(** Round half to even, to an integer. *)
Definition rne (y : Q) : Z :=
  let f := Qfloor y in
  match Qcompare (y - inject_Z f) (1 # 2) with
  | Lt => f
  | Gt => (f + 1)%Z
  | Eq => if Z.even f then f else (f + 1)%Z
  end.

(** Rounding to 53 significant bits.  [X >= 0] is a magnitude in units
    of 2^-1074, the smallest positive double.  Below 2^53 units the
    doubles are the integers; a larger magnitude has a floor of
    [53 + shift X] bits, and the doubles around it are the multiples of
    [2 ^ shift X]. *)
Definition shift (X : Q) : Z := Z.max 0 (Z.log2 (Qfloor X) - 52).

Definition nearest (X : Q) : Z :=
  (rne (X / inject_Z (2 ^ shift X)) * 2 ^ shift X)%Z.

(** The magnitude [x >= 0] rounded to the nearest double, in units of
    2^-1074, the exponent not bounded above. *)
Definition grid (x : Q) : Z := nearest (x * inject_Z (2 ^ 1074)).

(** The double nearest to a rational: an infinity from 2^1024 units of
    2^-1074 on, that is from 2^1024. *)
Definition round (x : Q) : double :=
  let N := grid (Qabs x) in
  if (2 ^ 2098 <=? N)%Z then (if Qle_bool 0 x then Inf else NInf)
  else Fin (Qred ((if Qle_bool 0 x then inject_Z N else inject_Z (- N))
                  / inject_Z (2 ^ 1074))).

(** [a * b] *)
Definition dmul (a b : double) : double :=
  match a, b with
  | DNaN, _ | _, DNaN => DNaN
  | Fin x, Fin y => round (x * y)
  | Fin x, Inf | Inf, Fin x =>
      if Qeq_bool x 0 then DNaN else if Qle_bool 0 x then Inf else NInf
  | Fin x, NInf | NInf, Fin x =>
      if Qeq_bool x 0 then DNaN else if Qle_bool 0 x then NInf else Inf
  | Inf, Inf | NInf, NInf => Inf
  | Inf, NInf | NInf, Inf => NInf
  end.

(** [a + b] *)
Definition dadd (a b : double) : double :=
  match a, b with
  | DNaN, _ | _, DNaN => DNaN
  | Fin x, Fin y => round (x + y)
  | Inf, NInf | NInf, Inf => DNaN
  | Inf, _ | _, Inf => Inf
  | NInf, _ | _, NInf => NInf
  end.

(** [Math.min(a, b)]: NaN when either argument is NaN. *)
Definition dmin (a b : double) : double :=
  match a, b with
  | DNaN, _ | _, DNaN => DNaN
  | NInf, _ | _, NInf => NInf
  | Inf, c | c, Inf => c
  | Fin x, Fin y => if Qle_bool x y then Fin x else Fin y
  end.

(** The rational 2^n. *)
Definition exp2 (n : nat) : Q := inject_Z (2 ^ Z.of_nat n).

(** [2 ** n] for a natural number [n]: the power itself up to 2^1023,
    Infinity from 2^1024 on. *)
Definition dpow2 (n : nat) : double :=
  if (n <? 1024)%nat then Fin (exp2 n) else Inf.

(** [a <= b]; NaN compares with nothing. *)
Definition dle (a b : double) : Prop :=
  match a, b with
  | DNaN, _ | _, DNaN => False
  | NInf, _ => True
  | _, Inf => True
  | Fin x, Fin y => x <= y
  | Fin _, NInf => False
  | Inf, _ => False
  end.

(** A rational that is a double: rounding leaves it as it is. *)
Definition representable (x : Q) : Prop := round x = Fin (Qred x).

End Double.



(* ===================================================================== *)
(** * client.ts: the reconnecting WebSocket client *)
(* ===================================================================== *)

Module Client.
Import Double.

Local Open Scope Q_scope.

(** Delays are milliseconds, as doubles. *)

(** Base reconnect delay in milliseconds (1 second). *)
Definition BASE_RECONNECT_DELAY_MS : double := Fin 1000.

(** Maximum reconnect delay in milliseconds (30 seconds). *)
Definition MAX_RECONNECT_DELAY_MS : double := Fin 30000.

Record EventClientOptions : Type := {
  port : Z;
  typeFilter : option string;
  host : option string;
  autoReconnect : option bool;
  reconnectDelay : option double
}.

(** The variables [connectEventClient] closes over.  [ws] is the target
    of the open socket, [reconnectTimer] the delay of the timer last
    armed, [attempt] a count of closes (a number that [attempt++] counts
    exactly up to 2^53). *)
Record ClientState : Type := {
  closed : bool;
  ws : option (string * Z * option string);
  reconnectTimer : option double;
  attempt : nat
}.

(** [connect] *)
Definition connect (o : EventClientOptions) (st : ClientState) : ClientState :=
  if closed st then st
  else {| closed := closed st;
          ws := Some (default "localhost"%string (host o), port o, typeFilter o);
          reconnectTimer := reconnectTimer st;
          attempt := attempt st |}.

(** [connectEventClient]: the initial variables, then [connect()]. *)
Definition connectEventClient (o : EventClientOptions) : ClientState :=
  connect o {| closed := false; ws := None; reconnectTimer := None; attempt := 0%nat |}.

(** [ws.onopen] *)
Definition onopen (st : ClientState) : ClientState :=
  {| closed := closed st; ws := ws st; reconnectTimer := reconnectTimer st;
     attempt := 0%nat |}.

(** [Math.min(reconnectDelay * 2 ** attempt, MAX_RECONNECT_DELAY_MS)] *)
Definition backoff_base (reconnectDelay_ : double) (n : nat) : double :=
  dmin (dmul reconnectDelay_ (dpow2 n)) MAX_RECONNECT_DELAY_MS.

(** [Math.random() * 1000], when [Math.random()] returns [r]. *)
Definition jitter (r : Q) : double := dmul (Fin r) (Fin 1000).

(** The delay handed to [setTimeout] by [ws.onclose] at attempt [n], when
    [Math.random()] returns [r]: [base + jitter]. *)
Definition reconnect_wait (reconnectDelay_ : double) (n : nat) (r : Q) : double :=
  dadd (backoff_base reconnectDelay_ n) (jitter r).

(** [ws.onclose]; [random] is the value [Math.random()] returns. *)
Definition onclose (o : EventClientOptions) (st : ClientState) (random : Q)
    : ClientState :=
  if negb (closed st) && default true (autoReconnect o) then
    {| closed := closed st;
       ws := None;
       reconnectTimer :=
         Some (reconnect_wait (default BASE_RECONNECT_DELAY_MS (reconnectDelay o))
                              (attempt st) random);
       attempt := S (attempt st) |}
  else
    {| closed := closed st; ws := None; reconnectTimer := reconnectTimer st;
       attempt := attempt st |}.

(** The reconnect timer fires: [connect()]. *)
Definition ontimer (o : EventClientOptions) (st : ClientState) : ClientState :=
  connect o st.

(** [close()] of the handle. *)
Definition close (st : ClientState) : ClientState :=
  {| closed := true; ws := None; reconnectTimer := None; attempt := attempt st |}.

End Client.

(* ===================================================================== *)
(** * Vocabulary of the statements *)
(* ===================================================================== *)

Module Spec.
Import JS Schema Store.

(** A sequence of pushes, each with what the file system and the clock do
    during it. *)
Definition pushes (s : EventStore) (l : list (EventEnvelope * PersistIO))
    : EventStore :=
  fold_left (fun s p => push s (fst p) (snd p)) l s.

(** The last [n] elements of a list, in order. *)
Definition lastn {A : Type} (n : nat) (l : list A) : list A :=
  skipn (length l - n) l.

(** The representation invariant of a store of positive capacity: the
    buffer has [capacity] slots, and the cursor is the count until the
    buffer is full. *)
Record ring_inv (s : EventStore) : Prop := {
  inv_length : length (buffer s) = capacity s;
  inv_capacity : (0 < capacity s)%nat;
  inv_count : (count s <= capacity s)%nat;
  inv_index : exists w : nat,
      writeIndex s = Num (Z.of_nat w) /\ (w < capacity s)%nat /\
      ((count s < capacity s)%nat -> w = count s)
}.

(** [query] as the specification words it: keep the envelopes of the given
    type, then those strictly after [since], then the last [limit], and
    nothing when [limit <= 0]. *)
Definition query_as_specified (type_ since : option string) (limit : option Z)
    (l : list EventEnvelope) : list EventEnvelope :=
  let l1 := match type_ with
            | Some t => List.filter (fun e => String.eqb (type e) t) l
            | None => l
            end in
  let l2 := match since with
            | Some t => List.filter (fun e => String.ltb t (timestamp e)) l1
            | None => l1
            end in
  match limit with
  | Some n => if (n <=? 0)%Z then [] else lastn (Z.to_nat n) l2
  | None => l2
  end.

(** The three steps of [query] as the code composes them: a step is taken
    when its field is given and, for the two strings, not empty. *)
Definition keep_type (t : option string) (l : list EventEnvelope)
    : list EventEnvelope :=
  match t with
  | Some t => if truthy_string t
              then List.filter (fun e => String.eqb (type e) t) l else l
  | None => l
  end.

Definition keep_since (since : option string) (l : list EventEnvelope)
    : list EventEnvelope :=
  match since with
  | Some t => if truthy_string t
              then List.filter (fun e => String.ltb t (timestamp e)) l else l
  | None => l
  end.

Definition take_limit (limit : option number) (l : list EventEnvelope)
    : list EventEnvelope :=
  match limit with
  | None => l
  | Some n =>
      if num_le n (Num 0) then []
      else match n with
           | Num z => lastn (Z.to_nat z) l
           | _ => l
           end
  end.

Definition query_steps (f : EventFilter) (l : list EventEnvelope)
    : list EventEnvelope :=
  take_limit (filter_limit f) (keep_since (filter_since f) (keep_type (filter_type f) l)).

(** A string with something other than white space in it. *)
Definition nonblank (s : string) : Prop := (0 < String.length (trim s))%nat.

(** What [validateFullEnvelope] guarantees of the envelope it builds from
    the posted object [body]. *)
Record validated (env : Server.Env) (body : object) (e : EventEnvelope) : Prop := {
  v_schemaVersion : schemaVersion e = "1.0.0";
  v_id : prop body "id" = VStr (id e) /\ nonblank (id e);
  v_timestamp : prop body "timestamp" = VStr (timestamp e) /\ nonblank (timestamp e)
                /\ Server.Date_parse_isNaN env (timestamp e) = false;
  v_type : prop body "type" = VStr (type e) /\ nonblank (type e);
  v_app : prop body "app" = VStr (app e) /\ nonblank (app e);
  v_appRoot : prop body "appRoot" = VStr (appRoot e) /\ nonblank (appRoot e);
  v_source : prop body "source" = VStr (source e)
             /\ (source e = "cli" \/ source e = "hook");
  v_correlationId : prop body "correlationId" = VStr (correlationId e)
                    /\ nonblank (correlationId e);
  v_data : has_prop body "data" = true /\ data e = prop body "data"
}.

(** The number of frames one client is owed for one envelope: one when it
    has no type filter or its filter is the type of the envelope, none
    otherwise.  (A [type] parameter that is the empty string is no
    filter.) *)
Definition frames_owed (ws : Server.WsClient) (e : EventEnvelope) : nat :=
  match Server.url_type ws with
  | Some F =>
      if truthy_string F then (if String.eqb F (type e) then 1%nat else 0%nat)
      else 1%nat
  | None => 1%nat
  end.

(** A client as [websocket.open] leaves it: its topics are those of its
    URL.  (Nothing else subscribes or unsubscribes.) *)
Definition opened (ws : Server.WsClient) : Prop :=
  Server.topics ws = Server.topics (Server.connect (Server.url_type ws)).

(** A run of calls to [emitEvent], each in its own world: the final
    state and the lines written to stderr, each with the time on the
    clock when it was written. *)
Fixpoint emit_run (st : Emit.EmitState)
    (calls : list (Emit.World * EventEnvelope * Z))
    : Emit.EmitState * list (Z * string) :=
  match calls with
  | [] => (st, [])
  | (w, event, port) :: rest =>
      match Emit.emitEvent st w event port with
      | Normal (st', lines) =>
          let '(final, log) := emit_run st' rest in
          (final, List.map (fun line => (Emit.Date_now w, line)) lines ++ log)
      | Throw _ => (st, [])
      end
  end.

(** Two log entries at least 30 seconds apart, the second one later. *)
Definition spaced (a b : Z * string) : Prop :=
  (Emit.EMIT_FAILURE_LOG_INTERVAL_MS <= fst b - fst a)%Z.

(** The reconnect wait as the specification words it:
    min(base * 2^attempt + random(0..1000 ms), 30 000 ms), in the
    arithmetic of the code; [r] is the value [Math.random()] returns. *)
Definition reconnect_wait_as_specified (base : Double.double) (n : nat) (r : Q)
    : Double.double :=
  Double.dmin (Double.dadd (Double.dmul base (Double.dpow2 n)) (Client.jitter r))
              Client.MAX_RECONNECT_DELAY_MS.

End Spec.

(* ===================================================================== *)
(** * Concrete inputs used by the examples *)
(* ===================================================================== *)

Module Sample.
Import JS Schema Store.

Definition event (id_ type_ : string) : EventEnvelope :=
  {| schemaVersion := "1.0.0"; id := id_;
     timestamp := "2026-01-01T00:00:00.000Z"; type := type_;
     app := "app"; appRoot := "/p"; source := "cli";
     correlationId := "0a1b2c3d"; data := VObj [] |}.

Definition quiet : PersistIO := {| appendThrows := false; Date_now := 0 |}.

Definition store_of (capacity_ : nat) (events : list EventEnvelope) : EventStore :=
  Spec.pushes (new_EventStore {| options_capacity := Some capacity_;
                                 options_persistPath := None |})
              (List.map (fun e => (e, quiet)) events).

(** A stand-in for the engine's [Date.parse] in the examples: it accepts
    the shape [toISOString] prints, dddd-dd-ddTdd:dd:dd.dddZ. *)
Fixpoint has_shape (pattern s : string) : bool :=
  match pattern, s with
  | EmptyString, EmptyString => true
  | String p pr, String c sr =>
      (if Ascii.eqb p "d"%char
       then match digit_of c with Some _ => true | None => false end
       else Ascii.eqb p c)
      && has_shape pr sr
  | _, _ => false
  end.

Definition iso_parse_isNaN (s : string) : bool :=
  negb (has_shape "dddd-dd-ddTdd:dd:dd.dddZ" s).

Definition env : Server.Env :=
  {| Server.runtime := {| nanoId := "V1StGXR8"; 
                          toISOString := "2026-01-01T00:00:00.000Z";
                          generateCorrelationId := "0a1b2c3d" |};
     Server.Date_parse_isNaN := iso_parse_isNaN;
     Server.persistIO := quiet;
     Server.turn := {| Queue.Date_now := 0; Queue.spawnThrows := false |};
     Server.clipLookup := Server.NotCached;
     Server.upgrade_succeeds := true;
     Server.uptime := 0;
     Server.staticResponse := {| Server.status := 404; Server.body := VStr "Not Found" |} |}.

(** A server with the given store and WebSocket clients, voice off. *)
Definition server (s : EventStore) (clients_ : list Server.WsClient)
    : Server.ServerState :=
  {| Server.store := s;
     Server.clients := clients_;
     Server.playbackQueue := None;
     Server.voiceConfig := {| Server.mode := "off"; Server.cacheDir := "/c" |};
     Server.appName := "app";
     Server.appRoot_default := "/p";
     Server.serverNonce := "nonce" |}.

(** A request with a small JSON body. *)
Definition post (path : string) (json : value) : Server.Request :=
  {| Server.method := "POST"; Server.pathname := path;
     Server.searchParams := []; Server.contentLength := None;
     Server.arrayBuffer := Some 64; Server.bodyJson := Some json |}.

Definition get (path : string) (params : list (string * string)) : Server.Request :=
  {| Server.method := "GET"; Server.pathname := path;
     Server.searchParams := params; Server.contentLength := None;
     Server.arrayBuffer := Some 0; Server.bodyJson := None |}.

(** A full envelope as a producer posts it, with the given [data]. *)
Definition full_envelope (type_ : string) (data_ : value) : value :=
  VObj [ ("schemaVersion", VStr "1.0.0");
         ("id", VStr "abc123");
         ("timestamp", VStr "2026-01-01T00:00:00.000Z");
         ("type", VStr type_);
         ("app", VStr "app");
         ("appRoot", VStr "/p");
         ("source", VStr "cli");
         ("correlationId", VStr "0a1b2c3d");
         ("data", data_) ].

End Sample.


(* ===================================================================== *)
(** * More vocabulary: decimal numerals *)
(* ===================================================================== *)

Module Numeral.


End Numeral.

(* ===================================================================== *)
(** * server.ts: the discovery files and server start-up *)
(* ===================================================================== *)

Module Discovery.
Import JS Schema Store Server.

(** The global cache directory is a finite map from file name to file
    content.  The host tells whether signal 0 reaches a process
    ([process.kill(pid, 0)] returns) and whether unlinking a file throws. *)
Record Host : Type := {
  kill0_succeeds : Z -> bool;
  unlinkThrows : string -> bool
}.

(** [Number.isInteger] on the integral numbers *)
Definition Number_isInteger (n : number) : bool :=
  match n with Num _ => true | _ => false end.

(** [isProcessRunning] *)
Definition isProcessRunning (h : Host) (pid : number) : bool :=
  if negb (Number_isInteger pid) || num_le pid (Num 0) then false
  else match pid with
       | Num z => kill0_succeeds h z
       | _ => false
       end.


(** One round of the loop of [removePidFiles]: unlink the file if it
    exists, swallowing a failure. *)
Definition remove_one (h : Host) (dir : gmap string string) (f : string)
    : gmap string string :=
  match dir !! f with
  | Some _ => if unlinkThrows h f then dir else delete f dir
  | None => dir
  end.

(** [removePidFiles] *)
Definition removePidFiles (h : Host) (dir : gmap string string)
    : gmap string string :=
  fold_left (remove_one h) ["events.port"; "events.pid"; "events.nonce"] dir.

(** [readEventServerPort]: the port or null, and the directory it
    leaves.  Reading a missing file throws, which the catch block turns
    into null. *)
Definition readEventServerPort (h : Host) (dir : gmap string string)
    : option number * gmap string string :=
  match dir !! "events.pid" with
  | None => (None, dir)
  | Some pidText =>
      match dir !! "events.port" with
      | None => (None, dir)
      | Some portText =>
          let pid := parseInt pidText in
          let port := parseInt portText in
          let validPid := Number_isInteger pid && num_gt pid (Num 0) in
          let validPort := Number_isInteger port && num_le (Num 1) port
                           && num_le port (Num 65535) in
          if negb validPid || negb validPort then (None, removePidFiles h dir)
          else if negb (isProcessRunning h pid) then (None, removePidFiles h dir)
          else (Some port, dir)
      end
  end.






(** The signal handler of [registerSignalHandlers], up to [process.exit]:
    stop the queue, remove the discovery files. *)
Definition cleanup (h : Host) (st : ServerState) (dir : gmap string string)
    : ServerState * gmap string string :=
  (with_queue st (option_map Queue.stop (playbackQueue st)),
   removePidFiles h dir).

End Discovery.

(* ===================================================================== *)
(** * More vocabulary: runs of the client and of the server *)
(* ===================================================================== *)

Module Runs.
Import JS Schema Store.

(** What can happen to the reconnecting client: the socket opens, the
    socket closes (with the value [Math.random()] returns then), the
    reconnect timer fires, the owner calls [close()]. *)
Inductive ClientEvent : Type :=
| SocketOpens
| SocketCloses (random : Q)
| TimerFires
| HandleClose.

Definition client_step (o : Client.EventClientOptions) (st : Client.ClientState)
    (ev : ClientEvent) : Client.ClientState :=
  match ev with
  | SocketOpens => Client.onopen st
  | SocketCloses random => Client.onclose o st random
  | TimerFires => Client.ontimer o st
  | HandleClose => Client.close st
  end.

Definition client_run (o : Client.EventClientOptions) (st : Client.ClientState)
    (evs : list ClientEvent) : Client.ClientState :=
  fold_left (client_step o) evs st.

(** The queue of the server, if any, is within its depth bound. *)
Definition queue_bounded (st : Server.ServerState) : Prop :=
  match Server.playbackQueue st with
  | Some q => (Queue.depth q <= Queue.maxDepth (Queue.config q))%nat
  | None => True
  end.

(** [EVENT_NAME_MAP] is an object literal, so indexing it with the name of
    a member of Object.prototype finds that member.  [mapEventName] is
    modelled on the other names, the plain keys. *)
Definition Object_prototype_keys : list string :=
  [ "constructor"; "hasOwnProperty"; "isPrototypeOf"; "propertyIsEnumerable";
    "toLocaleString"; "toString"; "valueOf"; "__proto__";
    "__defineGetter__"; "__defineSetter__"; "__lookupGetter__"; "__lookupSetter__" ].

Definition plain_key (name : string) : bool :=
  negb (existsb (String.eqb name) Object_prototype_keys).

(** What can happen to a running server: a request is served (in its
    own turn of the runtime), the clip being played ends and the drain loop
    of the queue goes on, a WebSocket client goes away (Bun unsubscribes
    it). *)
Inductive ServerEvent : Type :=
| Served (env : Server.Env) (req : Server.Request)
| ClipEnds (t : Queue.Turn)
| SocketGone (i : nat).

Definition server_step (st : Server.ServerState) (ev : ServerEvent)
    : Server.ServerState :=
  match ev with
  | Served env req => snd (Server.fetch st env req)
  | ClipEnds t =>
      Server.with_queue st
        (option_map (fun q => Queue.resume q t) (Server.playbackQueue st))
  | SocketGone i => Server.with_clients st (delete i (Server.clients st))
  end.

Definition server_run (st : Server.ServerState) (evs : list ServerEvent)
    : Server.ServerState :=
  fold_left server_step evs st.

(** The events inside the model of [mapEventName]: no request names a
    member of Object.prototype as its hook event. *)
Definition plain_event (ev : ServerEvent) : bool :=
  match ev with
  | Served _ req =>
      match Server.hookMatch (Server.pathname req) with
      | Some name => plain_key name
      | None => true
      end
  | _ => true
  end.

(** Every client is as [websocket.open] left it, and the queue is within
    its bound. *)
Definition healthy (st : Server.ServerState) : Prop :=
  Forall Spec.opened (Server.clients st) /\ queue_bounded st.

(** What a server never changes once started. *)
Definition same_identity (st st' : Server.ServerState) : Prop :=
  Server.serverNonce st' = Server.serverNonce st /\
  Server.appName st' = Server.appName st /\
  Server.appRoot_default st' = Server.appRoot_default st /\
  Server.voiceConfig st' = Server.voiceConfig st /\
  option_map Queue.config (Server.playbackQueue st')
  = option_map Queue.config (Server.playbackQueue st) /\
  exists ps, Server.store st' = Spec.pushes (Server.store st) ps.

(** The voice trigger that ends [handleHookEvent]: on a stop event, when
    the server has a playback queue. *)
Definition after_voice (env : Server.Env) (name : string)
    (st1 : Server.ServerState) : Server.ServerState :=
  match Server.playbackQueue st1 with
  | Some q =>
      if String.eqb name "stop"
      then Server.with_queue st1
             (Some (Server.triggerVoice env q (Server.voiceConfig st1)))
      else st1
  | None => st1
  end.

(** The values ToString throws on: an object with an own property
    [toString], or an array that holds such a value. *)
Fixpoint unprintable (v : value) : bool :=
  match v with
  | VObj props => hasOwn props "toString"
  | VArr elems =>
      (fix any (l : list value) : bool :=
         match l with
         | [] => false
         | x :: r => unprintable x || any r
         end) elems
  | _ => false
  end.

(** The envelope [handleHookEvent] builds for an event name, a parsed
    body and the fields extracted from it. *)
Definition hook_envelope (st : Server.ServerState) (env : Server.Env)
    (name : string) (raw fields : object) : EventEnvelope :=
  {| schemaVersion := "1.0.0";
     id := nanoId (Server.runtime env);
     timestamp := toISOString (Server.runtime env);
     type := "hook." +:+ Server.replace_dashes name;
     app := match prop raw "app" with
            | VStr a => if (0 <? String.length (trim a))%nat
                        then a else Server.appName st
            | _ => Server.appName st
            end;
     appRoot := match prop raw "cwd" with
                | VStr cwd => cwd
                | _ => Server.appRoot_default st
                end;
     source := "hook";
     correlationId := generateCorrelationId (Server.runtime env);
     data := VObj fields |}.

(** A client that asked for no type: no [type] parameter, or an empty
    one. *)
Definition unfiltered (ws : Server.WsClient) : bool :=
  match Server.url_type ws with
  | Some F => negb (truthy_string F)
  | None => true
  end.

(** A queued clip is stale at time [now]: it has waited longer than
    [maxAgeMs]. *)
Definition stale (c : Queue.Config) (now : Z) (item : Queue.QueueItem) : bool :=
  (Queue.maxAgeMs c <? now - Queue.enqueuedAt item)%Z.

(** The closes of the socket since it last opened. *)
Definition closes_since_open (evs : list ClientEvent) : nat :=
  fold_left (fun n ev => match ev with
                         | SocketOpens => 0%nat
                         | SocketCloses _ => S n
                         | _ => n
                         end) evs 0%nat.

(** No event of the run is a [close()] of the handle. *)
Definition never_closed (evs : list ClientEvent) : bool :=
  forallb (fun ev => match ev with HandleClose => false | _ => true end) evs.

(** The sum of the counts of [typeCounts]. *)
Definition total (counts : list (string * nat)) : nat :=
  fold_right (fun kn acc => (snd kn + acc)%nat) 0%nat counts.

(** [counts[t] ?? 0] *)
Fixpoint count_of (counts : list (string * nat)) (t : string) : nat :=
  match counts with
  | [] => 0%nat
  | (k, n) :: r => if String.eqb k t then n else count_of r t
  end.

End Runs.
(* ===================================================================== *)
(** * The ring buffer *)
(* ===================================================================== *)

Section RingFacts.
Import JS Schema Store Spec.

#[local] Arguments Array_set : simpl never.
#[local] Arguments Array_slice : simpl never.

Lemma push_buffer s e io : buffer (push s e io) = Array_set (buffer s) (writeIndex s) e.
Proof. unfold push. destruct (persist_enabled s && appendThrows io); reflexivity. Qed.

Lemma push_capacity s e io : capacity (push s e io) = capacity s.
Proof. unfold push. destruct (persist_enabled s && appendThrows io); reflexivity. Qed.

Lemma push_writeIndex s e io :
  writeIndex (push s e io)
  = num_rem (num_add (writeIndex s) (Num 1)) (Num (Z.of_nat (capacity s))).
Proof. unfold push. destruct (persist_enabled s && appendThrows io); reflexivity. Qed.

Lemma push_count s e io :
  count (push s e io) = if (count s <? capacity s)%nat then S (count s) else count s.
Proof. unfold push. destruct (persist_enabled s && appendThrows io); reflexivity. Qed.

Lemma pushes_snoc s l p : pushes s (l ++ [p]) = push (pushes s l) (fst p) (snd p).
Proof. unfold pushes. rewrite fold_left_app. reflexivity. Qed.

Lemma pushes_capacity s l : capacity (pushes s l) = capacity s.
Proof.
  induction l as [|p l IH] using rev_ind; [reflexivity|].
  rewrite pushes_snoc, push_capacity. exact IH.
Qed.

Lemma slice_from {A} (l : list A) (w : nat) :
  (w <= length l)%nat -> Array_slice l (Num (Z.of_nat w)) None = skipn w l.
Proof.
  intros Hw. unfold Array_slice, clamp_index.
  destruct (Z.ltb_spec (Z.of_nat w) 0); [lia|].
  replace (Z.to_nat (Z.min (Z.of_nat w) (Z.of_nat (length l)))) with w by lia.
  apply firstn_all2. rewrite length_skipn. lia.
Qed.

Lemma slice_to {A} (l : list A) (w : nat) :
  (w <= length l)%nat -> Array_slice l (Num 0) (Some (Num (Z.of_nat w))) = firstn w l.
Proof.
  intros Hw. unfold Array_slice, clamp_index. simpl.
  destruct (Z.ltb_spec (Z.of_nat w) 0); [lia|].
  replace (Z.to_nat (Z.min (Z.of_nat w) (Z.of_nat (length l)))) with w by lia.
  replace (Z.to_nat (Z.min 0 (Z.of_nat (length l)))) with 0%nat by lia.
  rewrite Nat.sub_0_r. reflexivity.
Qed.

(** [slice(-n)] with [n > 0] is the last [n] elements. *)
Lemma slice_last {A} (l : list A) (z : Z) :
  (0 < z)%Z -> Array_slice l (num_neg (Num z)) None = lastn (Z.to_nat z) l.
Proof.
  intros Hz. unfold Array_slice, clamp_index, num_neg, lastn.
  destruct (Z.ltb_spec (- z) 0); [|lia].
  replace (Z.to_nat (Z.max (Z.of_nat (length l) + - z) 0))
    with (length l - Z.to_nat z)%nat by lia.
  apply firstn_all2. rewrite length_skipn. lia.
Qed.

(** [slice(NaN)] and [slice(-Infinity)] copy the whole array. *)
Lemma slice_whole {A} (l : list A) (n : number) :
  n = NaN \/ n = NegInf -> Array_slice l n None = l.
Proof.
  intros [-> | ->]; unfold Array_slice, clamp_index; simpl;
    rewrite Nat.sub_0_r; apply firstn_all.
Qed.

Lemma Array_set_inside {A} (l : list (option A)) (w : nat) (v : A) :
  (w < length l)%nat ->
  Array_set l (Num (Z.of_nat w)) v = firstn w l ++ Some v :: skipn (S w) l.
Proof.
  intros Hw. unfold Array_set.
  destruct (Z.ltb_spec (Z.of_nat w) 0); [lia|].
  rewrite Nat2Z.id. destruct (Nat.ltb_spec w (length l)); [reflexivity|lia].
Qed.

Lemma next_index (w c : nat) :
  (0 < c)%nat ->
  num_rem (num_add (Num (Z.of_nat w)) (Num 1)) (Num (Z.of_nat c))
  = Num (Z.of_nat ((w + 1) mod c)).
Proof.
  intros Hc. simpl. destruct (Z.eqb_spec (Z.of_nat c) 0); [lia|].
  f_equal. rewrite Z.rem_mod_nonneg by lia.
  rewrite Nat2Z.inj_mod. f_equal. lia.
Qed.

Lemma ring_inv_new options :
  (0 < capacity (new_EventStore options))%nat -> ring_inv (new_EventStore options).
Proof.
  intros H. split; simpl in *; try lia.
  - apply repeat_length.
  - exists 0%nat. repeat split; lia.
Qed.

Lemma ring_inv_push s e io : ring_inv s -> ring_inv (push s e io).
Proof.
  intros [Hl Hc Hn (w & Hw & Hwc & Hwn)].
  split; rewrite ?push_buffer, ?push_capacity, ?push_count, ?push_writeIndex.
  - rewrite Hw, Array_set_inside by lia.
    rewrite length_app. simpl. rewrite length_firstn, length_skipn. lia.
  - assumption.
  - destruct (Nat.ltb_spec (count s) (capacity s)); lia.
  - rewrite Hw, next_index by assumption.
    exists ((w + 1) mod capacity s)%nat. split; [reflexivity|]. split.
    + apply Nat.mod_upper_bound. lia.
    + destruct (Nat.ltb_spec (count s) (capacity s)) as [Hlt|Hge]; [|lia].
      intros Hlt'. rewrite (Hwn Hlt). rewrite Nat.mod_small by lia. lia.
Qed.

Lemma ring_inv_pushes s l : ring_inv s -> ring_inv (pushes s l).
Proof.
  intros Hs. induction l as [|p l IH] using rev_ind; [exact Hs|].
  rewrite pushes_snoc. apply ring_inv_push, IH.
Qed.

(** One push appends the event, after dropping the oldest one when the
    buffer is full. *)
Lemma toArray_push s e io :
  ring_inv s ->
  toArray (push s e io)
  = (if (count s <? capacity s)%nat then toArray s else tl (toArray s)) ++ [Some e].
Proof.
  intros [Hl Hc Hn (w & Hw & Hwc & Hwn)].
  assert (Hlen' : length (Array_set (buffer s) (writeIndex s) e) = capacity s).
  { rewrite Hw, Array_set_inside by lia.
    rewrite length_app. simpl. rewrite length_firstn, length_skipn. lia. }
  unfold toArray at 1.
  rewrite push_buffer, push_capacity, push_count, push_writeIndex.
  rewrite !Hw in *. rewrite next_index by assumption.
  destruct (Nat.ltb_spec (count s) (capacity s)) as [Hlt|Hge].
  - (* the buffer is not full yet *)
    specialize (Hwn Hlt). subst w.
    unfold toArray. destruct (Nat.ltb_spec (count s) (capacity s)); [|lia].
    rewrite !Array_set_inside by lia.
    destruct (Nat.ltb_spec (S (count s)) (capacity s)) as [Hlt'|Hge'].
    + rewrite !slice_to by (rewrite ?length_app, ?length_firstn; simpl; lia).
      rewrite firstn_app, length_firstn.
      replace (S (count s) - Nat.min (count s) (length (buffer s)))%nat with 1%nat by lia.
      rewrite firstn_firstn. replace (Nat.min (S (count s)) (count s)) with (count s) by lia.
      reflexivity.
    + assert (Hfull : S (count s) = capacity s) by lia.
      replace ((count s + 1) mod capacity s)%nat with 0%nat
        by (replace (count s + 1)%nat with (capacity s) by lia; now rewrite Nat.Div0.mod_same).
      rewrite (slice_from _ 0) by lia. rewrite (slice_to _ 0) by lia.
      rewrite slice_to by lia.
      simpl. rewrite app_nil_r.
      rewrite (skipn_all2 (n := S (count s))) by lia.
      reflexivity.
  - (* the buffer is full: the slot at the cursor holds the oldest event *)
    assert (Hfull : count s = capacity s) by lia.
    destruct (Nat.ltb_spec (count s) (capacity s)); [lia|].
    unfold toArray. destruct (Nat.ltb_spec (count s) (capacity s)); [lia|].
    rewrite ?Hw. rewrite Array_set_inside in * by lia.
    pose proof (Nat.mod_upper_bound (w + 1) (capacity s)) as Hm.
    rewrite (slice_from (buffer s)), (slice_to (buffer s)) by lia.
    rewrite slice_from, slice_to by lia.
    destruct (Nat.eq_dec (S w) (capacity s)) as [Hlast|Hmid].
    + replace ((w + 1) mod capacity s)%nat with 0%nat
        by (replace (w + 1)%nat with (capacity s) by lia; now rewrite Nat.Div0.mod_same).
      simpl. rewrite app_nil_r.
      rewrite (skipn_all2 (n := S w)) by lia.
      destruct (skipn w (buffer s)) as [|x tl_] eqn:Hs.
      { apply (f_equal (@length _)) in Hs. rewrite length_skipn in Hs. simpl in Hs. lia. }
      assert (tl_ = []) as ->.
      { apply (f_equal (@length _)) in Hs. rewrite length_skipn in Hs. simpl in Hs.
        destruct tl_; [reflexivity|simpl in Hs; lia]. }
      reflexivity.
    + rewrite Nat.mod_small by lia. replace (w + 1)%nat with (S w) by lia.
      rewrite skipn_app, length_firstn.
      replace (S w - Nat.min w (length (buffer s)))%nat with 1%nat by lia.
      rewrite (skipn_all2 (n := S w) (firstn w (buffer s))) by (rewrite length_firstn; lia).
      simpl.
      rewrite firstn_app, length_firstn.
      replace (S w - Nat.min w (length (buffer s)))%nat with 1%nat by lia.
      rewrite firstn_firstn. replace (Nat.min (S w) w) with w by lia. simpl.
      destruct (skipn w (buffer s)) as [|x tl_] eqn:Hs.
      { apply (f_equal (@length _)) in Hs. rewrite length_skipn in Hs. simpl in Hs. lia. }
      assert (skipn (S w) (buffer s) = tl_) as ->.
      { replace (S w) with (1 + w)%nat by lia. rewrite <- skipn_skipn, Hs. reflexivity. }
      simpl. rewrite <- app_assoc. reflexivity.
Qed.

Lemma lastn_snoc {A} (c : nat) (l : list A) (x : A) :
  (0 < c)%nat ->
  lastn c (l ++ [x])
  = (if (length l <? c)%nat then lastn c l else tl (lastn c l)) ++ [x].
Proof.
  intros Hc. unfold lastn. rewrite length_app. simpl.
  destruct (Nat.ltb_spec (length l) c) as [Hlt|Hge].
  - replace (length l + 1 - c)%nat with 0%nat by lia.
    replace (length l - c)%nat with 0%nat by lia. reflexivity.
  - replace (length l + 1 - c)%nat with (S (length l - c)) by lia.
    rewrite skipn_app.
    replace (S (length l - c) - length l)%nat with 0%nat by lia. simpl.
    f_equal.
    replace (S (length l - c)) with (1 + (length l - c))%nat by lia.
    rewrite <- skipn_skipn. destruct (skipn (length l - c) l); reflexivity.
Qed.

Lemma lastn_length {A} (c : nat) (l : list A) : length (lastn c l) = Nat.min (length l) c.
Proof. unfold lastn. rewrite length_skipn. lia. Qed.

(** The state after any pushes into a fresh store of positive capacity. *)
Lemma pushes_state options ps :
  let s := pushes (new_EventStore options) ps in
  (0 < capacity (new_EventStore options))%nat ->
  ring_inv s /\
  count s = Nat.min (length ps) (capacity s) /\
  toArray s = List.map Some (lastn (capacity s) (List.map fst ps)).
Proof.
  intros s Hc. subst s.
  induction ps as [|p ps IH] using rev_ind.
  - split; [apply ring_inv_new; assumption|]. split; [simpl; lia|].
    unfold toArray, pushes. simpl fold_left.
    destruct (Nat.ltb_spec (count (new_EventStore options))
                           (capacity (new_EventStore options))) as [_|Hge];
      [|simpl in *; lia].
    change (count (new_EventStore options)) with 0%nat.
    rewrite (slice_to _ 0) by lia. reflexivity.
  - destruct IH as (Hinv & Hcount & Harr).
    rewrite pushes_snoc. split; [apply ring_inv_push, Hinv|].
    rewrite push_count, push_capacity, toArray_push by assumption.
    rewrite Hcount, Harr. rewrite length_app. simpl.
    rewrite pushes_capacity in *.
    set (c := capacity (new_EventStore options)) in *.
    split.
    + destruct (Nat.ltb_spec (Nat.min (length ps) c) c); lia.
    + rewrite map_app. simpl. rewrite lastn_snoc by assumption.
      rewrite length_map.
      destruct (Nat.ltb_spec (Nat.min (length ps) c) c);
        destruct (Nat.ltb_spec (length ps) c); try lia.
      * rewrite map_app. reflexivity.
      * rewrite map_app. f_equal.
        destruct (lastn c (List.map fst ps)); reflexivity.
Qed.

(** A store of capacity 0 keeps the first event pushed and nothing else:
    the first write lands in slot 0 of the empty array, the cursor becomes
    [1 % 0], which is NaN, and later writes name the property NaN. *)
Lemma pushes_capacity_zero options p ps :
  capacity (new_EventStore options) = 0%nat ->
  let s := pushes (new_EventStore options) (p :: ps) in
  buffer s = [Some (fst p)] /\ writeIndex s = NaN /\ count s = 0%nat
  /\ capacity s = 0%nat.
Proof.
  intros Hc s. subst s.
  induction ps as [|q ps IH] using rev_ind.
  - unfold pushes. simpl fold_left.
    rewrite push_buffer, push_writeIndex, push_count, push_capacity.
    unfold new_EventStore in *. simpl in *. rewrite Hc. simpl. auto.
  - change (p :: ps ++ [q]) with ((p :: ps) ++ [q]).
    rewrite pushes_snoc.
    destruct IH as (Hb & Hw & Hn & Hcap).
    rewrite push_buffer, push_writeIndex, push_count, push_capacity.
    rewrite Hb, Hw, Hn, Hcap. simpl. auto.
Qed.

Lemma Array_filter_some p l :
  Array_filter p (List.map Some l) = Normal (List.map Some (List.filter p l)).
Proof.
  induction l as [|e l IH]; simpl; [reflexivity|].
  rewrite IH. destruct (p e); reflexivity.
Qed.

(** [query] on an array without holes. *)
Lemma query_hole_free s f l :
  toArray s = List.map Some l ->
  query s f = Normal (List.map Some (query_steps f l)).
Proof.
  intros Hl. unfold query, query_steps, keep_type, keep_since, take_limit.
  rewrite Hl.
  destruct (filter_type f) as [t|]; [destruct (truthy_string t)|];
    rewrite ?Array_filter_some; cbn [Store.bind];
    (destruct (filter_since f) as [si|]; [destruct (truthy_string si)|];
     unfold string_gt; rewrite ?Array_filter_some; cbn [Store.bind];
     (destruct (filter_limit f) as [n|]; [|reflexivity];
      destruct (num_le n (Num 0)) eqn:Hle; [reflexivity|];
      destruct n as [z| | |]; simpl in Hle; try discriminate;
      [ rewrite slice_last by lia; unfold lastn; rewrite length_map, skipn_map; reflexivity
      | rewrite slice_whole by auto; reflexivity
      | rewrite slice_whole by auto; reflexivity ])).
Qed.

(** Whatever the capacity, the array a store materialises has no hole. *)
Lemma pushes_hole_free options ps :
  exists l, toArray (pushes (new_EventStore options) ps) = List.map Some l.
Proof.
  destruct (Nat.eq_dec (capacity (new_EventStore options)) 0%nat) as [Hz|Hnz].
  - destruct ps as [|p ps].
    + exists []. unfold toArray, new_EventStore in *. simpl in *. rewrite Hz. reflexivity.
    + destruct (pushes_capacity_zero options p ps Hz) as (Hb & Hw & Hn & Hcap).
      exists [fst p]. unfold toArray. rewrite Hb, Hw, Hn, Hcap. reflexivity.
  - destruct (pushes_state options ps) as (_ & _ & H); [lia|]. eauto.
Qed.

Lemma filter_sublist {A} (p : A -> bool) (l : list A) : List.filter p l `sublist_of` l.
Proof.
  induction l as [|x l IH]; simpl; [constructor|].
  destruct (p x); [apply sublist_skip|apply sublist_cons]; exact IH.
Qed.

Lemma lastn_sublist {A} (n : nat) (l : list A) : lastn n l `sublist_of` l.
Proof. unfold lastn. apply sublist_drop. Qed.

Lemma query_steps_sublist f l : query_steps f l `sublist_of` l.
Proof.
  unfold query_steps, take_limit, keep_since, keep_type.
  assert (H1 : forall t, (match t with
                          | Some t => if truthy_string t
                                      then List.filter (fun e => String.eqb (type e) t) l else l
                          | None => l end) `sublist_of` l).
  { intros [t|]; [destruct (truthy_string t)|]; auto using filter_sublist. }
  assert (H2 : forall si l', l' `sublist_of` l ->
             (match si with
              | Some t => if truthy_string t
                          then List.filter (fun e => String.ltb t (timestamp e)) l' else l'
              | None => l' end) `sublist_of` l).
  { intros [t|] l' Hl'; [destruct (truthy_string t)|]; auto.
    etrans; [apply filter_sublist|exact Hl']. }
  specialize (H2 (filter_since f) _ (H1 (filter_type f))).
  destruct (filter_limit f) as [n|]; [|exact H2].
  destruct (num_le n (Num 0)); [apply sublist_nil_l|].
  destruct n; auto. etrans; [apply lastn_sublist|exact H2].
Qed.

End RingFacts.

Section StoreClaims.
Import JS Schema Store Spec.

(** C3 (the code departs from the claim at capacity 0).  Claim: after k
    pushes into a store of capacity c the size is min(k, c), a push into a
    full store removes the single oldest envelope, and query() returns the
    surviving envelopes in push order.  At capacity 0 the size is indeed 0
    after any number of pushes, yet query() returns the first envelope
    ever pushed, and goes on returning it: nothing survives according to
    the size, one envelope according to the query. *)
Theorem C3_capacity_zero_keeps_first_event
    (path : option string) (p : EventEnvelope * PersistIO)
    (ps : list (EventEnvelope * PersistIO)) :
  let s := pushes (new_EventStore {| options_capacity := Some 0%nat;
                                     options_persistPath := path |})
                  (p :: ps) in
  size s = Nat.min (length (p :: ps)) 0 /\
  query s no_filter = Normal [Some (fst p)].
Proof.
  intros s.
  destruct (pushes_capacity_zero
              {| options_capacity := Some 0%nat; options_persistPath := path |}
              p ps eq_refl) as (Hb & Hw & Hn & Hcap).
  fold s in Hb, Hw, Hn, Hcap.
  split.
  - unfold size. rewrite Hn. reflexivity.
  - rewrite (query_hole_free s no_filter [fst p]); [reflexivity|].
    unfold toArray. rewrite Hb, Hw, Hn, Hcap. reflexivity.
Qed.

(** X1.  The ring buffer at a positive capacity c: after k pushes the size is
    min(k, c), so never above c; query() returns the last min(k, c)
    envelopes pushed, in push order; and once k >= c a further push drops
    exactly the oldest stored envelope and appends the new one. *)
Theorem store_ring_buffer
    (c : nat) (path : option string) (ps : list (EventEnvelope * PersistIO)) :
  (0 < c)%nat ->
  let s := pushes (new_EventStore {| options_capacity := Some c;
                                     options_persistPath := path |}) ps in
  size s = Nat.min (length ps) c /\
  (size s <= c)%nat /\
  query s no_filter = Normal (List.map Some (lastn c (List.map fst ps))) /\
  ((c <= length ps)%nat ->
   forall e io, exists oldest rest,
     query s no_filter = Normal (Some oldest :: rest) /\
     query (push s e io) no_filter = Normal (rest ++ [Some e])).
Proof.
  intros Hc s.
  destruct (pushes_state {| options_capacity := Some c; options_persistPath := path |} ps Hc)
    as (Hinv & Hcount & Harr).
  fold s in Hinv, Hcount, Harr.
  assert (Hcap : capacity s = c) by (unfold s; rewrite pushes_capacity; reflexivity).
  rewrite Hcap in *.
  assert (Hq : forall s' l, toArray s' = List.map Some l -> query s' no_filter = Normal (List.map Some l)).
  { intros s' l Hl. rewrite (query_hole_free s' no_filter l Hl). reflexivity. }
  split; [exact Hcount|]. split; [unfold size; lia|].
  split; [apply Hq, Harr|].
  intros Hfull e io.
  destruct (lastn c (List.map fst ps)) as [|oldest rest] eqn:Hlast.
  { apply (f_equal (@length _)) in Hlast. rewrite lastn_length, length_map in Hlast.
    simpl in Hlast. lia. }
  exists oldest, (List.map Some rest). split; [rewrite (Hq _ _ Harr); reflexivity|].
  assert (Hpush : toArray (push s e io) = List.map Some (rest ++ [e])).
  { rewrite toArray_push by assumption. rewrite Hcount, Hcap, Harr.
    destruct (Nat.ltb_spec (Nat.min (length ps) c) c); [lia|].
    simpl. rewrite map_app. reflexivity. }
  rewrite (Hq _ _ Hpush), map_app. reflexivity.
Qed.

Lemma store_ring_buffer_witness :
  let s := Sample.store_of 2 [Sample.event "1" "a"; Sample.event "2" "b"; Sample.event "3" "a"] in
  size s = 2%nat /\ query s no_filter = Normal [Some (Sample.event "2" "b"); Some (Sample.event "3" "a")].
Proof.
  intros s.
  destruct (store_ring_buffer 2 None
              (List.map (fun e => (e, Sample.quiet))
                 [Sample.event "1" "a"; Sample.event "2" "b"; Sample.event "3" "a"]))
    as (Hsize & _ & Hquery & _); [lia|].
  split; [exact Hsize|exact Hquery].
Defined.

(** C4 (amended).  For every filter and every store built by pushes, the
    array the store materialises is the list l of the envelopes it
    retains, in the order they were pushed (the last c pushed for a
    capacity c >= 1, the first one pushed for the capacity 0), without
    holes; and query returns, in that order, the result of three steps
    taken in this order: if type is given and not the empty string, keep
    the envelopes of that type; if since is given and not the empty
    string, keep those whose timestamp is strictly greater; if limit is
    given, return nothing when limit <= 0 and otherwise the last limit
    entries (all of them when limit is NaN or +Infinity).  So the result
    is a chronologically ordered slice: a subsequence of the pushed
    envelopes in push order. *)
Theorem C4_query_composes_filters
    (options : StoreOptions) (ps : list (EventEnvelope * PersistIO))
    (f : EventFilter) :
  let s := pushes (new_EventStore options) ps in
  let l := if (capacity s =? 0)%nat then firstn 1 (List.map fst ps)
           else lastn (capacity s) (List.map fst ps) in
  toArray s = List.map Some l /\
  query s f = Normal (List.map Some (query_steps f l)) /\
  query_steps f l `sublist_of` l /\
  l `sublist_of` List.map fst ps /\
  query_steps f l `sublist_of` List.map fst ps.
Proof.
  intros s l.
  assert (Hl : toArray s = List.map Some l).
  { subst l. destruct (Nat.eqb_spec (capacity s) 0) as [Hz|Hnz].
    - unfold s in Hz. rewrite pushes_capacity in Hz.
      destruct ps as [|p ps].
      + unfold s, toArray, new_EventStore in *. simpl in *. rewrite Hz. reflexivity.
      + destruct (pushes_capacity_zero options p ps Hz) as (Hb & Hw & Hn & Hcap).
        fold s in Hb, Hw, Hn, Hcap.
        unfold toArray. rewrite Hb, Hw, Hn, Hcap. reflexivity.
    - destruct (pushes_state options ps) as (_ & _ & H); [|exact H].
      unfold s in Hnz. rewrite pushes_capacity in Hnz. lia. }
  assert (Hsub : l `sublist_of` List.map fst ps).
  { subst l. destruct (capacity s =? 0)%nat; [apply sublist_take|apply lastn_sublist]. }
  split; [exact Hl|]. split; [apply query_hole_free, Hl|].
  split; [apply query_steps_sublist|]. split; [exact Hsub|].
  etrans; [apply query_steps_sublist|exact Hsub].
Qed.

(** C4 as stated fails when the type given is the empty string (what GET
    /events?type= passes down): the specified first step keeps the
    envelopes whose type equals the empty string, that is none here, while
    the code skips the step and returns the envelope. *)
Lemma C4_empty_type_is_no_filter :
  let e := Sample.event "1" "worktree.created" in
  let s := Sample.store_of 10 [e] in
  query s {| filter_type := Some ""; filter_since := None; filter_limit := None |}
    = Normal [Some e] /\
  query_as_specified (Some "") None None [e] = [].
Proof. split; reflexivity. Qed.

End StoreClaims.

Section IngressClaims.
Import JS Schema Store Server Spec.

Lemma isNonEmptyString_inv v :
  isNonEmptyString v = true -> v = VStr (as_string v) /\ nonblank (as_string v).
Proof.
  destruct v; simpl; try discriminate. intros H. split; [reflexivity|].
  unfold nonblank. apply Nat.ltb_lt. exact H.
Qed.

Lemma strict_eq_string_inv v s : strict_eq_string v s = true -> v = VStr s.
Proof.
  destruct v; simpl; try discriminate. intros H.
  apply String.eqb_eq in H. now subst.
Qed.

Lemma validateFullEnvelope_ok env body_ e :
  validateFullEnvelope env body_ = Normal (inl e) -> validated env body_ e.
Proof.
  unfold validateFullEnvelope, isValidTimestamp.
  destruct (strict_eq_string (prop body_ "schemaVersion") "1.0.0") eqn:Hv;
    [|simpl; destruct (ToString (prop body_ "schemaVersion")); discriminate].
  destruct (isNonEmptyString (prop body_ "id")) eqn:Hid; [|discriminate].
  destruct (isNonEmptyString (prop body_ "timestamp")) eqn:Hts; [|discriminate].
  destruct (Date_parse_isNaN env (as_string (prop body_ "timestamp"))) eqn:Hdate;
    [discriminate|].
  destruct (isNonEmptyString (prop body_ "type")) eqn:Hty; [|discriminate].
  destruct (isNonEmptyString (prop body_ "app")) eqn:Hap; [|discriminate].
  destruct (isNonEmptyString (prop body_ "appRoot")) eqn:Har; [|discriminate].
  destruct (negb (strict_eq_string (prop body_ "source") "cli")
            && negb (strict_eq_string (prop body_ "source") "hook")) eqn:Hsrc;
    [discriminate|].
  destruct (isNonEmptyString (prop body_ "correlationId")) eqn:Hco; [|discriminate].
  destruct (has_prop body_ "data") eqn:Hda; [|discriminate].
  simpl. intros [= <-].
  apply isNonEmptyString_inv in Hid, Hts, Hty, Hap, Har, Hco.
  split; simpl; auto.
  - destruct Hts; auto.
  - assert (Hs : prop body_ "source" = VStr "cli" \/ prop body_ "source" = VStr "hook").
    { destruct (strict_eq_string (prop body_ "source") "cli") eqn:H1.
      - left. now apply strict_eq_string_inv.
      - destruct (strict_eq_string (prop body_ "source") "hook") eqn:H2;
          [right; now apply strict_eq_string_inv | discriminate]. }
    destruct Hs as [-> | ->]; simpl; auto.
Qed.

(** C1 (amended).  For every request to POST /events carrying a full
    envelope (schemaVersion present) that the server accepts with status
    201, the envelope it stores and publishes has schemaVersion 1.0.0; its
    id, timestamp, type, app, appRoot and correlationId are the strings
    posted, none of them blank, the timestamp one that Date.parse accepts;
    its source is cli or hook; and its data is the value posted under the
    key data, which must be present but may be any JSON value. *)
Theorem C1_accepted_full_envelope
    (st : ServerState) (env : Env) (req : Request) (body_ : object) :
  parseJsonObjectBody req = inl body_ ->
  prop body_ "schemaVersion" <> VUndefined ->
  option_map status (match fst (handlePostEnvelope st env req) with
                     | Normal r => Some r
                     | Throw _ => None
                     end) = Some 201 ->
  exists e : EventEnvelope,
    snd (handlePostEnvelope st env req) = store_and_publish st env e /\
    store (snd (handlePostEnvelope st env req)) = push (store st) e (persistIO env) /\
    validated env body_ e.
Proof.
  intros Hparse Hversion. unfold handlePostEnvelope. rewrite Hparse.
  destruct (negb (is_string (prop body_ "type"))); [simpl; discriminate|].
  destruct (negb (has_prop body_ "data")); [simpl; discriminate|].
  destruct (prop body_ "schemaVersion") eqn:Hsv; try congruence;
    (destruct (validateFullEnvelope env body_) as [[e|msg]|name] eqn:Hval;
     [ intros _; exists e;
       split; [reflexivity|split; [reflexivity|apply validateFullEnvelope_ok, Hval]]
     | simpl; discriminate
     | simpl; discriminate ]).
Qed.

Lemma C1_accepted_full_envelope_witness :
  exists e : EventEnvelope,
    snd (handlePostEnvelope (Sample.server (Sample.store_of 10 []) []) Sample.env
           (Sample.post "/events" (Sample.full_envelope "worktree.created" (VObj []))))
    = store_and_publish (Sample.server (Sample.store_of 10 []) []) Sample.env e /\
    store (snd (handlePostEnvelope (Sample.server (Sample.store_of 10 []) []) Sample.env
           (Sample.post "/events" (Sample.full_envelope "worktree.created" (VObj [])))))
    = push (store (Sample.server (Sample.store_of 10 []) [])) e (persistIO Sample.env) /\
    validated Sample.env
      (as_object (Sample.full_envelope "worktree.created" (VObj []))) e.
Proof.
  apply (C1_accepted_full_envelope _ _ _
           (as_object (Sample.full_envelope "worktree.created" (VObj [])))).
  - reflexivity.
  - simpl. discriminate.
  - reflexivity.
Defined.

(** C1 as stated fails: a full envelope whose data is null (or an array)
    is accepted with 201 and stored as it is. *)
Lemma C1_data_need_not_be_an_object :
  let st := Sample.server (Sample.store_of 10 []) [] in
  let r1 := handlePostEnvelope st Sample.env
              (Sample.post "/events" (Sample.full_envelope "worktree.created" VNull)) in
  let r2 := handlePostEnvelope st Sample.env
              (Sample.post "/events"
                 (Sample.full_envelope "worktree.created" (VArr [VNum 1; VNum 2]))) in
  option_map status (match fst r1 with Normal r => Some r | Throw _ => None end)
  = Some 201 /\
  List.map (option_map data) (toArray (store (snd r1))) = [Some VNull] /\
  option_map status (match fst r2 with Normal r => Some r | Throw _ => None end)
  = Some 201 /\
  List.map (option_map data) (toArray (store (snd r2))) = [Some (VArr [VNum 1; VNum 2])].
Proof. vm_compute. repeat split; reflexivity. Qed.

End IngressClaims.

Section BroadcastClaims.
Import JS Schema Store Server Spec.

(** C2 (the code departs from the claim at the type all).  Claim: every
    subscriber without a filter receives an accepted envelope exactly
    once, a subscriber with filter F receives it exactly once when its
    type is F and never otherwise, for any accepted type string.  POST
    /events accepts the type all; the specific topic of such an envelope is
    events.all, the broad topic itself, so the envelope is published there
    twice: here the subscriber without a filter is sent two frames, and
    the subscriber that asked for the type all (who is left with no topic
    at all after unsubscribing from events.all) is sent none. *)
Theorem C2_type_all_is_delivered_twice :
  let st := Sample.server (Sample.store_of 10 [])
              [connect None; connect (Some "all")] in
  let r := fetch st Sample.env
             (Sample.post "/events" (VObj [("type", VStr "all"); ("data", VObj [])])) in
  option_map status (match fst r with Normal o => o | Throw _ => None end) = Some 201 /\
  List.map (fun ws => length (received ws)) (clients (snd r)) = [2%nat; 0%nat] /\
  List.map (fun ws => frames_owed ws (Sample.event "1" "all"))
           [connect None; connect (Some "all")] = [1%nat; 1%nat].
Proof. vm_compute. repeat split; reflexivity. Qed.

Lemma topic_all_in (type_param : option string) :
  "events.all" ∈ topics (connect type_param)
  <-> (match type_param with Some F => truthy_string F = false | None => True end).
Proof.
  unfold connect, websocket_open. simpl.
  destruct type_param as [F|]; [destruct (truthy_string F) eqn:HF|]; simpl.
  - rewrite elem_of_difference, elem_of_singleton. split; [tauto|discriminate].
  - rewrite elem_of_union, elem_of_singleton. split; [reflexivity|auto].
  - rewrite elem_of_union, elem_of_singleton. split; [trivial|auto].
Qed.

Lemma append_inj_l (p a b : string) : p +:+ a = p +:+ b -> a = b.
Proof.
  induction p as [|c p IH]; simpl; [auto|]. intros H. inversion H. auto.
Qed.

Lemma topic_typed_in (type_param : option string) (t : string) :
  t <> "all" ->
  ("events." +:+ t) ∈ topics (connect type_param)
  <-> (exists F, type_param = Some F /\ truthy_string F = true /\ F = t).
Proof.
  intros Hall.
  assert (Hne : "events." +:+ t <> "events.all").
  { intros H. apply (append_inj_l "events." t "all") in H. contradiction. }
  unfold connect, websocket_open. simpl.
  destruct type_param as [F|]; [destruct (truthy_string F) eqn:HF|]; simpl.
  - rewrite elem_of_difference, !elem_of_union, !elem_of_singleton, elem_of_empty.
    split.
    + intros [[[[]|H]|H] _]; [contradiction|].
      apply append_inj_l in H. exists F. auto.
    + intros (F' & HF' & _ & Ht). inversion HF'. subst. auto.
  - rewrite elem_of_union, elem_of_singleton, elem_of_empty. split; [tauto|].
    intros (F' & HF' & Ht & _). inversion HF'. congruence.
  - rewrite elem_of_union, elem_of_singleton, elem_of_empty. split; [tauto|].
    intros (F' & HF' & _). discriminate.
Qed.

(** X2.  Broadcast of an envelope whose type is not the string all: every
    client receives the serialised envelope exactly once when it has no
    type filter or its filter is the type of the envelope, and not at all
    otherwise; nothing else about a client changes. *)
Theorem broadcast_exactly_once
    (st : ServerState) (env : Env) (e : EventEnvelope) :
  type e <> "all" ->
  Forall opened (clients st) ->
  clients (store_and_publish st env e)
  = List.map (fun ws => {| url_type := url_type ws; topics := topics ws;
                           received := received ws
                                       ++ repeat (stringify_envelope e) (frames_owed ws e) |})
             (clients st).
Proof.
  intros Hall Hopen. unfold store_and_publish. simpl.
  unfold publish. rewrite List.map_map.
  apply map_ext_in. intros ws Hin.
  rewrite Forall_forall in Hopen. specialize (Hopen ws).
  assert (Ho : opened ws) by (apply Hopen; apply list_elem_of_In; exact Hin).
  unfold opened in Ho.
  pose proof (topic_all_in (url_type ws)) as Hbroad.
  pose proof (topic_typed_in (url_type ws) (type e) Hall) as Htyped.
  rewrite <- Ho in Hbroad, Htyped.
  unfold frames_owed.
  destruct (bool_decide (("events.all":string) ∈ topics ws)) eqn:Hb1; simpl.
  - apply bool_decide_eq_true in Hb1. apply Hbroad in Hb1.
    destruct (bool_decide (("events." +:+ type e) ∈ topics ws)) eqn:Hb2.
    + apply bool_decide_eq_true in Hb2. apply Htyped in Hb2.
      destruct Hb2 as (F & HF & Ht & _). rewrite HF in Hb1. congruence.
    + destruct (url_type ws) as [F|]; [rewrite Hb1|]; destruct ws; reflexivity.
  - apply bool_decide_eq_false in Hb1.
    destruct (url_type ws) as [F|] eqn:Hu; [|exfalso; apply Hb1, Hbroad; trivial].
    destruct (truthy_string F) eqn:HF; [|exfalso; apply Hb1, Hbroad; trivial].
    destruct (bool_decide (("events." +:+ type e) ∈ topics ws)) eqn:Hb2.
    + apply bool_decide_eq_true in Hb2. apply Htyped in Hb2.
      destruct Hb2 as (F' & HF' & _ & Ht). inversion HF'. subst.
      rewrite String.eqb_refl.
      destruct ws; reflexivity.
    + apply bool_decide_eq_false in Hb2.
      destruct (String.eqb_spec F (type e)) as [->|Hne].
      * exfalso. apply Hb2, Htyped. eauto.
      * simpl. rewrite app_nil_r. destruct ws; simpl in *; congruence.
Qed.

Lemma broadcast_exactly_once_witness :
  clients (store_and_publish
             (Sample.server (Sample.store_of 10 [])
                [connect None; connect (Some "worktree.deleted")])
             Sample.env (Sample.event "1" "worktree.deleted"))
  = List.map (fun ws => {| url_type := url_type ws; topics := topics ws;
                           received := received ws
                             ++ repeat (stringify_envelope (Sample.event "1" "worktree.deleted"))
                                       (frames_owed ws (Sample.event "1" "worktree.deleted")) |})
             [connect None; connect (Some "worktree.deleted")].
Proof.
  apply (broadcast_exactly_once
           (Sample.server (Sample.store_of 10 [])
              [connect None; connect (Some "worktree.deleted")])).
  - discriminate.
  - repeat constructor.
Defined.

End BroadcastClaims.

Section EnrichmentClaims.
Import JS Schema Store Server Spec.

Lemma JSON_stringify_defined (v : value) :
  v <> VUndefined -> exists str, JSON_stringify v = Some str.
Proof.
  destruct v as [| |[|]| | | |]; intros H; try (eexists; reflexivity); congruence.
Qed.

Lemma nullish_defined (v : value) : nullish v (VStr "") <> VUndefined.
Proof. destruct v; discriminate. Qed.

Lemma length_append (a b : string) :
  String.length (a +:+ b) = (String.length a + String.length b)%nat.
Proof. induction a as [|c a IH]; simpl; [reflexivity|]. now rewrite IH. Qed.

Lemma length_substring0 (n : nat) (s : string) :
  (n <= String.length s)%nat -> String.length (substring 0 n s) = n.
Proof.
  revert s. induction n as [|n IH]; intros [|c s] H; simpl in *; try lia; try reflexivity.
  rewrite IH by lia. reflexivity.
Qed.

(** What [truncateField] returns, in terms of the serialisation. *)
Lemma truncateField_spec (v : value) :
  exists str,
    JSON_stringify (nullish v (VStr "")) = Some str /\
    truncateField v DEFAULT_MAX_LEN
    = (if (String.length str <=? 2000)%nat then v
       else VStr (substring 0 2000 str +:+ "...")) /\
    ((2000 < String.length str)%nat ->
     String.length (substring 0 2000 str +:+ "...") = 2003%nat).
Proof.
  destruct (JSON_stringify_defined _ (nullish_defined v)) as [str Hstr].
  exists str. split; [exact Hstr|]. split.
  - unfold truncateField, DEFAULT_MAX_LEN, String_slice0. rewrite Hstr. reflexivity.
  - intros Hlong. rewrite length_append, length_substring0 by lia. reflexivity.
Qed.

(** C5.  Every value routed to a Preview field (tool_input of pre-tool-use
    to toolInputPreview, tool_result of post-tool-use to
    toolResultPreview) is serialised with JSON.stringify (a missing or null
    value as the empty string); when the serialisation str is longer than
    2000 characters the field is the string made of the first 2000
    characters of str followed by three dots, 2003 characters in all, and
    otherwise the field is the value itself.  The example of the claim: a
    pre-tool-use payload whose tool_input.content is 3000 times x is
    accepted with 201 and the stored envelope has a toolInputPreview of
    length 2003 whose last three characters are dots. *)
Theorem C5_preview_truncation :
  (forall raw : object, exists str fields,
      JSON_stringify (nullish (prop raw "tool_input") (VStr "")) = Some str /\
      extractEventFields "pre-tool-use" raw = Normal fields /\
      prop fields "toolInputPreview"
      = (if (String.length str <=? 2000)%nat then prop raw "tool_input"
         else VStr (substring 0 2000 str +:+ "...")) /\
      ((2000 < String.length str)%nat ->
       String.length (substring 0 2000 str +:+ "...") = 2003%nat)) /\
  (forall raw : object, exists str fields,
      JSON_stringify (nullish (prop raw "tool_result") (VStr "")) = Some str /\
      extractEventFields "post-tool-use" raw = Normal fields /\
      prop fields "toolResultPreview"
      = (if (String.length str <=? 2000)%nat then prop raw "tool_result"
         else VStr (substring 0 2000 str +:+ "...")) /\
      ((2000 < String.length str)%nat ->
       String.length (substring 0 2000 str +:+ "...") = 2003%nat)) /\
  (let payload :=
     VObj [ ("session_id", VStr "S"); ("tool_name", VStr "Write");
            ("tool_input", VObj [("content", VStr (repeat_string "x" 3000))]) ] in
   let r := fetch (Sample.server (Sample.store_of 10 []) []) Sample.env
              (Sample.post "/events/pre-tool-use" payload) in
   option_map status (match fst r with Normal o => o | Throw _ => None end) = Some 201 /\
   exists e preview,
     toArray (store (snd r)) = [Some e] /\
     prop (as_object (data e)) "toolInputPreview" = VStr preview /\
     String.length preview = 2003%nat /\
     substring 2000 3 preview = "...").
Proof.
  split; [|split].
  - intros raw.
    destruct (truncateField_spec (prop raw "tool_input")) as (str & Hstr & Hfield & Hlen).
    exists str. eexists. split; [exact Hstr|]. split; [reflexivity|].
    split; [exact Hfield|exact Hlen].
  - intros raw.
    destruct (truncateField_spec (prop raw "tool_result")) as (str & Hstr & Hfield & Hlen).
    exists str. eexists. split; [exact Hstr|]. split; [reflexivity|].
    split; [exact Hfield|exact Hlen].
  - cbv zeta. split; [vm_compute; reflexivity|].
    eexists. eexists. split; [vm_compute; reflexivity|].
    split; [vm_compute; reflexivity|].
    split; vm_compute; reflexivity.
Qed.

(** C6.  For every POST /events/stop request whose body the server parses
    as a JSON object in which stop_hook_active is true, the response is
    200 with the body {status: skipped, reason: stop_hook_active}, and the
    server state is left exactly as it was: nothing is pushed into the
    store, no client is sent a frame, the playback queue is untouched, and
    the size that /health reports as events.total is unchanged. *)
Theorem C6_stop_recursion_guard
    (st : ServerState) (env : Env) (req : Request) (raw : object) :
  method req = "POST" ->
  pathname req = "/events/stop" ->
  parseJsonObjectBody req = inl raw ->
  prop raw "stop_hook_active" = VBool true ->
  fetch st env req
  = (Normal (Some {| status := 200;
                     body := VObj [ ("status", VStr "skipped");
                                    ("reason", VStr "stop_hook_active") ] |}),
     st) /\
  store (snd (fetch st env req)) = store st /\
  clients (snd (fetch st env req)) = clients st /\
  size (store (snd (fetch st env req))) = size (store st) /\
  (forall env', handleHealth (snd (fetch st env req)) env' = handleHealth st env').
Proof.
  intros Hm Hp Hparse Hactive.
  assert (H : fetch st env req
              = (Normal (Some {| status := 200;
                                 body := VObj [ ("status", VStr "skipped");
                                                ("reason", VStr "stop_hook_active") ] |}),
                 st)).
  { unfold fetch. rewrite Hm, Hp. simpl.
    unfold handleHookEvent. rewrite Hparse, Hactive. reflexivity. }
  rewrite H. simpl. auto.
Qed.

Lemma C6_stop_recursion_guard_witness :
  let st := Sample.server (Sample.store_of 10 [Sample.event "1" "hook.stop"])
              [connect None] in
  let req := Sample.post "/events/stop"
               (VObj [ ("session_id", VStr "S"); ("stop_hook_active", VBool true) ]) in
  fetch st Sample.env req
  = (Normal (Some {| status := 200;
                     body := VObj [ ("status", VStr "skipped");
                                    ("reason", VStr "stop_hook_active") ] |}),
     st) /\
  store (snd (fetch st Sample.env req)) = store st /\
  clients (snd (fetch st Sample.env req)) = clients st /\
  size (store (snd (fetch st Sample.env req))) = size (store st) /\
  (forall env', handleHealth (snd (fetch st Sample.env req)) env' = handleHealth st env').
Proof.
  cbv zeta.
  apply (C6_stop_recursion_guard _ Sample.env _
           [ ("session_id", VStr "S"); ("stop_hook_active", VBool true) ]);
    reflexivity.
Defined.

(** The limit of GET /events when the parameter is given, not empty, and
    not a number: NaN, which Math.min leaves as NaN. *)
Lemma limit_is_NaN (l : string) :
  parseInt l = NaN -> Math_min (parseInt l) (Num 1000) = NaN.
Proof. intros ->. reflexivity. Qed.

Lemma query_without_limit s t si :
  query s {| filter_type := t; filter_since := si; filter_limit := Some NaN |}
  = query s {| filter_type := t; filter_since := si; filter_limit := None |}.
Proof.
  unfold query. simpl.
  destruct (match t with
            | Some t0 => if truthy_string t0
                         then Array_filter (fun e => String.eqb (type e) t0) (toArray s)
                         else Normal (toArray s)
            | None => Normal (toArray s)
            end) as [events|]; [|reflexivity].
  simpl.
  destruct (match si with
            | Some since => if truthy_string since
                            then Array_filter (fun e => string_gt (timestamp e) since) events
                            else Normal events
            | None => Normal events
            end) as [events'|]; [|reflexivity].
  simpl. unfold Array_slice, clamp_index. simpl.
  rewrite Nat.sub_0_r, firstn_all. reflexivity.
Qed.

(** C10 (amended).  For every GET /events request whose limit parameter is
    a non-empty string that Number.parseInt maps to NaN (limit=abc for
    one), the limit handed to the store is NaN: neither the default of 100
    nor the cap of 1000 applies, the limit step of the query drops
    nothing, and the response lists every envelope of the store that
    passes the type and since filters; with neither filter given, it lists
    every envelope currently in the store. *)
Theorem C10_unparsable_limit_returns_everything
    (req : Request) (s : EventStore) (l : string) :
  searchParams_get req "limit" = Some l ->
  l <> "" ->
  parseInt l = NaN ->
  Math_min (parseInt l) (Num 1000) = NaN /\
  handleGetEvents req s
  = match query s {| filter_type := searchParams_get req "type";
                     filter_since := searchParams_get req "since";
                     filter_limit := None |} with
    | Normal events => Normal (Response_json (VArr (List.map slot_value events)) 200)
    | Throw name => Throw name
    end /\
  (searchParams_get req "type" = None ->
   searchParams_get req "since" = None ->
   handleGetEvents req s
   = Normal (Response_json (VArr (List.map slot_value (toArray s))) 200)).
Proof.
  intros Hl Hne Hnan.
  assert (Ht : truthy_string l = true) by (destruct l; [congruence|reflexivity]).
  assert (H : handleGetEvents req s
              = match query s {| filter_type := searchParams_get req "type";
                                 filter_since := searchParams_get req "since";
                                 filter_limit := None |} with
                | Normal events => Normal (Response_json (VArr (List.map slot_value events)) 200)
                | Throw name => Throw name
                end).
  { unfold handleGetEvents. rewrite Hl, Ht, Hnan. simpl Math_min.
    rewrite query_without_limit. reflexivity. }
  split; [apply limit_is_NaN, Hnan|]. split; [exact H|].
  intros Hty Hsi. rewrite H, Hty, Hsi. reflexivity.
Qed.

Lemma C10_unparsable_limit_returns_everything_witness :
  handleGetEvents (Sample.get "/events" [("limit", "abc")])
    (Sample.store_of 10 [Sample.event "1" "a"; Sample.event "2" "b"])
  = Normal (Response_json
      (VArr (List.map slot_value
               (toArray (Sample.store_of 10 [Sample.event "1" "a"; Sample.event "2" "b"]))))
      200).
Proof.
  apply (C10_unparsable_limit_returns_everything
           (Sample.get "/events" [("limit", "abc")]) _ "abc");
    [reflexivity|discriminate|reflexivity|reflexivity|reflexivity].
Defined.

(** C10 as stated fails twice.  A limit parameter that is present but
    empty (limit= parses as no number) gets the default of 100: of 101
    stored envelopes the response lists 100.  And with a type filter next
    to limit=abc the response lists the envelopes of that type only, not
    every envelope of the store. *)
Lemma C10_empty_limit_gets_the_default :
  let s := Sample.store_of 200 (repeat (Sample.event "1" "a") 101) in
  let s2 := Sample.store_of 10 [Sample.event "1" "a"; Sample.event "2" "b"] in
  parseInt "" = NaN /\
  length (toArray s) = 101%nat /\
  option_map (fun r => match body r with VArr l => length l | _ => 0%nat end)
    (match handleGetEvents (Sample.get "/events" [("limit", "")]) s with
     | Normal r => Some r | Throw _ => None end) = Some 100%nat /\
  length (toArray s2) = 2%nat /\
  handleGetEvents (Sample.get "/events" [("type", "a"); ("limit", "abc")]) s2
  = Normal (Response_json (VArr [to_value (Sample.event "1" "a")]) 200).
Proof. vm_compute. repeat split; reflexivity. Qed.

End EnrichmentClaims.

Section QueueClaims.
Import Queue.

Lemma drain_loop_length maxAge now items :
  (length (fst (drain_loop maxAge now items)) <= length items)%nat.
Proof.
  induction items as [|item rest IH]; simpl; [lia|].
  destruct (maxAge <? now - enqueuedAt item)%Z; simpl; lia.
Qed.

Lemma drain_run_bound q t :
  config (drain_run q t) = config q /\
  (depth (drain_run q t) <= depth q)%nat.
Proof.
  unfold drain_run, depth.
  pose proof (drain_loop_length (maxAgeMs (config q)) (Date_now t) (queue q)) as Hlen.
  destruct (drain_loop (maxAgeMs (config q)) (Date_now t) (queue q)) as [rest [item|]];
    simpl in *.
  - unfold playOne_start. destruct (spawnThrows t); simpl; auto.
  - auto.
Qed.

(** Every operation keeps the configuration and keeps the depth within
    [maxDepth]. *)
Lemma step_bound q op :
  (depth q <= maxDepth (config q))%nat ->
  config (step q op) = config q /\
  (depth (step q op) <= maxDepth (config q))%nat.
Proof.
  intros Hq. destruct op as [item t|t| |]; simpl.
  - unfold enqueue.
    destruct (Nat.leb_spec (maxDepth (config q)) (length (queue q))) as [Hfull|Hroom];
      [auto|].
    simpl. destruct (playing q); simpl.
    + split; [reflexivity|]. unfold depth. simpl. rewrite length_app. simpl. lia.
    + unfold drain.
      match goal with |- context [drain_run ?q1 t] =>
        destruct (drain_run_bound q1 t) as [Hc Hd] end.
      rewrite Hc. simpl. split; [reflexivity|].
      unfold depth in *. simpl in Hd. rewrite length_app in Hd. simpl in Hd. lia.
  - unfold resume. destruct (playing q); [|auto].
    match goal with |- context [drain_run ?q1 t] =>
      destruct (drain_run_bound q1 t) as [Hc Hd] end.
    rewrite Hc. simpl. split; [reflexivity|]. unfold depth in *. simpl in Hd. lia.
  - unfold stop, depth. simpl. split; [reflexivity|lia].
  - unfold clear, depth. simpl. split; [reflexivity|lia].
Qed.

Lemma run_bound q ops :
  (depth q <= maxDepth (config q))%nat ->
  config (run q ops) = config q /\
  (depth (run q ops) <= maxDepth (config q))%nat.
Proof.
  revert q. induction ops as [|op ops IH]; intros q Hq; simpl; [auto|].
  destruct (step_bound q op Hq) as [Hc Hd].
  destruct (IH (step q op)) as [Hc' Hd']; [rewrite Hc; exact Hd|].
  rewrite Hc in *. auto.
Qed.

(** C9.  For every PlaybackQueue with maxDepth d (10 when not given) and
    every sequence of operations on it (enqueue, the continuation of the
    drain loop after a clip, stop, clear; in turns where the clock and the
    player behave in any way, a throwing spawn included): every operation
    returns a queue, and the depth is at most d after each of them; an
    enqueue performed when the depth is at least d returns the queue
    unchanged, the new item dropped; and enqueuing 100 items with
    maxDepth 10 leaves a depth of at most 10. *)
Theorem C9_queue_depth_bound
    (opt_maxDepth : option nat) (opt_maxAgeMs opt_maxPlayMs : option Z)
    (ops : list Op) :
  let q0 := new_PlaybackQueue opt_maxDepth opt_maxAgeMs opt_maxPlayMs in
  let d := default 10%nat opt_maxDepth in
  maxDepth (config (run q0 ops)) = d /\
  (depth (run q0 ops) <= d)%nat /\
  (forall q item t,
      (maxDepth (config q) <= depth q)%nat -> enqueue q item t = q) /\
  (forall items : list (QueueItem * Turn),
      length items = 100%nat ->
      (depth (run (new_PlaybackQueue (Some 10%nat) opt_maxAgeMs opt_maxPlayMs)
                  (List.map (fun it => OpEnqueue (fst it) (snd it)) items)) <= 10)%nat).
Proof.
  intros q0 d.
  assert (H0 : forall o, (depth (new_PlaybackQueue o opt_maxAgeMs opt_maxPlayMs)
                          <= maxDepth (config (new_PlaybackQueue o opt_maxAgeMs opt_maxPlayMs)))%nat).
  { intros o. unfold depth. simpl. lia. }
  destruct (run_bound q0 ops (H0 opt_maxDepth)) as [Hc Hd].
  split; [rewrite Hc; reflexivity|]. split; [exact Hd|]. split.
  - intros q item t Hfull. unfold enqueue, depth in *.
    destruct (Nat.leb_spec (maxDepth (config q)) (length (queue q))); [reflexivity|lia].
  - intros items _.
    destruct (run_bound (new_PlaybackQueue (Some 10%nat) opt_maxAgeMs opt_maxPlayMs)
                (List.map (fun it => OpEnqueue (fst it) (snd it)) items) (H0 _)) as [_ H].
    exact H.
Qed.

End QueueClaims.

Section EmitClaims.
Import JS Schema Emit Spec.

Lemma emitEvent_cases (st : EmitState) (w : World) (event : EventEnvelope) (port : Z) :
  exists st' lines,
    emitEvent st w event port = Normal (st', lines) /\
    match fetch w ("http://127.0.0.1:" +:+ Z_to_string port +:+ "/events")
                  (default EmptyString (JSON_stringify (to_value event))) with
    | Fulfilled _ =>
        emitFailures st' = 0%nat /\ lines = [] /\
        lastEmitFailureLogAt st' = lastEmitFailureLogAt st
    | Rejected err =>
        emitFailures st' = S (emitFailures st) /\
        if (EMIT_FAILURE_LOG_INTERVAL_MS <=? Date_now w - lastEmitFailureLogAt st)%Z
        then lines = ["[emitter] emit failure #" +:+ Z_to_string (Z.of_nat (S (emitFailures st)))
                      +:+ ": " +:+ err +:+ newline]
             /\ lastEmitFailureLogAt st' = Date_now w
        else lines = [] /\ lastEmitFailureLogAt st' = lastEmitFailureLogAt st
    end.
Proof.
  unfold emitEvent.
  destruct (fetch w _ _) as [code|err].
  - eexists. eexists. split; [reflexivity|]. simpl. auto.
  - destruct (EMIT_FAILURE_LOG_INTERVAL_MS <=? Date_now w - lastEmitFailureLogAt st)%Z;
      eexists; eexists; (split; [reflexivity|]); simpl; auto.
Qed.

Lemma emit_run_spacing (calls : list (World * EventEnvelope * Z)) :
  forall st : EmitState,
    Forall (fun entry => (EMIT_FAILURE_LOG_INTERVAL_MS
                          <= fst entry - lastEmitFailureLogAt st)%Z)
           (snd (emit_run st calls)) /\
    StronglySorted spaced (snd (emit_run st calls)).
Proof.
  unfold spaced, EMIT_FAILURE_LOG_INTERVAL_MS.
  induction calls as [|[[w event] port] rest IH]; intros st; simpl.
  - split; constructor.
  - destruct (emitEvent_cases st w event port) as (st' & lines & Hrun & Hcase).
    rewrite Hrun. specialize (IH st').
    destruct (emit_run st' rest) as [final log]. simpl in *.
    destruct IH as [Hall Hsorted].
    destruct (fetch w _ _) as [code|err].
    + destruct Hcase as (_ & -> & Hlast). simpl. rewrite Hlast in Hall. auto.
    + destruct Hcase as (_ & Hcase).
      unfold EMIT_FAILURE_LOG_INTERVAL_MS in Hcase.
      destruct (Z.leb_spec 30000 (Date_now w - lastEmitFailureLogAt st)) as [Hdue|Hearly].
      * destruct Hcase as (-> & Hlast). simpl. rewrite Hlast in Hall. split.
        -- constructor; [simpl; lia|].
           eapply Forall_impl; [exact Hall|]. simpl. intros entry H. lia.
        -- constructor; [exact Hsorted|]. exact Hall.
      * destruct Hcase as (-> & Hlast). simpl. rewrite Hlast in Hall. auto.
Qed.

(** C8 (amended).  emitEvent never throws, for any envelope and port and
    however the POST ends: it always completes normally.  When the fetch
    is fulfilled (with any HTTP status, a non-2xx one included) the
    failure counter is reset to 0 and nothing is written.  When the fetch
    is rejected (network error, abort on timeout) the counter is
    incremented and at most one line is written to stderr, naming the
    counter and the error, and only if 30 seconds have passed since the
    last such line; so over any run of calls, any two lines written are at
    least 30 seconds apart. *)
Theorem C8_emit_absorbs_failures
    (st : EmitState) (w : World) (event : EventEnvelope) (port : Z) :
  (exists st' lines,
      emitEvent st w event port = Normal (st', lines) /\
      match fetch w ("http://127.0.0.1:" +:+ Z_to_string port +:+ "/events")
                    (default EmptyString (JSON_stringify (to_value event))) with
      | Fulfilled _ =>
          emitFailures st' = 0%nat /\ lines = [] /\
          lastEmitFailureLogAt st' = lastEmitFailureLogAt st
      | Rejected err =>
          emitFailures st' = S (emitFailures st) /\
          if (EMIT_FAILURE_LOG_INTERVAL_MS <=? Date_now w - lastEmitFailureLogAt st)%Z
          then lines = ["[emitter] emit failure #"
                        +:+ Z_to_string (Z.of_nat (S (emitFailures st)))
                        +:+ ": " +:+ err +:+ newline]
               /\ lastEmitFailureLogAt st' = Date_now w
          else lines = [] /\ lastEmitFailureLogAt st' = lastEmitFailureLogAt st
      end) /\
  (forall calls : list (World * EventEnvelope * Z),
      StronglySorted spaced (snd (emit_run st calls))).
Proof.
  split; [apply emitEvent_cases|].
  intros calls. apply emit_run_spacing.
Qed.

(** C8 as stated fails on a non-2xx answer, which it counts among the
    failures: fetch does not reject on an HTTP error status, so a 500
    resets the counter (3 before the call, 0 after, not 4) and nothing is
    logged. *)
Lemma C8_http_error_resets_the_counter :
  emitEvent {| emitFailures := 3; lastEmitFailureLogAt := 0 |}
            {| fetch := fun _ _ => Fulfilled 500; Date_now := 1767225600000 |}
            (Sample.event "1" "worktree.created") 7483
  = Normal ({| emitFailures := 0; lastEmitFailureLogAt := 0 |}, []).
Proof. reflexivity. Qed.

End EmitClaims.

(* ===================================================================== *)
(** * Rounding to the nearest double *)
(* ===================================================================== *)


Section DoubleFacts.
Import Double.
Local Open Scope Q_scope.

Lemma rne_between (y : Q) : (Qfloor y <= rne y <= Qfloor y + 1)%Z.
Proof.
  unfold rne. destruct (y - inject_Z (Qfloor y) ?= 1 # 2); [|lia|lia].
  destruct (Z.even (Qfloor y)); lia.
Qed.

Lemma rne_le (y : Q) (n : Z) : y <= inject_Z n -> (rne y <= n)%Z.
Proof.
  intros Hy. pose proof (Qfloor_le y) as Hf.
  assert (Hfn : (Qfloor y <= n)%Z) by (rewrite Zle_Qle; lra).
  destruct (Z.eq_dec (Qfloor y) n) as [He|Hne].
  - unfold rne. rewrite He in *.
    assert (Hy0 : y - inject_Z n == 0) by lra.
    assert (Hc : (y - inject_Z n ?= 1 # 2) = Lt).
    { apply Qlt_alt. rewrite Hy0. reflexivity. }
    rewrite Hc. lia.
  - pose proof (rne_between y). lia.
Qed.

Lemma rne_ge (y : Q) (n : Z) : inject_Z n <= y -> (n <= rne y)%Z.
Proof.
  intros Hy. pose proof (rne_between y) as Hb.
  assert (Hfn : (n <= Qfloor y)%Z).
  { rewrite <- (Qfloor_Z n). apply Qfloor_resp_le, Hy. }
  lia.
Qed.

Lemma rne_mono (a b : Q) : a <= b -> (rne a <= rne b)%Z.
Proof.
  intros Hab. pose proof (Qfloor_resp_le a b Hab) as Hf.
  pose proof (rne_between a) as Ha. pose proof (rne_between b) as Hb.
  destruct (Z.eq_dec (Qfloor a) (Qfloor b)) as [He|Hne]; [|lia].
  unfold rne. rewrite He.
  pose proof (Qfloor_le a) as Hfa. rewrite He in Hfa.
  destruct (a - inject_Z (Qfloor b) ?= 1 # 2) eqn:Ca;
    destruct (b - inject_Z (Qfloor b) ?= 1 # 2) eqn:Cb;
    try (destruct (Z.even (Qfloor b))); try lia; exfalso;
    first [apply <- Qeq_alt in Ca | apply <- Qlt_alt in Ca | apply <- Qgt_alt in Ca];
    first [apply <- Qeq_alt in Cb | apply <- Qlt_alt in Cb | apply <- Qgt_alt in Cb];
    lra.
Qed.

Lemma rne_Z (n : Z) : rne (inject_Z n) = n.
Proof.
  apply Z.le_antisymm; [apply rne_le|apply rne_ge]; lra.
Qed.

Lemma rne_comp (a b : Q) : a == b -> rne a = rne b.
Proof.
  intros H. apply Z.le_antisymm; apply rne_mono; lra.
Qed.

Lemma shift_nonneg (X : Q) : (0 <= shift X)%Z.
Proof. unfold shift. lia. Qed.

Lemma shift_mono (X Y : Q) : X <= Y -> (shift X <= shift Y)%Z.
Proof.
  intros H. unfold shift.
  pose proof (Z.log2_le_mono _ _ (Qfloor_resp_le X Y H)). lia.
Qed.

Lemma pow2_pos (k : Z) : (0 <= k)%Z -> 0 < inject_Z (2 ^ k).
Proof.
  intros Hk. change 0 with (inject_Z 0). rewrite <- Zlt_Qlt.
  apply Z.pow_pos_nonneg; lia.
Qed.

Lemma Qfloor_nonneg (X : Q) : 0 <= X -> (0 <= Qfloor X)%Z.
Proof.
  intros H. rewrite <- (Qfloor_Z 0%Z). apply Qfloor_resp_le. exact H.
Qed.

(** A magnitude lies below 2 ^ (53 + shift). *)
Lemma below_shift (X : Q) : 0 <= X -> X < inject_Z (2 ^ (53 + shift X)).
Proof.
  intros H0. pose proof (Qfloor_nonneg X H0) as HF.
  pose proof (Qlt_floor X) as Hlt.
  assert (Hz : (Qfloor X + 1 <= 2 ^ (53 + shift X))%Z).
  { destruct (Z.eq_dec (Qfloor X) 0%Z) as [->|Hne].
    - pose proof (shift_nonneg X).
      assert (2 ^ 0 <= 2 ^ (53 + shift X))%Z by (apply Z.pow_le_mono_r; lia).
      simpl in *. lia.
    - destruct (Z.log2_spec (Qfloor X)) as [_ Hup]; [lia|].
      assert (2 ^ Z.succ (Z.log2 (Qfloor X)) <= 2 ^ (53 + shift X))%Z.
      { apply Z.pow_le_mono_r; [lia|]. unfold shift. lia. }
      lia. }
  rewrite Zle_Qle in Hz. lra.
Qed.

(** With a positive shift it lies at or above 2 ^ (52 + shift). *)
Lemma above_shift (X : Q) : (0 < shift X)%Z -> inject_Z (2 ^ (52 + shift X)) <= X.
Proof.
  intros Hs. pose proof (Qfloor_le X) as Hle.
  assert (Hlog : (52 < Z.log2 (Qfloor X))%Z) by (unfold shift in Hs; lia).
  assert (HF : (0 < Qfloor X)%Z).
  { destruct (Z.lt_trichotomy 0%Z (Qfloor X)) as [H|[H|H]]; [exact H| |].
    - rewrite <- H in Hlog. simpl in Hlog. lia.
    - rewrite Z.log2_nonpos in Hlog by lia. lia. }
  destruct (Z.log2_spec (Qfloor X) HF) as [Hlow _].
  assert (He : (52 + shift X = Z.log2 (Qfloor X))%Z) by (unfold shift; lia).
  rewrite He. rewrite Zle_Qle in Hlow. lra.
Qed.

Lemma pow2_split (a b : Z) :
  (0 <= a)%Z -> (0 <= b)%Z ->
  inject_Z (2 ^ (a + b)) == inject_Z (2 ^ a) * inject_Z (2 ^ b).
Proof.
  intros Ha Hb. rewrite Z.pow_add_r by lia. rewrite inject_Z_mult. reflexivity.
Qed.

Lemma nearest_le (X : Q) : 0 <= X -> (nearest X <= 2 ^ (53 + shift X))%Z.
Proof.
  intros H0. unfold nearest. pose proof (shift_nonneg X) as Hs.
  pose proof (pow2_pos (shift X) Hs) as Hp.
  rewrite Z.pow_add_r by lia.
  apply Z.mul_le_mono_nonneg_r; [apply Z.pow_nonneg; lia|].
  apply rne_le. apply Qle_shift_div_r; [exact Hp|].
  pose proof (below_shift X H0) as Hb.
  rewrite pow2_split in Hb by lia. lra.
Qed.

Lemma nearest_ge (X : Q) : (0 < shift X)%Z -> (2 ^ (52 + shift X) <= nearest X)%Z.
Proof.
  intros Hs. unfold nearest.
  pose proof (pow2_pos (shift X) (shift_nonneg X)) as Hp.
  rewrite Z.pow_add_r by lia.
  apply Z.mul_le_mono_nonneg_r; [apply Z.pow_nonneg; lia|].
  apply rne_ge. apply Qle_shift_div_l; [exact Hp|].
  pose proof (above_shift X Hs) as Hb.
  rewrite pow2_split in Hb by lia. lra.
Qed.

Lemma nearest_nonneg (X : Q) : 0 <= X -> (0 <= nearest X)%Z.
Proof.
  intros H0. unfold nearest.
  pose proof (pow2_pos (shift X) (shift_nonneg X)) as Hp.
  apply Z.mul_nonneg_nonneg; [|apply Z.pow_nonneg; lia].
  apply rne_ge. apply Qle_shift_div_l; [exact Hp|].
  change (inject_Z 0) with 0. lra.
Qed.

Lemma nearest_mono (X Y : Q) : 0 <= X -> X <= Y -> (nearest X <= nearest Y)%Z.
Proof.
  intros H0 HXY. pose proof (shift_mono X Y HXY) as Hk.
  destruct (Z.eq_dec (shift X) (shift Y)) as [He|Hne].
  - unfold nearest. rewrite He.
    pose proof (pow2_pos (shift Y) (shift_nonneg Y)) as Hp.
    apply Z.mul_le_mono_nonneg_r; [apply Z.pow_nonneg; lia|].
    apply rne_mono. unfold Qdiv. apply Qmult_le_compat_r; [exact HXY|].
    apply Qlt_le_weak, Qinv_lt_0_compat, Hp.
  - pose proof (nearest_le X H0) as Hx.
    pose proof (shift_nonneg X) as Hsx.
    assert (Hsy : (0 < shift Y)%Z) by lia.
    pose proof (nearest_ge Y Hsy) as Hy.
    assert (2 ^ (53 + shift X) <= 2 ^ (52 + shift Y))%Z
      by (apply Z.pow_le_mono_r; lia).
    lia.
Qed.

(** A magnitude with at most 53 significant bits is left as it is. *)
Lemma nearest_exact (X : Q) (m k : Z) :
  (0 <= m <= 2 ^ 53)%Z -> (0 <= k)%Z ->
  X == inject_Z (m * 2 ^ k) ->
  nearest X = (m * 2 ^ k)%Z.
Proof.
  intros Hm Hk HX.
  assert (HF : Qfloor X = (m * 2 ^ k)%Z) by (rewrite HX; apply Qfloor_Z).
  assert (Hpk : (0 < 2 ^ k)%Z) by (apply Z.pow_pos_nonneg; lia).
  assert (Hs : (shift X <= k)%Z \/ (m = 2 ^ 53 /\ shift X = k + 1)%Z).
  { unfold shift. rewrite HF.
    destruct (Z.eq_dec m 0%Z) as [->|Hm0]; [left; simpl; lia|].
    rewrite Z.log2_mul_pow2 by lia.
    destruct (Z.eq_dec m (2 ^ 53)%Z) as [->|Hm53].
    - right. rewrite Z.log2_pow2 by lia. lia.
    - left. assert (Z.log2 m < 53)%Z by (apply Z.log2_lt_pow2; lia). lia. }
  unfold nearest. pose proof (shift_nonneg X) as Hs0.
  pose proof (pow2_pos (shift X) Hs0) as Hp.
  assert (Hq : exists n : Z, (m * 2 ^ k = n * 2 ^ shift X)%Z).
  { destruct Hs as [Hle|[-> ->]].
    - exists (m * 2 ^ (k - shift X))%Z.
      rewrite <- Z.mul_assoc, <- Z.pow_add_r by lia. f_equal. f_equal. lia.
    - exists (2 ^ 52)%Z. rewrite <- !Z.pow_add_r by lia. f_equal. lia. }
  destruct Hq as [n Hn].
  assert (Hdiv : X / inject_Z (2 ^ shift X) == inject_Z n).
  { apply Qmult_inj_r with (z := inject_Z (2 ^ shift X)); [lra|].
    unfold Qdiv. rewrite <- Qmult_assoc, (Qmult_comm (/ _)), Qmult_inv_r by lra.
    rewrite Qmult_1_r, <- inject_Z_mult, <- Hn. exact HX. }
  rewrite (rne_comp _ _ Hdiv), rne_Z. symmetry. exact Hn.
Qed.

Lemma nearest_comp (X Y : Q) : 0 <= X -> X == Y -> nearest X = nearest Y.
Proof.
  intros H0 He. apply Z.le_antisymm; apply nearest_mono; lra.
Qed.

Lemma units_pos : 0 < inject_Z (2 ^ 1074).
Proof. apply pow2_pos. lia. Qed.

Lemma grid_mono (x y : Q) : 0 <= x -> x <= y -> (grid x <= grid y)%Z.
Proof.
  intros H0 Hxy. pose proof units_pos as Hu. unfold grid. apply nearest_mono.
  - apply Qmult_le_0_compat; lra.
  - apply Qmult_le_compat_r; lra.
Qed.

Lemma grid_comp (x y : Q) : 0 <= x -> x == y -> grid x = grid y.
Proof.
  intros H0 He. apply Z.le_antisymm; apply grid_mono; lra.
Qed.

Lemma grid_nonneg (x : Q) : 0 <= x -> (0 <= grid x)%Z.
Proof.
  intros H0. pose proof units_pos. apply nearest_nonneg.
  apply Qmult_le_0_compat; lra.
Qed.

(** Rounding a rational that is not negative. *)
Lemma round_nonneg (x : Q) :
  0 <= x ->
  round x = if (2 ^ 2098 <=? grid x)%Z then Inf
            else Fin (Qred (inject_Z (grid x) / inject_Z (2 ^ 1074))).
Proof.
  intros H0. unfold round.
  rewrite (grid_comp (Qabs x) x (Qabs_nonneg x) (Qabs_pos x H0)).
  assert (Hb : Qle_bool 0 x = true) by (apply Qle_bool_iff; exact H0).
  rewrite Hb. reflexivity.
Qed.

Lemma round_comp (x y : Q) : 0 <= x -> x == y -> round x = round y.
Proof.
  intros H0 He. rewrite !round_nonneg by lra. rewrite (grid_comp x y H0 He).
  reflexivity.
Qed.

(** Rounding is monotone. *)
Lemma round_mono (x y : Q) : 0 <= x -> x <= y -> dle (round x) (round y).
Proof.
  intros H0 Hxy. rewrite !round_nonneg by lra.
  pose proof (grid_mono x y H0 Hxy) as Hg. pose proof units_pos as Hu.
  destruct (Z.leb_spec (2 ^ 2098) (grid x)); destruct (Z.leb_spec (2 ^ 2098) (grid y));
    simpl; try exact I; [lia|].
  rewrite !Qred_correct. unfold Qdiv. apply Qmult_le_compat_r.
  - rewrite <- Zle_Qle. exact Hg.
  - apply Qlt_le_weak, Qinv_lt_0_compat, Hu.
Qed.

(** The doubles that are not negative are the rationals [m * 2^k] in
    units of 2^-1074 with [m] of at most 53 bits, below 2^1024. *)
Lemma representable_intro (x : Q) (m k : Z) :
  (0 <= m <= 2 ^ 53)%Z -> (0 <= k)%Z ->
  x * inject_Z (2 ^ 1074) == inject_Z (m * 2 ^ k) ->
  (m * 2 ^ k < 2 ^ 2098)%Z ->
  representable x.
Proof.
  intros Hm Hk Hx Hlt. pose proof units_pos as Hu.
  assert (H0 : 0 <= x).
  { assert (H : 0 <= x * inject_Z (2 ^ 1074)).
    { rewrite Hx. change 0 with (inject_Z 0). rewrite <- Zle_Qle.
      apply Z.mul_nonneg_nonneg; [lia|apply Z.pow_nonneg; lia]. }
    destruct (Qlt_le_dec x 0) as [Hneg|Hpos]; [|exact Hpos].
    exfalso. assert (x * inject_Z (2 ^ 1074) < 0); [|lra].
    generalize dependent (inject_Z (2 ^ 1074)). intros c _ Hc _. nra. }
  unfold representable. rewrite round_nonneg by exact H0.
  unfold grid. rewrite (nearest_exact _ m k Hm Hk Hx).
  destruct (Z.leb_spec (2 ^ 2098) (m * 2 ^ k)); [lia|].
  f_equal. apply Qred_complete. rewrite <- Hx. field. lra.
Qed.

Lemma representable_elim (x : Q) :
  0 <= x -> representable x ->
  exists m k : Z,
    (0 <= m <= 2 ^ 53)%Z /\ (0 <= k)%Z /\
    x * inject_Z (2 ^ 1074) == inject_Z (m * 2 ^ k) /\
    (m * 2 ^ k < 2 ^ 2098)%Z.
Proof.
  intros H0 Hr. unfold representable in Hr. rewrite round_nonneg in Hr by exact H0.
  pose proof units_pos as Hu.
  destruct (Z.leb_spec (2 ^ 2098) (grid x)) as [|Hlt]; [discriminate|].
  injection Hr as Hr.
  assert (Hq : inject_Z (grid x) / inject_Z (2 ^ 1074) == x).
  { transitivity (Qred (inject_Z (grid x) / inject_Z (2 ^ 1074)));
      [symmetry; apply Qred_correct|].
    rewrite Hr. apply Qred_correct. }
  assert (HX : 0 <= x * inject_Z (2 ^ 1074)) by (apply Qmult_le_0_compat; lra).
  exists (rne (x * inject_Z (2 ^ 1074)
               / inject_Z (2 ^ shift (x * inject_Z (2 ^ 1074))))),
         (shift (x * inject_Z (2 ^ 1074))).
  pose proof (shift_nonneg (x * inject_Z (2 ^ 1074))) as Hs.
  pose proof (pow2_pos _ Hs) as Hp.
  split; [split|split; [exact Hs|split]].
  - apply rne_ge. apply Qle_shift_div_l; [exact Hp|].
    change (inject_Z 0) with 0. lra.
  - apply rne_le. apply Qle_shift_div_r; [exact Hp|].
    pose proof (below_shift _ HX) as Hb.
    rewrite pow2_split in Hb by lia. lra.
  - change (x * inject_Z (2 ^ 1074) == inject_Z (grid x)).
    rewrite <- Hq at 1. field. lra.
  - exact Hlt.
Qed.

(** Scaling a double by a power of two is exact below the overflow. *)
Lemma representable_scale (x : Q) (n : nat) :
  0 <= x -> representable x -> x * exp2 n < inject_Z (2 ^ 1024) ->
  representable (x * exp2 n).
Proof.
  intros H0 Hr Hlt. pose proof units_pos as Hu.
  destruct (representable_elim x H0 Hr) as (m & k & Hm & Hk & Hx & _).
  apply (representable_intro _ m (k + Z.of_nat n)); [exact Hm|lia| |].
  - unfold exp2. rewrite Z.pow_add_r, Z.mul_assoc, inject_Z_mult by lia.
    rewrite <- Hx. ring.
  - assert (H : inject_Z (m * 2 ^ (k + Z.of_nat n)) < inject_Z (2 ^ 2098)).
    { rewrite Z.pow_add_r, Z.mul_assoc, inject_Z_mult by lia. rewrite <- Hx.
      change (2 ^ 2098)%Z with (2 ^ 1024 * 2 ^ 1074)%Z. rewrite inject_Z_mult.
      unfold exp2 in Hlt. clear Hx Hr.
      generalize dependent (inject_Z (2 ^ Z.of_nat n)).
      generalize dependent (inject_Z (2 ^ 1074)).
      generalize (inject_Z (2 ^ 1024)). intros T U HU E HE. nra. }
    rewrite <- Zlt_Qlt in H. exact H.
Qed.

(** The integers up to 2^53 are doubles. *)
Lemma representable_Z (z : Z) : (0 <= z <= 2 ^ 53)%Z -> representable (inject_Z z).
Proof.
  intros Hz. apply (representable_intro _ z 1074); [exact Hz|lia| |].
  - rewrite inject_Z_mult. reflexivity.
  - apply Z.le_lt_trans with (2 ^ 53 * 2 ^ 1074)%Z.
    + apply Z.mul_le_mono_nonneg_r; [apply Z.pow_nonneg|]; lia.
    + rewrite <- Z.pow_add_r by lia. apply Z.pow_lt_mono_r; lia.
Qed.

Lemma Qred_Z (z : Z) : Qred (inject_Z z) = inject_Z z.
Proof.
  unfold Qred, inject_Z.
  pose proof (Z.ggcd_gcd z 1) as Hg.
  pose proof (Z.ggcd_correct_divisors z 1) as Hd.
  destruct (Z.ggcd z 1) as [g [r1 r2]]. simpl in *.
  rewrite Z.gcd_1_r in Hg. subst g. destruct Hd as [H1 H2].
  assert (E1 : r1 = z) by lia. assert (E2 : r2 = 1%Z) by lia.
  rewrite E1, E2. reflexivity.
Qed.

Lemma round_Z (z : Z) : (0 <= z <= 2 ^ 53)%Z -> round (inject_Z z) = Fin (inject_Z z).
Proof.
  intros Hz. rewrite <- (Qred_Z z) at 2. apply (representable_Z z Hz).
Qed.

(** A rounded value between two integers. *)
Lemma round_between (x : Q) (lo hi : Z) :
  (0 <= lo)%Z -> (hi <= 2 ^ 53)%Z ->
  inject_Z lo <= x -> x <= inject_Z hi ->
  exists y, round x = Fin y /\ inject_Z lo <= y /\ y <= inject_Z hi.
Proof.
  intros Hlo Hhi Hl Hh.
  assert (Hle : (lo <= hi)%Z) by (rewrite Zle_Qle; lra).
  assert (H0 : 0 <= inject_Z lo).
  { change 0 with (inject_Z 0). rewrite <- Zle_Qle. exact Hlo. }
  pose proof (round_mono (inject_Z lo) x H0 Hl) as H1.
  pose proof (round_mono x (inject_Z hi) ltac:(lra) Hh) as H2.
  rewrite round_Z in H1 by lia. rewrite round_Z in H2 by lia.
  destruct (round x) as [y| | |]; simpl in *; try contradiction.
  exists y. auto.
Qed.


(** What rounding returns is a double. *)
Lemma round_idem (x y : Q) :
  0 <= x -> round x = Fin y -> 0 <= y /\ representable y.
Proof.
  intros H0 Hr. rewrite round_nonneg in Hr by exact H0.
  destruct (Z.leb_spec (2 ^ 2098) (grid x)) as [|Hlt]; [discriminate|].
  injection Hr as Hr. pose proof units_pos as Hu.
  pose proof (grid_nonneg x H0) as Hg.
  assert (Hy : y == inject_Z (grid x) / inject_Z (2 ^ 1074)).
  { rewrite <- Hr. apply Qred_correct. }
  assert (HX : 0 <= x * inject_Z (2 ^ 1074)) by (apply Qmult_le_0_compat; lra).
  pose proof (shift_nonneg (x * inject_Z (2 ^ 1074))) as Hs.
  pose proof (pow2_pos _ Hs) as Hp.
  split.
  - rewrite Hy. apply Qle_shift_div_l; [exact Hu|]. rewrite Qmult_0_l.
    change 0 with (inject_Z 0). rewrite <- Zle_Qle. exact Hg.
  - apply (representable_intro y
             (rne (x * inject_Z (2 ^ 1074)
                   / inject_Z (2 ^ shift (x * inject_Z (2 ^ 1074)))))
             (shift (x * inject_Z (2 ^ 1074)))).
    + split.
      * apply rne_ge. apply Qle_shift_div_l; [exact Hp|].
        change (inject_Z 0) with 0. lra.
      * apply rne_le. apply Qle_shift_div_r; [exact Hp|].
        pose proof (below_shift _ HX) as Hb.
        rewrite pow2_split in Hb by lia. lra.
    + exact Hs.
    + change (y * inject_Z (2 ^ 1074) == inject_Z (grid x)).
      rewrite Hy. field. lra.
    + exact Hlt.
Qed.

Lemma exp2_pos (n : nat) : 0 < exp2 n.
Proof. apply pow2_pos. lia. Qed.

Lemma exp2_succ (n : nat) : exp2 (S n) == 2 * exp2 n.
Proof.
  unfold exp2. rewrite Nat2Z.inj_succ, Z.pow_succ_r by lia.
  rewrite inject_Z_mult. reflexivity.
Qed.

Lemma exp2_ge_1 (n : nat) : 1 <= exp2 n.
Proof.
  unfold exp2. change 1 with (inject_Z 1). rewrite <- Zle_Qle.
  pose proof (Z.pow_pos_nonneg 2 (Z.of_nat n)). lia.
Qed.

Lemma exp2_overflow (n : nat) : (1024 <= n)%nat -> inject_Z (2 ^ 1024) <= exp2 n.
Proof.
  intros Hn. unfold exp2. rewrite <- Zle_Qle. apply Z.pow_le_mono_r; lia.
Qed.

Lemma cap_below_overflow : 31000 < inject_Z (2 ^ 1024).
Proof.
  change 31000 with (inject_Z 31000). rewrite <- Zlt_Qlt.
  apply Z.ltb_lt. vm_compute. reflexivity.
Qed.

Lemma round_0 : round 0 = Fin 0.
Proof. apply (round_Z 0). lia. Qed.

Lemma round_30000 : round 30000 = Fin 30000.
Proof. apply (round_Z 30000). lia. Qed.

Lemma round_31000 : round 31000 = Fin 31000.
Proof. apply (round_Z 31000). lia. Qed.

(** The largest double below 1 is 1 - 2^-53. *)
Lemma below_one (r : Q) :
  0 <= r -> r < 1 -> representable r ->
  r <= 9007199254740991 # 9007199254740992.
Proof.
  intros H0 H1 Hr.
  destruct (representable_elim r H0 Hr) as (m & k & Hm & Hk & Hx & _).
  pose proof units_pos as Hu.
  assert (Hlt : (m * 2 ^ k < 2 ^ 1074)%Z).
  { rewrite Zlt_Qlt, <- Hx.
    generalize dependent (inject_Z (2 ^ 1074)). intros U _ HU. nra. }
  set (P := (2 ^ 1021)%Z).
  assert (HP : (0 < P)%Z) by (apply Z.pow_pos_nonneg; lia).
  assert (HU : (2 ^ 1074 = 2 ^ 53 * P)%Z).
  { unfold P. rewrite <- Z.pow_add_r by lia. reflexivity. }
  assert (Hle : (m * 2 ^ k <= (2 ^ 53 - 1) * P)%Z).
  { destruct (Z_lt_le_dec k 1021) as [Hk1|Hk1].
    - assert (H2 : (2 * 2 ^ k <= P)%Z).
      { unfold P. rewrite <- Z.pow_succ_r by lia. apply Z.pow_le_mono_r; lia. }
      assert (H3 : (0 < 2 ^ k)%Z) by (apply Z.pow_pos_nonneg; lia).
      assert (H4 : (m * 2 ^ k <= 2 ^ 53 * 2 ^ k)%Z)
        by (apply Z.mul_le_mono_nonneg_r; lia).
      change (2 ^ 53)%Z with 9007199254740992%Z in *.
      generalize dependent (2 ^ k)%Z. intros. lia.
    - assert (E : (2 ^ k = 2 ^ (k - 1021) * P)%Z).
      { unfold P. rewrite <- Z.pow_add_r by lia. f_equal. lia. }
      assert (H3 : (0 < 2 ^ (k - 1021))%Z) by (apply Z.pow_pos_nonneg; lia).
      rewrite E, HU, Z.mul_assoc in Hlt.
      apply Z.mul_lt_mono_pos_r in Hlt; [|exact HP].
      rewrite E, Z.mul_assoc. apply Z.mul_le_mono_nonneg_r; lia. }
  assert (Hq : r * inject_Z (2 ^ 53) * inject_Z P
               <= inject_Z (2 ^ 53 - 1) * inject_Z P).
  { rewrite <- Qmult_assoc, <- !inject_Z_mult, <- HU, Hx, <- Zle_Qle. exact Hle. }
  apply Qmult_lt_0_le_reg_r in Hq;
    [|change 0 with (inject_Z 0); rewrite <- Zlt_Qlt; exact HP].
  change (inject_Z (2 ^ 53)) with 9007199254740992 in Hq.
  change (inject_Z (2 ^ 53 - 1)) with 9007199254740991 in Hq.
  lra.
Qed.

End DoubleFacts.

(* ===================================================================== *)
(** * The reconnecting client *)
(* ===================================================================== *)

Section ClientClaims.
Import Double Client Spec.
Local Open Scope Q_scope.

(** The jitter is a double in [0, 1000). *)
Lemma jitter_range (r : Q) :
  0 <= r -> r < 1 -> representable r ->
  exists j, jitter r = Fin j /\ 0 <= j /\ j < 1000 /\ representable j.
Proof.
  intros H0 H1 Hr. pose proof (below_one r H0 H1 Hr) as Hb.
  unfold jitter, dmul.
  pose proof (round_mono 0 (r * 1000) ltac:(lra) ltac:(lra)) as Hlo.
  pose proof (round_mono (r * 1000)
                ((9007199254740991 # 9007199254740992) * 1000)
                ltac:(lra) ltac:(lra)) as Hhi.
  rewrite round_0 in Hlo.
  assert (Emax : round ((9007199254740991 # 9007199254740992) * 1000)
                 = Fin (8796093022207999 # 8796093022208))
    by (vm_compute; reflexivity).
  rewrite Emax in Hhi.
  destruct (round (r * 1000)) as [j| | |] eqn:E; simpl in Hlo, Hhi;
    try contradiction.
  exists j. split; [reflexivity|]. split; [exact Hlo|]. split; [lra|].
  apply (round_idem (r * 1000) j); [lra|exact E].
Qed.

Lemma dmul_dpow2 (b : Q) (n : nat) :
  (n < 1024)%nat -> dmul (Fin b) (dpow2 n) = round (b * exp2 n).
Proof.
  intros Hn. unfold dpow2. destruct (Nat.ltb_spec n 1024); [reflexivity|lia].
Qed.

Lemma dmul_dpow2_overflow (b : Q) (n : nat) :
  (1024 <= n)%nat ->
  dmul (Fin b) (dpow2 n) = if Qeq_bool b 0 then DNaN
                           else if Qle_bool 0 b then Inf else NInf.
Proof.
  intros Hn. unfold dpow2. destruct (Nat.ltb_spec n 1024); [lia|reflexivity].
Qed.

(** The capped part of the wait: a double in [0, 30000], unless the base
    delay is 0 and the power overflows. *)
Lemma backoff_base_cases (b : Q) (n : nat) :
  0 <= b -> 0 < b \/ (n < 1024)%nat ->
  exists B,
    backoff_base (Fin b) n = Fin B /\ 0 <= B /\ B <= 30000 /\ representable B /\
    ((n < 1024)%nat -> b * exp2 n <= 30000 -> round (b * exp2 n) = Fin B) /\
    (30000 <= b * exp2 n \/ (1024 <= n)%nat -> B == 30000).
Proof.
  intros Hb Hcase. pose proof (exp2_pos n) as Hp.
  assert (HX : 0 <= b * exp2 n) by (apply Qmult_le_0_compat; lra).
  assert (H30 : representable 30000) by (apply (representable_Z 30000); lia).
  unfold backoff_base, MAX_RECONNECT_DELAY_MS.
  destruct (Nat.lt_ge_cases n 1024) as [Hn|Hn].
  - rewrite (dmul_dpow2 b n Hn).
    destruct (Qlt_le_dec 30000 (b * exp2 n)) as [Hgt|Hle].
    + pose proof (round_mono 30000 (b * exp2 n) ltac:(lra) ltac:(lra)) as Hm.
      rewrite round_30000 in Hm.
      destruct (round (b * exp2 n)) as [y| | |] eqn:E; simpl in Hm;
        try contradiction.
      * unfold dmin. destruct (Qle_bool y 30000) eqn:Ey.
        -- apply Qle_bool_iff in Ey. exists y.
           split; [reflexivity|]. split; [lra|]. split; [exact Ey|].
           split; [apply (round_idem (b * exp2 n) y HX E)|].
           split; [intros; lra|intros [?|?]; [lra|lia]].
        -- exists 30000. split; [reflexivity|]. split; [lra|]. split; [lra|].
           split; [exact H30|]. split; [intros; lra|intros; reflexivity].
      * exists 30000. split; [reflexivity|]. split; [lra|]. split; [lra|].
        split; [exact H30|]. split; [intros; lra|intros; reflexivity].
    + destruct (round_between (b * exp2 n) 0 30000) as (y & E & Hy0 & Hy1);
        [lia|lia|exact HX|exact Hle|].
      change (inject_Z 0) with 0 in Hy0. change (inject_Z 30000) with 30000 in Hy1.
      rewrite E. unfold dmin.
      assert (Ey : Qle_bool y 30000 = true) by (apply Qle_bool_iff; exact Hy1).
      rewrite Ey. exists y.
      split; [reflexivity|]. split; [exact Hy0|]. split; [exact Hy1|].
      split; [apply (round_idem (b * exp2 n) y HX E)|].
      split; [intros; reflexivity|].
      intros [Hge|Hge]; [|lia].
      pose proof (round_mono 30000 (b * exp2 n) ltac:(lra) Hge) as Hm.
      rewrite round_30000, E in Hm. simpl in Hm. lra.
  - destruct Hcase as [Hpos|Hlt]; [|lia].
    rewrite (dmul_dpow2_overflow b n Hn).
    assert (E0 : Qeq_bool b 0 = false).
    { destruct (Qeq_bool b 0) eqn:E; [|reflexivity].
      apply Qeq_bool_iff in E. lra. }
    assert (E1 : Qle_bool 0 b = true) by (apply Qle_bool_iff; lra).
    rewrite E0, E1. exists 30000.
    split; [reflexivity|]. split; [lra|]. split; [lra|].
    split; [exact H30|]. split; [intros; lia|intros; reflexivity].
Qed.

(** Below the cap nothing is lost before the jitter is added: the wait is
    the double nearest to [b * 2^n + j]. *)
Lemma reconnect_wait_below (b : Q) (n : nat) (r j : Q) :
  0 <= b -> representable b -> (n < 1024)%nat -> b * exp2 n <= 30000 ->
  jitter r = Fin j -> 0 <= j ->
  reconnect_wait (Fin b) n r = round (b * exp2 n + j) /\
  reconnect_wait_as_specified (Fin b) n r
  = dmin (round (b * exp2 n + j)) MAX_RECONNECT_DELAY_MS.
Proof.
  intros Hb Hr Hn Hle Hj Hj0. pose proof (exp2_pos n) as Hp.
  pose proof cap_below_overflow as Hc.
  assert (HX : 0 <= b * exp2 n) by (apply Qmult_le_0_compat; lra).
  assert (Hs : representable (b * exp2 n))
    by (apply representable_scale; [exact Hb|exact Hr|lra]).
  unfold representable in Hs.
  pose proof (Qred_correct (b * exp2 n)) as Hq.
  assert (Hsum : round (Qred (b * exp2 n) + j) = round (b * exp2 n + j)).
  { apply round_comp; [|rewrite Hq; reflexivity]. rewrite Hq. lra. }
  split.
  - unfold reconnect_wait, backoff_base, MAX_RECONNECT_DELAY_MS.
    rewrite (dmul_dpow2 b n Hn), Hs, Hj. unfold dmin.
    assert (E : Qle_bool (Qred (b * exp2 n)) 30000 = true).
    { apply Qle_bool_iff. rewrite Hq. exact Hle. }
    rewrite E. exact Hsum.
  - unfold reconnect_wait_as_specified.
    rewrite (dmul_dpow2 b n Hn), Hs, Hj. unfold dadd. rewrite Hsum. reflexivity.
Qed.

(** C7 (amended).  For the WS reconnect client with a base delay b that
    is a double and not negative, and Math.random() returning doubles in
    [0, 1): the jitter j = random * 1000 is a double in [0, 1000); after
    the n-th consecutive failed attempt (n < 1024), whenever
    b * 2^n + j <= 30000 the wait before retrying is the double nearest
    to b * 2^n + j = min(b * 2^n + j, 30000), which is what the formula
    min(b * 2^n + j, 30000) evaluates to in doubles, and it is at most
    30000; for b >= 1000 the wait after attempt n is at most the wait
    after attempt n + 1 as long as b * 2^(n+1) is at most 30000
    (non-decreasing delays below the cap); a failed attempt that
    schedules a retry increments the attempt counter, and a successful
    open resets it to 0. *)
Theorem C7_reconnect_backoff
    (o : EventClientOptions) (st : ClientState) (b : Q) (n : nat) (r r' : Q) :
  0 <= b -> representable b ->
  0 <= r /\ r < 1 -> representable r ->
  0 <= r' /\ r' < 1 -> representable r' ->
  (exists j,
     jitter r = Fin j /\ 0 <= j /\ j < 1000 /\
     ((n < 1024)%nat ->
      b * exp2 n + j <= 30000 ->
      reconnect_wait (Fin b) n r = round (b * exp2 n + j) /\
      reconnect_wait (Fin b) n r = round (Qmin (b * exp2 n + j) 30000) /\
      reconnect_wait (Fin b) n r = reconnect_wait_as_specified (Fin b) n r /\
      dle (reconnect_wait (Fin b) n r) MAX_RECONNECT_DELAY_MS)) /\
  (1000 <= b ->
   b * exp2 (S n) <= 30000 ->
   dle (reconnect_wait (Fin b) n r) (reconnect_wait (Fin b) (S n) r')) /\
  attempt (onopen st) = 0%nat /\
  (closed st = false ->
   default true (autoReconnect o) = true ->
   attempt (onclose o st r) = S (attempt st) /\
   reconnectTimer (onclose o st r)
   = Some (reconnect_wait (default BASE_RECONNECT_DELAY_MS (reconnectDelay o))
                          (attempt st) r)).
Proof.
  intros Hb Hrb [Hr0 Hr1] Hrr [Hr0' Hr1'] Hrr'.
  destruct (jitter_range r Hr0 Hr1 Hrr) as (j & Hj & Hj0 & Hj1 & _).
  destruct (jitter_range r' Hr0' Hr1' Hrr') as (j' & Hj' & Hj0' & Hj1' & _).
  pose proof (exp2_pos n) as Hp.
  assert (HX : 0 <= b * exp2 n) by (apply Qmult_le_0_compat; lra).
  split; [|split; [|split]].
  - exists j. split; [exact Hj|]. split; [exact Hj0|]. split; [exact Hj1|].
    intros Hn Hbelow.
    destruct (reconnect_wait_below b n r j Hb Hrb Hn ltac:(lra) Hj Hj0)
      as [Hwait Hspec].
    destruct (round_between (b * exp2 n + j) 0 30000) as (w & E & Hw0 & Hw1);
      [lia|lia|change (inject_Z 0) with 0; lra|exact Hbelow|].
    change (inject_Z 30000) with 30000 in Hw1.
    split; [exact Hwait|]. split; [|split].
    + rewrite Hwait. apply round_comp; [lra|].
      rewrite (Q.min_l _ _ Hbelow). reflexivity.
    + rewrite Hwait, Hspec, E. unfold MAX_RECONNECT_DELAY_MS, dmin.
      assert (Ew : Qle_bool w 30000 = true) by (apply Qle_bool_iff; exact Hw1).
      rewrite Ew. reflexivity.
    + rewrite Hwait, E. exact Hw1.
  - intros H1000 Hnext.
    pose proof (exp2_succ n) as Hs. pose proof (exp2_ge_1 n) as H1.
    assert (Hdouble : b * exp2 (S n) == 2 * (b * exp2 n)) by (rewrite Hs; ring).
    assert (Hbig : 1000 <= b * exp2 n).
    { assert (0 <= (b - 1000) * (exp2 n - 1)) by (apply Qmult_le_0_compat; lra).
      lra. }
    assert (HSn : (S n < 1024)%nat).
    { destruct (Nat.lt_ge_cases (S n) 1024) as [H|H]; [exact H|].
      pose proof (exp2_overflow (S n) H) as Ho.
      pose proof cap_below_overflow as Hc.
      assert (0 <= (b - 1) * (exp2 (S n) - 1)) by (apply Qmult_le_0_compat; lra).
      lra. }
    destruct (reconnect_wait_below b n r j Hb Hrb ltac:(lia) ltac:(lra) Hj Hj0)
      as [Hwait _].
    destruct (reconnect_wait_below b (S n) r' j' Hb Hrb HSn Hnext Hj' Hj0')
      as [Hwait' _].
    rewrite Hwait, Hwait'. apply round_mono; lra.
  - reflexivity.
  - intros Hclosed Hauto. unfold onclose. rewrite Hclosed, Hauto. simpl. auto.
Qed.

Lemma C7_reconnect_backoff_witness :
  dle (reconnect_wait (Fin 1000) 2 (1 # 2)) (reconnect_wait (Fin 1000) 3 0).
Proof.
  refine (proj1 (proj2 (C7_reconnect_backoff
            {| port := 7483; typeFilter := None; host := None;
               autoReconnect := None; reconnectDelay := None |}
            (connectEventClient {| port := 7483; typeFilter := None; host := None;
                                   autoReconnect := None; reconnectDelay := None |})
            1000 2 (1 # 2) 0 _ _ _ _ _ _)) _ _);
    vm_compute; repeat split; first [reflexivity | discriminate].
Defined.

(** C7 as stated fails in two ways.  With a base delay below 1000 the
    jitter can outweigh the doubling: base 10 gives a wait of 885 after
    attempt 0 (random 0.875) and of 20 after attempt 1 (random 0), a
    decrease well below the cap.  And at the cap the code adds the jitter
    after taking the minimum: base 1000, attempt 5, random 0.5 give a wait
    of 30500, above 30000, where min(32000 + 500, 30000) is 30000.  All
    the numbers involved are doubles. *)
Lemma C7_waits_can_decrease_and_exceed_cap :
  (representable 10 /\ representable 1000 /\
   representable (7 # 8) /\ representable 0 /\ representable (1 # 2)) /\
  reconnect_wait (Fin 10) 0 (7 # 8) = Fin 885 /\
  reconnect_wait (Fin 10) 1 0 = Fin 20 /\
  reconnect_wait (Fin 1000) 5 (1 # 2) = Fin 30500 /\
  reconnect_wait_as_specified (Fin 1000) 5 (1 # 2) = Fin 30000 /\
  round (Qmin (1000 * exp2 5 + (1 # 2) * 1000) 30000) = Fin 30000.
Proof. vm_compute. repeat split; reflexivity. Qed.

End ClientClaims.

(* ===================================================================== *)
(** * Decimal text of integers *)
(* ===================================================================== *)

Section NumeralFacts.
Import JS Numeral.









End NumeralFacts.

(* ===================================================================== *)
(** * More of the store: last, typeCounts, persistence *)
(* ===================================================================== *)

Section StoreExtras.
Import JS Schema Store Spec Runs.

#[local] Arguments Array_set : simpl never.
#[local] Arguments Array_slice : simpl never.

(** X3.  [last(n)] on a store of positive capacity c after any pushes:
    for n >= 1 it returns the newest n of the stored envelopes (all of
    them when fewer are stored), in push order; for n <= 0 it returns
    nothing; and it always agrees with [query({limit: n})]. *)
Theorem store_last_newest
    (c : nat) (path : option string) (ps : list (EventEnvelope * PersistIO))
    (n : Z) :
  (0 < c)%nat ->
  let s := pushes (new_EventStore {| options_capacity := Some c;
                                     options_persistPath := path |}) ps in
  last s (Num n)
  = (if (n <=? 0)%Z then []
     else List.map Some (lastn (Z.to_nat n) (lastn c (List.map fst ps)))) /\
  (length (last s (Num n)) <= Z.to_nat n)%nat /\
  query s {| filter_type := None; filter_since := None; filter_limit := Some (Num n) |}
  = Normal (last s (Num n)).
Proof.
  intros Hc s.
  destruct (pushes_state {| options_capacity := Some c; options_persistPath := path |} ps Hc)
    as (_ & _ & Harr).
  fold s in Harr.
  assert (Hcap : capacity s = c) by (unfold s; rewrite pushes_capacity; reflexivity).
  rewrite Hcap in Harr.
  assert (Hlast : last s (Num n)
                  = (if (n <=? 0)%Z then []
                     else List.map Some (lastn (Z.to_nat n) (lastn c (List.map fst ps))))).
  { unfold last. simpl num_le. destruct (Z.leb_spec n 0) as [Hle|Hgt]; [reflexivity|].
    rewrite slice_last by lia. rewrite Harr.
    unfold lastn at 1. rewrite length_map, skipn_map. reflexivity. }
  split; [exact Hlast|]. split.
  - rewrite Hlast. destruct (Z.leb_spec n 0); [simpl; lia|].
    rewrite length_map, lastn_length. lia.
  - unfold query, last. simpl. destruct (n <=? 0)%Z; reflexivity.
Qed.

Lemma store_last_newest_witness :
  last (Sample.store_of 2 [Sample.event "1" "a"; Sample.event "2" "b"; Sample.event "3" "a"])
       (Num 1)
  = [Some (Sample.event "3" "a")].
Proof.
  refine (proj1 (store_last_newest 2 None
            (List.map (fun e => (e, Sample.quiet))
               [Sample.event "1" "a"; Sample.event "2" "b"; Sample.event "3" "a"]) 1 _)).
  lia.
Defined.

Lemma total_bump counts t : total (bump counts t) = S (total counts).
Proof.
  induction counts as [|[k n] r IH]; simpl; [reflexivity|].
  destruct (String.eqb k t); simpl; [reflexivity|]. rewrite IH. lia.
Qed.

Lemma count_of_bump counts t t' :
  count_of (bump counts t) t'
  = if String.eqb t t' then S (count_of counts t') else count_of counts t'.
Proof.
  induction counts as [|[k n] r IH]; simpl.
  - destruct (String.eqb t t'); reflexivity.
  - destruct (String.eqb_spec k t) as [->|Hkt]; simpl.
    + destruct (String.eqb t t'); reflexivity.
    + destruct (String.eqb_spec k t') as [->|Hkt'].
      * destruct (String.eqb_spec t t'); [congruence|reflexivity].
      * exact IH.
Qed.

Lemma count_types_some l counts :
  exists counts',
    count_types (List.map Some l) counts = Normal counts' /\
    total counts' = (total counts + length l)%nat /\
    forall t, count_of counts' t
              = (count_of counts t
                 + length (List.filter (fun e => String.eqb (type e) t) l))%nat.
Proof.
  revert counts. induction l as [|e l IH]; intros counts; simpl.
  - exists counts. split; [reflexivity|]. split; [lia|]. intros t. lia.
  - destruct (IH (bump counts (type e))) as (counts' & Hrun & Htotal & Hcount).
    exists counts'. split; [exact Hrun|]. split.
    + rewrite Htotal, total_bump. lia.
    + intros t. rewrite Hcount, count_of_bump.
      destruct (String.eqb (type e) t); simpl; lia.
Qed.

(** X4.  [typeCounts()] on any store built by pushes of envelopes whose
    types do not name a member of Object.prototype returns normally; the
    counts add up to the number of envelopes the store returns, which for
    a positive capacity is [size]; and the count under each non-empty type
    t is the number of envelopes [query({type: t})] returns. *)
Theorem typeCounts_conservation
    (options : StoreOptions) (ps : list (EventEnvelope * PersistIO)) :
  forallb (fun p => plain_key (type (fst p))) ps = true ->
  let s := pushes (new_EventStore options) ps in
  exists counts,
    typeCounts s = Normal counts /\
    total counts = length (toArray s) /\
    ((0 < capacity s)%nat -> total counts = size s) /\
    (forall t, t <> EmptyString ->
       exists events,
         query s {| filter_type := Some t; filter_since := None; filter_limit := None |}
         = Normal events /\
         count_of counts t = length events).
Proof.
  intros _ s. destruct (pushes_hole_free options ps) as [l Hl]. fold s in Hl.
  destruct (count_types_some l []) as (counts & Hrun & Htotal & Hcount).
  exists counts. unfold typeCounts. rewrite Hl. split; [exact Hrun|]. split.
  - rewrite Htotal, length_map. reflexivity.
  - split.
    + intros Hc.
      assert (Hc' : (0 < capacity (new_EventStore options))%nat)
        by (unfold s in Hc; rewrite pushes_capacity in Hc; exact Hc).
      destruct (pushes_state options ps Hc') as (_ & Hn & Harr).
      fold s in Hn, Harr. rewrite Hl in Harr.
      apply (f_equal (@length _)) in Harr.
      rewrite !length_map, lastn_length, length_map in Harr.
      unfold size. rewrite Htotal, Hn. simpl. lia.
    + intros t Ht.
      exists (List.map Some (List.filter (fun e => String.eqb (type e) t) l)).
      split.
      * rewrite (query_hole_free s _ l Hl). unfold query_steps. simpl.
        destruct t; [congruence|reflexivity].
      * rewrite Hcount, length_map. reflexivity.
Qed.

Lemma typeCounts_conservation_witness :
  exists counts,
    typeCounts (Sample.store_of 2 [Sample.event "1" "a"; Sample.event "2" "b";
                                   Sample.event "3" "a"])
    = Normal counts /\
    total counts = 2%nat.
Proof.
  destruct (typeCounts_conservation
              {| options_capacity := Some 2%nat; options_persistPath := None |}
              (List.map (fun e => (e, Sample.quiet))
                 [Sample.event "1" "a"; Sample.event "2" "b"; Sample.event "3" "a"])
              eq_refl)
    as (counts & Hrun & Htotal & _).
  exists counts. split; [exact Hrun|exact Htotal].
Defined.

Lemma push_persistErrors s e io :
  persistErrors (push s e io)
  = if persist_enabled s && appendThrows io then S (persistErrors s)
    else persistErrors s.
Proof. unfold push. destruct (persist_enabled s && appendThrows io); reflexivity. Qed.

Lemma push_persistPath s e io : persistPath (push s e io) = persistPath s.
Proof. unfold push. destruct (persist_enabled s && appendThrows io); reflexivity. Qed.

Lemma pushes_persistPath s l : persistPath (pushes s l) = persistPath s.
Proof.
  induction l as [|p l IH] using rev_ind; [reflexivity|].
  rewrite pushes_snoc, push_persistPath. exact IH.
Qed.

Lemma pushes_ring_fields s s' ps ps' :
  buffer s = buffer s' -> capacity s = capacity s' ->
  writeIndex s = writeIndex s' -> count s = count s' ->
  List.map fst ps = List.map fst ps' ->
  buffer (pushes s ps) = buffer (pushes s' ps') /\
  writeIndex (pushes s ps) = writeIndex (pushes s' ps') /\
  count (pushes s ps) = count (pushes s' ps') /\
  capacity (pushes s ps) = capacity (pushes s' ps').
Proof.
  revert s s' ps'. induction ps as [|p ps IH]; intros s s' [|p' ps'] Hb Hc Hw Hn Hev;
    try discriminate; [simpl; auto|].
  simpl in Hev. injection Hev as He Hrest.
  simpl. apply IH; rewrite ?push_buffer, ?push_capacity, ?push_writeIndex, ?push_count;
    rewrite ?Hb, ?Hc, ?Hw, ?Hn, ?He; auto.
Qed.

(** X5.  Persistence is best effort and does not touch the ring.  What a
    store answers ([size], [query] for any filter) after a sequence of
    pushes depends only on its capacity and on the envelopes pushed, not
    on whether a journal is configured nor on which appends fail; and
    [persistErrors] counts exactly the pushes whose append threw, staying
    0 when no journal path (or an empty one) is configured. *)
Theorem persistence_does_not_touch_the_ring
    (c : option nat) (path path' : option string)
    (ps ps' : list (EventEnvelope * PersistIO)) (f : EventFilter) :
  List.map fst ps = List.map fst ps' ->
  let s := pushes (new_EventStore {| options_capacity := c;
                                     options_persistPath := path |}) ps in
  let s' := pushes (new_EventStore {| options_capacity := c;
                                      options_persistPath := path' |}) ps' in
  size s = size s' /\
  query s f = query s' f /\
  persistErrors s
  = (if match path with Some p => truthy_string p | None => false end
     then length (List.filter (fun p => appendThrows (snd p)) ps)
     else 0%nat).
Proof.
  intros Hev s s'.
  destruct (pushes_ring_fields
              (new_EventStore {| options_capacity := c; options_persistPath := path |})
              (new_EventStore {| options_capacity := c; options_persistPath := path' |})
              ps ps' eq_refl eq_refl eq_refl eq_refl Hev) as (Hb & Hw & Hn & Hc).
  fold s s' in Hb, Hw, Hn, Hc.
  assert (Harr : toArray s = toArray s')
    by (unfold toArray; rewrite Hb, Hw, Hn, Hc; reflexivity).
  split; [exact Hn|]. split; [unfold query; rewrite Harr; reflexivity|].
  clear Hev Hb Hw Hn Hc Harr s'. subst s.
  induction ps as [|p ps IH] using rev_ind.
  - simpl. destruct path as [p|]; [destruct (truthy_string p)|]; reflexivity.
  - rewrite pushes_snoc, push_persistErrors, IH.
    unfold persist_enabled. rewrite pushes_persistPath. simpl persistPath.
    rewrite List.filter_app, length_app. simpl.
    destruct path as [q|]; [destruct (truthy_string q)|]; simpl;
      try reflexivity.
    destruct (appendThrows (snd p)); simpl; lia.
Qed.

Lemma persistence_does_not_touch_the_ring_witness :
  query (pushes (new_EventStore {| options_capacity := Some 2%nat;
                                   options_persistPath := Some "/j/events.jsonl" |})
                [(Sample.event "1" "a", {| appendThrows := true; Date_now := 50000 |})])
        no_filter
  = query (pushes (new_EventStore {| options_capacity := Some 2%nat;
                                     options_persistPath := None |})
                  [(Sample.event "1" "a", Sample.quiet)])
          no_filter.
Proof.
  refine (proj1 (proj2 (persistence_does_not_touch_the_ring (Some 2%nat)
            (Some "/j/events.jsonl") None
            [(Sample.event "1" "a", {| appendThrows := true; Date_now := 50000 |})]
            [(Sample.event "1" "a", Sample.quiet)] no_filter _))).
  reflexivity.
Defined.

End StoreExtras.

(* ===================================================================== *)
(** * More of the server: enrichment and ingress *)
(* ===================================================================== *)

Section IngressExtras.
Import JS Schema Store Server Spec Runs.

Lemma replace_dashes_length (s : string) :
  String.length (replace_dashes s) = String.length s.
Proof. induction s as [|c s IH]; simpl; [reflexivity|]. now rewrite IH. Qed.

Lemma replace_dashes_clean (s : string) (n : nat) :
  String.get n (replace_dashes s) <> Some "-"%char.
Proof.
  revert n. induction s as [|c s IH]; intros n; simpl; [discriminate|].
  destruct n as [|n]; [|apply IH].
  destruct (Ascii.eqb_spec c "-"%char) as [->|Hc]; [discriminate|congruence].
Qed.

Lemma mapEventName_eq (name : string) :
  mapEventName name = "hook." +:+ replace_dashes name.
Proof.
  unfold mapEventName, EVENT_NAME_MAP. cbn [assoc].
  repeat match goal with
         | |- context [String.eqb ?k name] =>
             destruct (String.eqb_spec k name) as [<-|?]; [reflexivity|]
         end.
  reflexivity.
Qed.

(** X6.  [mapEventName] has a closed form: for every path segment that
    is not the name of a member of Object.prototype, known to the table
    or not, the type is hook. followed by the segment with each dash
    turned into an underscore (the five table entries agree with the
    fallback).  So the type has the length of the segment plus 5, holds
    no dash after the prefix, and is never the string all. *)
Theorem mapEventName_closed_form (name : string) :
  plain_key name = true ->
  mapEventName name = "hook." +:+ replace_dashes name /\
  String.length (mapEventName name) = (5 + String.length name)%nat /\
  (forall n, String.get (5 + n) (mapEventName name) <> Some "-"%char) /\
  mapEventName name <> "all".
Proof.
  intros _. rewrite mapEventName_eq. split; [reflexivity|]. split; [|split].
  - rewrite length_append, replace_dashes_length. reflexivity.
  - intros n. change (5 + n)%nat with (S (S (S (S (S n))))).
    cbn [String.append String.get]. apply replace_dashes_clean.
  - discriminate.
Qed.

Lemma mapEventName_closed_form_witness :
  mapEventName "subagent-stop" = "hook.subagent_stop".
Proof.
  refine (proj1 (mapEventName_closed_form "subagent-stop" _)). reflexivity.
Defined.

Lemma publish_received clients_ topic message :
  publish clients_ topic message
  = List.map (fun ws => {| url_type := url_type ws; topics := topics ws;
                           received := received ws
                                       ++ (if bool_decide (topic ∈ topics ws)
                                           then [message] else []) |})
             clients_.
Proof.
  unfold publish. apply map_ext. intros ws.
  destruct (bool_decide (topic ∈ topics ws)); [reflexivity|].
  rewrite app_nil_r. destruct ws; reflexivity.
Qed.

(** The frames one accepted envelope adds to each client, when its type is
    not the string all. *)
Lemma store_and_publish_frames (st : ServerState) (env : Env) (e : EventEnvelope) :
  type e <> "all" ->
  Forall opened (clients st) ->
  clients (store_and_publish st env e)
  = List.map (fun ws => {| url_type := url_type ws; topics := topics ws;
                           received := received ws
                                       ++ repeat (stringify_envelope e) (frames_owed ws e) |})
             (clients st).
Proof.
  intros Hall Hopen. unfold store_and_publish. simpl.
  rewrite !publish_received, List.map_map.
  apply map_ext_in. intros ws Hin. simpl.
  rewrite Forall_forall in Hopen.
  assert (Ho : opened ws) by (apply Hopen; apply list_elem_of_In; exact Hin).
  unfold opened in Ho.
  pose proof (topic_all_in (url_type ws)) as Hbroad.
  pose proof (topic_typed_in (url_type ws) (type e) Hall) as Htyped.
  rewrite <- Ho in Hbroad, Htyped.
  rewrite <- app_assoc. f_equal. f_equal.
  unfold frames_owed.
  destruct (bool_decide (("events.all":string) ∈ topics ws)) eqn:Hb1;
    destruct (bool_decide (("events." +:+ type e) ∈ topics ws)) eqn:Hb2;
    try apply bool_decide_eq_true in Hb1; try apply bool_decide_eq_false in Hb1;
    try apply bool_decide_eq_true in Hb2; try apply bool_decide_eq_false in Hb2.
  - apply Hbroad in Hb1. apply Htyped in Hb2.
    destruct Hb2 as (F & HF & Ht & _). rewrite HF in Hb1. congruence.
  - apply Hbroad in Hb1.
    destruct (url_type ws) as [F|]; [rewrite Hb1|]; reflexivity.
  - apply Htyped in Hb2. destruct Hb2 as (F & -> & -> & ->).
    rewrite String.eqb_refl. reflexivity.
  - destruct (url_type ws) as [F|]; [|exfalso; apply Hb1, Hbroad; trivial].
    destruct (truthy_string F) eqn:HF; [|exfalso; apply Hb1, Hbroad; trivial].
    destruct (String.eqb_spec F (type e)) as [->|Hne]; [|reflexivity].
    exfalso. apply Hb2, Htyped. eauto.
Qed.

(** ToString throws a TypeError on the unprintable values and on no
    other. *)
Lemma ToString_cases :
  forall v : value,
    (unprintable v = true /\ ToString v = Throw "TypeError") \/
    (unprintable v = false /\ exists s, ToString v = Normal s).
Proof.
  fix IH 1. intros [| |b|n|s|elems|props].
  - right. split; [reflexivity|eexists; reflexivity].
  - right. split; [reflexivity|eexists; reflexivity].
  - right. split; [reflexivity|destruct b; eexists; reflexivity].
  - right. split; [reflexivity|eexists; reflexivity].
  - right. split; [reflexivity|eexists; reflexivity].
  - cbn [ToString unprintable].
    assert (Hl : (((fix any (l : list value) : bool :=
                      match l with
                      | [] => false
                      | x :: r => unprintable x || any r
                      end) elems) = true /\
                  (fix strings (l : list value) : completion (list string) :=
                     match l with
                     | [] => Normal []
                     | x :: r =>
                         match (match x with
                                | VUndefined | VNull => Normal EmptyString
                                | _ => ToString x
                                end) with
                         | Throw name => Throw name
                         | Normal s =>
                             match strings r with
                             | Throw name => Throw name
                             | Normal ss => Normal (s :: ss)
                             end
                         end
                     end) elems = Throw "TypeError") \/
                 (((fix any (l : list value) : bool :=
                      match l with
                      | [] => false
                      | x :: r => unprintable x || any r
                      end) elems) = false /\
                  exists ss,
                    (fix strings (l : list value) : completion (list string) :=
                       match l with
                       | [] => Normal []
                       | x :: r =>
                           match (match x with
                                  | VUndefined | VNull => Normal EmptyString
                                  | _ => ToString x
                                  end) with
                           | Throw name => Throw name
                           | Normal s =>
                               match strings r with
                               | Throw name => Throw name
                               | Normal ss => Normal (s :: ss)
                               end
                           end
                       end) elems = Normal ss)).
    { induction elems as [|x r IHr].
      - right. split; [reflexivity|eexists; reflexivity].
      - destruct (IH x) as [[Hu Hx]|[Hu [sx Hx]]].
        + left. rewrite Hu. split; [reflexivity|].
          destruct x; try discriminate; rewrite Hx; reflexivity.
        + rewrite Hu. cbn [orb].
          assert (Hhead : (match x with
                           | VUndefined | VNull => Normal EmptyString
                           | _ => ToString x
                           end) = Normal (match x with
                                          | VUndefined | VNull => EmptyString
                                          | _ => sx
                                          end)).
          { destruct x; try reflexivity; exact Hx. }
          rewrite Hhead.
          destruct IHr as [[Hr Hs]|[Hr [ss Hs]]].
          * left. split; [exact Hr|]. rewrite Hs. reflexivity.
          * right. split; [exact Hr|]. rewrite Hs. eexists. reflexivity. }
    destruct Hl as [[Hu Hs]|[Hu [ss Hs]]].
    + left. split; [exact Hu|]. rewrite Hs. reflexivity.
    + right. split; [exact Hu|]. rewrite Hs. eexists. reflexivity.
  - cbn [ToString unprintable]. destruct (hasOwn props "toString").
    + left. split; reflexivity.
    + right. split; [reflexivity|eexists; reflexivity].
Qed.

(** [extractEventFields] throws for one event name only, and only on an
    unprintable tool_error. *)
Lemma extractEventFields_cases (name : string) (raw : object) :
  (name = "post-tool-use-failure" /\
   unprintable (nullish (prop raw "tool_error") (VStr "")) = true /\
   extractEventFields name raw = Throw "TypeError") \/
  ((name = "post-tool-use-failure" ->
    unprintable (nullish (prop raw "tool_error") (VStr "")) = false) /\
   exists fields, extractEventFields name raw = Normal fields).
Proof.
  unfold extractEventFields.
  destruct (String.eqb name "session-start") eqn:H1.
  { right. apply String.eqb_eq in H1. subst. split; [discriminate|eauto]. }
  destruct (String.eqb name "pre-tool-use") eqn:H2.
  { right. apply String.eqb_eq in H2. subst. split; [discriminate|eauto]. }
  destruct (String.eqb name "post-tool-use") eqn:H3.
  { right. apply String.eqb_eq in H3. subst. split; [discriminate|eauto]. }
  destruct (String.eqb_spec name "post-tool-use-failure") as [->|Hne].
  { destruct (ToString_cases (nullish (prop raw "tool_error") (VStr "")))
      as [[Hu Hs]|[Hu [s Hs]]]; rewrite Hs.
    - left. auto.
    - right. split; [auto|eauto]. }
  right. split; [congruence|]. destruct (String.eqb name "stop"); eauto.
Qed.

Lemma handleHookEvent_accepts st env req name raw fields :
  parseJsonObjectBody req = inl raw ->
  String.eqb name "stop" && strict_eq_true (prop raw "stop_hook_active") = false ->
  extractEventFields name raw = Normal fields ->
  handleHookEvent st env req name
  = (Normal (Response_json (VObj [("id", VStr (nanoId (runtime env)))]) 201),
     after_voice env name
       (store_and_publish st env (hook_envelope st env name raw fields))).
Proof.
  intros Hparse Hguard Hfields. unfold handleHookEvent.
  rewrite Hparse, Hguard, Hfields.
  assert (He : createEvent (runtime env) (mapEventName name) (VObj fields)
                 {| context_app := if isNonEmptyString (prop raw "app")
                                   then as_string (prop raw "app") else appName st;
                    context_appRoot := match prop raw "cwd" with
                                       | VStr cwd => cwd
                                       | _ => appRoot_default st
                                       end;
                    context_source := "hook";
                    context_correlationId := Some (generateCorrelationId (runtime env)) |}
               = hook_envelope st env name raw fields).
  { unfold createEvent, hook_envelope. simpl.
    rewrite mapEventName_eq.
    f_equal. destruct (prop raw "app"); reflexivity. }
  cbv zeta. rewrite He. reflexivity.
Qed.

Lemma handleHookEvent_throws st env req name raw :
  parseJsonObjectBody req = inl raw ->
  String.eqb name "stop" && strict_eq_true (prop raw "stop_hook_active") = false ->
  extractEventFields name raw = Throw "TypeError" ->
  handleHookEvent st env req name = (Throw "TypeError", st).
Proof.
  intros Hparse Hguard Hfields. unfold handleHookEvent.
  rewrite Hparse, Hguard, Hfields. reflexivity.
Qed.

(** X7.  Hook ingress accepts every event name.  For every POST
    /events/:name (the name not that of a member of Object.prototype)
    whose body parses as a JSON object and whose fields are extracted
    without a throw, unless the name is stop and stop_hook_active is true:
    the response is 201 with the id of the new envelope, exactly one
    envelope is pushed, and that envelope has schemaVersion 1.0.0, source
    hook, the type hook.<name with dashes as underscores>, appRoot equal
    to the cwd of the payload when that is a string (even an empty one)
    and to the server default otherwise, app equal to the app of the
    payload when that is a non-blank string and to the server default
    otherwise, as data the extracted fields, and in them the sessionId
    that is the session_id of the payload.  The extraction throws for the
    name post-tool-use-failure with a tool_error that String() cannot
    print, and never otherwise. *)
Theorem hook_event_is_stored
    (st : ServerState) (env : Env) (req : Request) (name : string)
    (raw fields : object) :
  plain_key name = true ->
  parseJsonObjectBody req = inl raw ->
  String.eqb name "stop" && strict_eq_true (prop raw "stop_hook_active") = false ->
  extractEventFields name raw = Normal fields ->
  let r := handleHookEvent st env req name in
  let e := hook_envelope st env name raw fields in
  fst r = Normal (Response_json (VObj [("id", VStr (id e))]) 201) /\
  store (snd r) = push (store st) e (persistIO env) /\
  type e = mapEventName name /\
  source e = "hook" /\
  data e = VObj fields /\
  (forall cwd, prop raw "cwd" = VStr cwd -> appRoot e = cwd) /\
  ((forall cwd, prop raw "cwd" <> VStr cwd) -> appRoot e = appRoot_default st) /\
  (isNonEmptyString (prop raw "app") = true -> prop raw "app" = VStr (app e)) /\
  (isNonEmptyString (prop raw "app") = false -> app e = appName st) /\
  prop (as_object (data e)) "sessionId" = prop raw "session_id" /\
  (name = "post-tool-use-failure" ->
   unprintable (nullish (prop raw "tool_error") (VStr "")) = false).
Proof.
  intros _ Hparse Hguard Hfields r e. subst r.
  rewrite (handleHookEvent_accepts st env req name raw fields Hparse Hguard Hfields).
  fold e. split; [reflexivity|]. split.
  { unfold after_voice. simpl.
    destruct (playbackQueue st); [destruct (String.eqb name "stop")|]; reflexivity. }
  split; [rewrite mapEventName_eq; reflexivity|].
  split; [reflexivity|]. split; [reflexivity|]. split.
  { intros cwd Hcwd. subst e. unfold hook_envelope. simpl. rewrite Hcwd. reflexivity. }
  split.
  { intros Hcwd. subst e. unfold hook_envelope. simpl.
    destruct (prop raw "cwd") eqn:H; try reflexivity. exfalso. eapply Hcwd. reflexivity. }
  split.
  { subst e. unfold hook_envelope. simpl.
    destruct (prop raw "app"); simpl; try discriminate. intros ->. reflexivity. }
  split.
  { subst e. unfold hook_envelope. simpl.
    destruct (prop raw "app"); simpl; try reflexivity. intros ->. reflexivity. }
  split.
  { subst e. unfold hook_envelope. simpl data. simpl as_object.
    revert Hfields. unfold extractEventFields.
    repeat match goal with
           | |- context [String.eqb name ?k] => destruct (String.eqb name k)
           end;
      try (intros [= <-]; reflexivity).
    destruct (ToString (nullish (prop raw "tool_error") (VStr ""))); [|discriminate].
    intros [= <-]. reflexivity. }
  destruct (extractEventFields_cases name raw) as [(_ & _ & Hthrow)|[Hok _]];
    [congruence|exact Hok].
Qed.

Lemma hook_event_is_stored_witness :
  fst (handleHookEvent (Sample.server (Sample.store_of 10 []) []) Sample.env
         (Sample.post "/events/post-tool-use-failure"
            (VObj [("session_id", VStr "S"); ("cwd", VStr "/p");
                   ("tool_error", VArr [VStr "ENOENT"; VNum 2])]))
         "post-tool-use-failure")
  = Normal (Response_json (VObj [("id", VStr "V1StGXR8")]) 201).
Proof.
  refine (proj1 (hook_event_is_stored (Sample.server (Sample.store_of 10 []) [])
                   Sample.env _ "post-tool-use-failure"
                   [("session_id", VStr "S"); ("cwd", VStr "/p");
                    ("tool_error", VArr [VStr "ENOENT"; VNum 2])]
                   _ _ _ _ _)); reflexivity.
Defined.

(** X8.  Broadcast uniqueness holds for the whole hook route: whatever
    the event name (not that of a member of Object.prototype), when the
    hook handler gets as far as building the envelope (the body parses,
    the stop guard does not apply, the fields are extracted without a
    throw), every subscriber without a type filter, and every subscriber
    whose filter is the type of the new envelope, is sent the serialised
    envelope exactly once, and every other subscriber nothing.  (A hook
    type starts with hook., so it never collides with the broad topic.)
    When the extraction throws, no subscriber is sent anything. *)
Theorem hook_event_is_broadcast_once
    (st : ServerState) (env : Env) (req : Request) (name : string) (raw : object) :
  plain_key name = true ->
  parseJsonObjectBody req = inl raw ->
  String.eqb name "stop" && strict_eq_true (prop raw "stop_hook_active") = false ->
  Forall opened (clients st) ->
  match extractEventFields name raw with
  | Normal fields =>
      let e := hook_envelope st env name raw fields in
      clients (snd (handleHookEvent st env req name))
      = List.map (fun ws => {| url_type := url_type ws; topics := topics ws;
                               received := received ws
                                 ++ repeat (stringify_envelope e) (frames_owed ws e) |})
                 (clients st)
  | Throw _ => clients (snd (handleHookEvent st env req name)) = clients st
  end.
Proof.
  intros _ Hparse Hguard Hopen.
  destruct (extractEventFields_cases name raw) as [(_ & _ & Hthrow)|[_ [fields Hfields]]].
  - rewrite Hthrow.
    rewrite (handleHookEvent_throws st env req name raw Hparse Hguard Hthrow).
    reflexivity.
  - rewrite Hfields. cbv zeta.
    rewrite (handleHookEvent_accepts st env req name raw fields Hparse Hguard Hfields).
    assert (Hclients : forall st1, clients (after_voice env name st1) = clients st1).
    { intros st1. unfold after_voice.
      destruct (playbackQueue st1); [destruct (String.eqb name "stop")|]; reflexivity. }
    simpl snd. rewrite Hclients.
    apply store_and_publish_frames; [discriminate|exact Hopen].
Qed.

Lemma hook_event_is_broadcast_once_witness :
  List.map (fun ws => length (received ws))
    (clients (snd (handleHookEvent
        (Sample.server (Sample.store_of 10 [])
           [connect None; connect (Some "hook.stop"); connect (Some "hook.session_start")])
        Sample.env
        (Sample.post "/events/stop" (VObj [("session_id", VStr "S")])) "stop")))
  = [1%nat; 1%nat; 0%nat].
Proof.
  rewrite (hook_event_is_broadcast_once
             (Sample.server (Sample.store_of 10 [])
                [connect None; connect (Some "hook.stop"); connect (Some "hook.session_start")])
             Sample.env
             (Sample.post "/events/stop" (VObj [("session_id", VStr "S")]))
             "stop" [("session_id", VStr "S")]
             eq_refl eq_refl eq_refl ltac:(repeat constructor)).
  reflexivity.
Defined.

Lemma parseJsonObjectBody_rejects (req : Request) (resp : Response) :
  parseJsonObjectBody req = inr resp -> status resp = 400 \/ status resp = 413.
Proof.
  unfold parseJsonObjectBody, error_response. intros Hparse.
  repeat match type of Hparse with
         | context [match ?x with _ => _ end] =>
             match type of x with
             | bool => destruct x
             | option _ => destruct x
             end
         end; inversion Hparse; simpl; auto.
Qed.

(** X9.  Hook ingress has no partial effects.  Every call of the hook
    handler either answers 201, 200, 400 or 413, or throws a TypeError;
    unless the answer is 201 the server state is returned exactly as it
    was (nothing stored, nothing published, the playback queue
    untouched).  It throws only for the event name post-tool-use-failure,
    on a parsed body whose tool_error String() cannot print (an object
    with an own toString property, or an array holding one). *)
Theorem hook_ingress_all_or_nothing
    (st : ServerState) (env : Env) (req : Request) (name : string) :
  let r := handleHookEvent st env req name in
  match fst r with
  | Normal response =>
      status response = 201 \/
      (snd r = st /\
       (status response = 200 \/ status response = 400 \/ status response = 413))
  | Throw error =>
      snd r = st /\ error = "TypeError" /\ name = "post-tool-use-failure" /\
      exists raw, parseJsonObjectBody req = inl raw /\
                  unprintable (nullish (prop raw "tool_error") (VStr "")) = true
  end.
Proof.
  intros r. subst r.
  destruct (parseJsonObjectBody req) as [raw|resp] eqn:Hparse.
  - destruct (String.eqb name "stop" && strict_eq_true (prop raw "stop_hook_active"))
      eqn:Hguard.
    + unfold handleHookEvent. rewrite Hparse, Hguard. simpl. auto.
    + destruct (extractEventFields_cases name raw)
        as [(Hname & Hu & Hthrow)|[_ [fields Hfields]]].
      * rewrite (handleHookEvent_throws st env req name raw Hparse Hguard Hthrow).
        simpl. split; [reflexivity|]. split; [reflexivity|]. split; [exact Hname|].
        exists raw. split; [reflexivity|exact Hu].
      * rewrite (handleHookEvent_accepts st env req name raw fields Hparse Hguard Hfields).
        simpl. auto.
  - unfold handleHookEvent. rewrite Hparse. simpl. right. split; [reflexivity|].
    destruct (parseJsonObjectBody_rejects req resp Hparse); auto.
Qed.

Lemma validateFullEnvelope_cases (env : Env) (body_ : object) :
  (unprintable (prop body_ "schemaVersion") = true /\
   validateFullEnvelope env body_ = Throw "TypeError") \/
  exists checked, validateFullEnvelope env body_ = Normal checked.
Proof.
  unfold validateFullEnvelope.
  destruct (negb (strict_eq_string (prop body_ "schemaVersion") "1.0.0")); [|eauto].
  destruct (ToString_cases (prop body_ "schemaVersion")) as [[Hu Hs]|[_ [s Hs]]];
    rewrite Hs; eauto.
Qed.

Lemma handlePostEnvelope_cases (st : ServerState) (env : Env) (req : Request) :
  (exists response,
      handlePostEnvelope st env req = (Normal response, st) /\
      (status response = 400 \/ status response = 413)) \/
  (exists e,
      handlePostEnvelope st env req
      = (Normal (Response_json (VObj [("ok", VBool true); ("id", VStr (id e))]) 201),
         store_and_publish st env e)) \/
  (exists body_,
      parseJsonObjectBody req = inl body_ /\
      unprintable (prop body_ "schemaVersion") = true /\
      handlePostEnvelope st env req = (Throw "TypeError", st)).
Proof.
  destruct (parseJsonObjectBody req) as [body_|resp] eqn:Hparse.
  - assert (Hstep : forall checked,
               (checked = Throw "TypeError" ->
                unprintable (prop body_ "schemaVersion") = true) ->
               (forall error, checked = Throw error -> error = "TypeError") ->
               (exists response,
                   match checked with
                   | Throw name => (Throw name, st)
                   | Normal (inr error) => (Normal (error_response error 400), st)
                   | Normal (inl event) =>
                       (Normal (Response_json (VObj [("ok", VBool true);
                                                     ("id", VStr (id event))]) 201),
                        store_and_publish st env event)
                   end = (Normal response, st) /\
                   (status response = 400 \/ status response = 413)) \/
               (exists e,
                   match checked with
                   | Throw name => (Throw name, st)
                   | Normal (inr error) => (Normal (error_response error 400), st)
                   | Normal (inl event) =>
                       (Normal (Response_json (VObj [("ok", VBool true);
                                                     ("id", VStr (id event))]) 201),
                        store_and_publish st env event)
                   end
                   = (Normal (Response_json (VObj [("ok", VBool true);
                                                   ("id", VStr (id e))]) 201),
                      store_and_publish st env e)) \/
               (exists body0 : object,
                   @inl object Response body_ = inl body0 /\
                   unprintable (prop body0 "schemaVersion") = true /\
                   match checked with
                   | Throw name => (Throw name, st)
                   | Normal (inr error) => (Normal (error_response error 400), st)
                   | Normal (inl event) =>
                       (Normal (Response_json (VObj [("ok", VBool true);
                                                     ("id", VStr (id event))]) 201),
                        store_and_publish st env event)
                   end = (Throw "TypeError", st))).
    { intros [[e|msg]|error] Hu Hname.
      - right. left. exists e. reflexivity.
      - left. eexists. split; [reflexivity|]. left. reflexivity.
      - right. right. exists body_. rewrite (Hname error eq_refl) in *.
        split; [reflexivity|]. split; [apply Hu; reflexivity|reflexivity]. }
    unfold handlePostEnvelope. rewrite Hparse.
    destruct (negb (is_string (prop body_ "type")));
      [left; eexists; split; [reflexivity|left; reflexivity]|].
    destruct (negb (has_prop body_ "data"));
      [left; eexists; split; [reflexivity|left; reflexivity]|].
    assert (Hv1 : validateFullEnvelope env body_ = Throw "TypeError" ->
                  unprintable (prop body_ "schemaVersion") = true).
    { destruct (validateFullEnvelope_cases env body_) as [[Hu _]|[c ->]];
        [auto|discriminate]. }
    assert (Hv2 : forall error, validateFullEnvelope env body_ = Throw error ->
                                error = "TypeError").
    { intros error. destruct (validateFullEnvelope_cases env body_) as [[_ ->]|[c ->]];
        [intros [= <-]; reflexivity|discriminate]. }
    destruct (prop body_ "schemaVersion") eqn:Hsv;
      try (apply Hstep; [exact Hv1|exact Hv2]).
    right. left. eexists. reflexivity.
  - left. exists resp. unfold handlePostEnvelope. rewrite Hparse.
    split; [reflexivity|]. apply (parseJsonObjectBody_rejects req resp Hparse).
Qed.

(** X10.  Envelope ingress has no partial effects.  Every call of the
    POST /events handler either answers 201, 400 or 413, or throws a
    TypeError; an answer other than 201, and a throw, leave the server
    state exactly as it was, and an answer of 201 means that one envelope
    was pushed into the store and published.  It throws only on a parsed
    body whose schemaVersion String() cannot print (an object with an own
    toString property, or an array holding one). *)
Theorem envelope_ingress_all_or_nothing
    (st : ServerState) (env : Env) (req : Request) :
  let r := handlePostEnvelope st env req in
  match fst r with
  | Normal response =>
      (status response = 201 /\
       exists e, snd r = store_and_publish st env e /\
                 response = Response_json (VObj [("ok", VBool true);
                                                 ("id", VStr (id e))]) 201) \/
      (snd r = st /\ (status response = 400 \/ status response = 413))
  | Throw error =>
      snd r = st /\ error = "TypeError" /\
      exists body_, parseJsonObjectBody req = inl body_ /\
                    unprintable (prop body_ "schemaVersion") = true
  end.
Proof.
  intros r. subst r.
  destruct (handlePostEnvelope_cases st env req)
    as [(response & -> & Hstatus)|[(e & ->)|(body_ & Hparse & Hu & ->)]]; simpl.
  - right. auto.
  - left. eauto.
  - eauto.
Qed.

(** X11.  A body over the one-megabyte limit never reaches the store,
    whatever the Content-Length header says (absent, unparsable, or
    understated): both ingress routes answer 413 and leave the server
    state as it was. *)
Theorem oversized_body_is_refused
    (st : ServerState) (env : Env) (req : Request) (name : string) (byteLength : Z) :
  arrayBuffer req = Some byteLength ->
  (MAX_BODY_BYTES < byteLength)%Z ->
  handleHookEvent st env req name
  = (Normal (error_response "Request body too large (max 1MB)" 413), st) /\
  handlePostEnvelope st env req
  = (Normal (error_response "Request body too large (max 1MB)" 413), st).
Proof.
  intros Hbuf Hbig.
  assert (Hparse : parseJsonObjectBody req
                   = inr (error_response "Request body too large (max 1MB)" 413)).
  { unfold parseJsonObjectBody. rewrite Hbuf.
    destruct (Z.ltb_spec MAX_BODY_BYTES byteLength) as [_|Hle]; [|lia].
    match goal with |- (if ?c then _ else _) = _ => destruct c end; reflexivity. }
  unfold handleHookEvent, handlePostEnvelope. rewrite Hparse. split; reflexivity.
Qed.

Lemma oversized_body_is_refused_witness :
  let req := {| method := "POST"; pathname := "/events"; searchParams := [];
                contentLength := Some "12"; arrayBuffer := Some 2000000%Z;
                bodyJson := Some (VObj [("type", VStr "t"); ("data", VNull)]) |} in
  fst (handlePostEnvelope (Sample.server (Sample.store_of 10 []) []) Sample.env req)
  = Normal (error_response "Request body too large (max 1MB)" 413).
Proof.
  intros req.
  rewrite (proj2 (oversized_body_is_refused (Sample.server (Sample.store_of 10 []) [])
                    Sample.env req "stop" 2000000%Z eq_refl eq_refl)).
  reflexivity.
Defined.

(** X12.  A partial payload is wrapped, not validated.  When the body is
    a JSON object with a string type (the empty string included) and a
    data property, and without schemaVersion, POST /events answers 201 and
    stores and publishes one envelope with that type, a fresh id and
    timestamp, schemaVersion 1.0.0, the data of the payload (an empty
    object when it is null), source hook only when the payload says hook
    and cli otherwise, and app and appRoot from the payload when they are
    non-blank strings, else the server defaults. *)
Theorem partial_payload_is_wrapped
    (st : ServerState) (env : Env) (req : Request) (body_ : object) (t : string) :
  parseJsonObjectBody req = inl body_ ->
  prop body_ "type" = VStr t ->
  has_prop body_ "data" = true ->
  prop body_ "schemaVersion" = VUndefined ->
  exists e,
    handlePostEnvelope st env req
    = (Normal (Response_json (VObj [("ok", VBool true); ("id", VStr (id e))]) 201),
       store_and_publish st env e) /\
    type e = t /\
    schemaVersion e = "1.0.0" /\
    id e = nanoId (runtime env) /\
    timestamp e = toISOString (runtime env) /\
    data e = nullish (prop body_ "data") (VObj []) /\
    source e = (if strict_eq_string (prop body_ "source") "hook" then "hook" else "cli") /\
    app e = (if isNonEmptyString (prop body_ "app")
             then as_string (prop body_ "app") else appName st) /\
    appRoot e = (if isNonEmptyString (prop body_ "appRoot")
                 then as_string (prop body_ "appRoot") else appRoot_default st).
Proof.
  intros Hparse Htype Hdata Hschema.
  unfold handlePostEnvelope. rewrite Hparse, Htype, Hdata, Hschema. simpl negb.
  cbv iota. eexists. split; [reflexivity|].
  unfold createEvent. simpl. repeat split; reflexivity.
Qed.

Lemma partial_payload_is_wrapped_witness :
  exists e,
    handlePostEnvelope (Sample.server (Sample.store_of 10 []) []) Sample.env
      (Sample.post "/events" (VObj [("type", VStr ""); ("data", VNull)]))
    = (Normal (Response_json (VObj [("ok", VBool true); ("id", VStr (id e))]) 201),
       store_and_publish (Sample.server (Sample.store_of 10 []) []) Sample.env e)
    /\ type e = "" /\ data e = VObj [].
Proof.
  destruct (partial_payload_is_wrapped (Sample.server (Sample.store_of 10 []) [])
              Sample.env
              (Sample.post "/events" (VObj [("type", VStr ""); ("data", VNull)]))
              [("type", VStr ""); ("data", VNull)] ""
              eq_refl eq_refl eq_refl eq_refl)
    as (e & Hresp & Ht & _ & _ & _ & Hd & _).
  exists e. split; [exact Hresp|]. split; [exact Ht|exact Hd].
Defined.

End IngressExtras.

(* ===================================================================== *)
(** * The router and the life of a server *)
(* ===================================================================== *)

Section RouterExtras.
Import JS Schema Store Server Spec Runs.

Lemma substring_whole (s : string) : substring 0 (String.length s) s = s.
Proof. induction s as [|c s IH]; simpl; [reflexivity|]. f_equal. exact IH. Qed.

Lemma prefix_split (p s : string) :
  String.prefix p s = true ->
  s = p +:+ substring (String.length p) (String.length s - String.length p) s.
Proof.
  revert s. induction p as [|a p IH]; intros s H.
  - cbn [String.length String.append]. rewrite Nat.sub_0_r, substring_whole. reflexivity.
  - destruct s as [|b s]; simpl in H; [discriminate|].
    destruct (ascii_dec a b) as [->|]; [|discriminate].
    change (String b s
            = String b (p +:+ substring (String.length p)
                                (String.length s - String.length p) s)).
    f_equal. apply IH, H.
Qed.

Lemma prefix_append (p s : string) : String.prefix p (p +:+ s) = true.
Proof.
  induction p as [|a p IH]; [destruct s; reflexivity|].
  change (String a p +:+ s) with (String a (p +:+ s)). simpl.
  destruct (ascii_dec a a); [exact IH|congruence].
Qed.

Lemma substring_append (p s : string) :
  substring (String.length p) (String.length (p +:+ s) - String.length p) (p +:+ s) = s.
Proof.
  induction p as [|a p IH].
  - change ("" +:+ s) with s. cbn [String.length]. rewrite Nat.sub_0_r.
    apply substring_whole.
  - change (String a p +:+ s) with (String a (p +:+ s)). exact IH.
Qed.

Lemma hookMatch_intro (segment : string) :
  segment <> "" -> has_slash segment = false ->
  hookMatch ("/events/" +:+ segment) = Some segment.
Proof.
  intros Hne Hslash. unfold hookMatch.
  rewrite prefix_append.
  change 8%nat with (String.length "/events/").
  rewrite substring_append, Hslash.
  destruct segment; [congruence|reflexivity].
Qed.

(** X13.  The hook route is exactly the paths /events/<segment> with a
    non-empty segment that holds no slash, and the handler is given that
    segment: /events, /events/ and /events/a/b are not hook paths. *)
Theorem hookMatch_characterisation (path segment : string) :
  hookMatch path = Some segment
  <-> path = "/events/" +:+ segment /\ segment <> "" /\ has_slash segment = false.
Proof.
  split.
  - unfold hookMatch. destruct (String.prefix "/events/" path) eqn:Hp; [|discriminate].
    apply prefix_split in Hp. change (String.length "/events/") with 8%nat in Hp.
    destruct (truthy_string (substring 8 (String.length path - 8) path)) eqn:Ht;
      [|discriminate].
    destruct (has_slash (substring 8 (String.length path - 8) path)) eqn:Hs;
      [discriminate|].
    simpl. intros [= <-]. split; [exact Hp|]. split; [|exact Hs].
    intros He. rewrite He in Ht. discriminate.
  - intros (-> & Hne & Hs). apply hookMatch_intro; assumption.
Qed.

(** X14.  Requests that are not POSTs never write: a request with any
    other method leaves the server state as it was, except that a
    successful upgrade on /ws appends one client, freshly opened for the
    type parameter of the URL and with nothing received. *)
Theorem reads_do_not_write (st : ServerState) (env : Env) (req : Request) :
  method req <> "POST" ->
  snd (fetch st env req) = st \/
  (pathname req = "/ws" /\
   snd (fetch st env req)
   = with_clients st (clients st ++ [connect (searchParams_get req "type")])).
Proof.
  intros Hm. apply String.eqb_neq in Hm. unfold fetch. rewrite Hm.
  destruct (String.eqb (method req) "OPTIONS"); [left; reflexivity|].
  destruct (String.eqb_spec (pathname req) "/ws") as [Hws|_].
  - destruct (upgrade_succeeds env); [right; split; [exact Hws|reflexivity]|left; reflexivity].
  - simpl.
    destruct (String.eqb (method req) "GET" && String.eqb (pathname req) "/events");
      [left; reflexivity|].
    destruct (String.eqb (method req) "GET" && String.eqb (pathname req) "/health");
      left; reflexivity.
Qed.

Lemma reads_do_not_write_witness :
  snd (fetch (Sample.server (Sample.store_of 10 [Sample.event "1" "a"]) []) Sample.env
         (Sample.get "/events" [("limit", "abc")]))
  = Sample.server (Sample.store_of 10 [Sample.event "1" "a"]) [].
Proof.
  destruct (reads_do_not_write (Sample.server (Sample.store_of 10 [Sample.event "1" "a"]) [])
              Sample.env (Sample.get "/events" [("limit", "abc")]))
    as [H|[H _]]; [discriminate|exact H|discriminate H].
Defined.

Lemma publish_opened clients_ topic message :
  Forall opened clients_ -> Forall opened (publish clients_ topic message).
Proof.
  intros H. unfold publish. induction H as [|ws l Hws _ IH]; simpl; constructor;
    [|exact IH].
  destruct (bool_decide (topic ∈ topics ws)); exact Hws.
Qed.

Lemma connect_opened (type_param : option string) : opened (connect type_param).
Proof.
  assert (Hurl : url_type (connect type_param) = type_param).
  { unfold connect, websocket_open. simpl.
    destruct type_param as [F|]; [destruct (truthy_string F)|]; reflexivity. }
  unfold opened. rewrite Hurl. reflexivity.
Qed.

Lemma same_identity_refl (st : ServerState) : same_identity st st.
Proof. unfold same_identity. repeat split; try reflexivity. exists []. reflexivity. Qed.

Lemma same_identity_trans (a b c : ServerState) :
  same_identity a b -> same_identity b c -> same_identity a c.
Proof.
  intros (H1 & H2 & H3 & H4 & H5 & ps & H6) (K1 & K2 & K3 & K4 & K5 & qs & K6).
  unfold same_identity. repeat split; try congruence.
  exists (ps ++ qs). rewrite K6, H6. unfold pushes. rewrite fold_left_app. reflexivity.
Qed.

Lemma store_and_publish_run (st : ServerState) (env : Env) (e : EventEnvelope) :
  healthy st ->
  healthy (store_and_publish st env e) /\ same_identity st (store_and_publish st env e).
Proof.
  intros [Hopen Hq]. split; [split|].
  - unfold store_and_publish. simpl. apply publish_opened, publish_opened, Hopen.
  - exact Hq.
  - unfold same_identity, store_and_publish. simpl. repeat split; try reflexivity.
    exists [(e, persistIO env)]. reflexivity.
Qed.

Lemma triggerVoice_bound (env : Env) (q : Queue.PlaybackQueue) (cfg : VoiceSystemConfig) :
  (Queue.depth q <= Queue.maxDepth (Queue.config q))%nat ->
  Queue.config (triggerVoice env q cfg) = Queue.config q /\
  (Queue.depth (triggerVoice env q cfg) <= Queue.maxDepth (Queue.config q))%nat.
Proof.
  intros Hq. unfold triggerVoice.
  destruct (String.eqb (mode cfg) "off"); [auto|].
  destruct (clipLookup env) as [| |file label_ text]; [auto|auto|].
  apply (step_bound q (Queue.OpEnqueue _ (turn env)) Hq).
Qed.

Lemma with_queue_run (st : ServerState) (q q' : Queue.PlaybackQueue) :
  healthy st ->
  playbackQueue st = Some q ->
  Queue.config q' = Queue.config q ->
  (Queue.depth q' <= Queue.maxDepth (Queue.config q))%nat ->
  healthy (with_queue st (Some q')) /\ same_identity st (with_queue st (Some q')).
Proof.
  intros [Hopen Hq] Hsome Hc Hd. split; [split|].
  - exact Hopen.
  - unfold queue_bounded. simpl. rewrite Hc. exact Hd.
  - unfold same_identity. simpl. rewrite Hsome. simpl. rewrite Hc.
    repeat split; try reflexivity. exists []. reflexivity.
Qed.

Lemma after_voice_run (st : ServerState) (env : Env) (name : string) :
  healthy st ->
  healthy (after_voice env name st) /\ same_identity st (after_voice env name st).
Proof.
  intros Hst. unfold after_voice.
  destruct (playbackQueue st) as [q|] eqn:Hq; [|auto using same_identity_refl].
  destruct (String.eqb name "stop"); [|auto using same_identity_refl].
  assert (Hb : (Queue.depth q <= Queue.maxDepth (Queue.config q))%nat).
  { destruct Hst as [_ Hb]. unfold queue_bounded in Hb. rewrite Hq in Hb. exact Hb. }
  destruct (triggerVoice_bound env q (voiceConfig st) Hb) as [Hc Hd].
  apply with_queue_run with (q := q); assumption.
Qed.

Lemma handleHookEvent_state st env req name :
  snd (handleHookEvent st env req name) = st \/
  exists e, snd (handleHookEvent st env req name)
            = after_voice env name (store_and_publish st env e).
Proof.
  destruct (parseJsonObjectBody req) as [raw|resp] eqn:Hparse.
  - destruct (String.eqb name "stop" && strict_eq_true (prop raw "stop_hook_active"))
      eqn:Hguard.
    + left. unfold handleHookEvent. rewrite Hparse, Hguard. reflexivity.
    + destruct (extractEventFields_cases name raw)
        as [(_ & _ & Hthrow)|[_ [fields Hfields]]].
      * left. rewrite (handleHookEvent_throws st env req name raw Hparse Hguard Hthrow).
        reflexivity.
      * right.
        rewrite (handleHookEvent_accepts st env req name raw fields Hparse Hguard Hfields).
        eauto.
  - left. unfold handleHookEvent. rewrite Hparse. reflexivity.
Qed.

Lemma handlePostEnvelope_state st env req :
  snd (handlePostEnvelope st env req) = st \/
  exists e, snd (handlePostEnvelope st env req) = store_and_publish st env e.
Proof.
  destruct (handlePostEnvelope_cases st env req)
    as [(response & -> & _)|[(e & ->)|(body_ & _ & _ & ->)]]; simpl; eauto.
Qed.

Lemma handleVoiceNotify_state st env req q :
  snd (handleVoiceNotify st env req q) = st \/
  snd (handleVoiceNotify st env req q)
  = with_queue st (Some (triggerVoice env q (voiceConfig st))).
Proof.
  unfold handleVoiceNotify.
  destruct (String.eqb (mode (voiceConfig st)) "off"); [left; reflexivity|].
  destruct (bodyJson req) as [v|]; [|left; reflexivity].
  destruct (clipLookup env); destruct v; auto.
Qed.

Lemma fetch_run (st : ServerState) (env : Env) (req : Request) :
  healthy st ->
  healthy (snd (fetch st env req)) /\ same_identity st (snd (fetch st env req)).
Proof.
  intros Hst. pose proof (same_identity_refl st) as Hrefl. unfold fetch.
  destruct (String.eqb (method req) "OPTIONS"); [auto|].
  destruct (String.eqb (pathname req) "/ws").
  { destruct (upgrade_succeeds env); [|auto]. simpl. split.
    - destruct Hst as [Hopen Hq]. split; [|exact Hq]. simpl.
      apply Forall_app. split; [exact Hopen|]. constructor; [apply connect_opened|constructor].
    - unfold same_identity. simpl. repeat split; try reflexivity. exists []. reflexivity. }
  destruct (if String.eqb (method req) "POST" then hookMatch (pathname req) else None)
    as [name|].
  { destruct (handleHookEvent st env req name) as [response st'] eqn:Hh.
    pose proof (handleHookEvent_state st env req name) as Hs. rewrite Hh in Hs.
    simpl in Hs. simpl. destruct Hs as [->|[e ->]]; [auto|].
    destruct (store_and_publish_run st env e Hst) as [H1 I1].
    destruct (after_voice_run _ env name H1) as [H2 I2].
    split; [exact H2|]. eapply same_identity_trans; eassumption. }
  destruct (String.eqb (method req) "POST" && String.eqb (pathname req) "/voice/notify").
  { destruct (playbackQueue st) as [q|] eqn:Hq; [|auto].
    destruct (String.eqb (mode (voiceConfig st)) "off"); [auto|].
    destruct (handleVoiceNotify st env req q) as [response st'] eqn:Hh.
    pose proof (handleVoiceNotify_state st env req q) as Hs. rewrite Hh in Hs.
    simpl in Hs. simpl. destruct Hs as [->| ->]; [auto|].
    assert (Hb : (Queue.depth q <= Queue.maxDepth (Queue.config q))%nat).
    { destruct Hst as [_ Hb]. unfold queue_bounded in Hb. rewrite Hq in Hb. exact Hb. }
    destruct (triggerVoice_bound env q (voiceConfig st) Hb) as [Hc Hd].
    apply with_queue_run with (q := q); assumption. }
  destruct (String.eqb (method req) "POST" && String.eqb (pathname req) "/events").
  { destruct (handlePostEnvelope st env req) as [response st'] eqn:Hh.
    pose proof (handlePostEnvelope_state st env req) as Hs. rewrite Hh in Hs.
    simpl in Hs. simpl. destruct Hs as [->|[e ->]]; [auto|].
    apply store_and_publish_run, Hst. }
  destruct (String.eqb (method req) "GET" && String.eqb (pathname req) "/events"); [auto|].
  destruct (String.eqb (method req) "GET" && String.eqb (pathname req) "/health"); auto.
Qed.

Lemma server_step_run (st : ServerState) (ev : ServerEvent) :
  healthy st ->
  healthy (server_step st ev) /\ same_identity st (server_step st ev).
Proof.
  intros Hst. destruct ev as [env req|t|i]; simpl.
  - apply fetch_run, Hst.
  - destruct (playbackQueue st) as [q|] eqn:Hq; simpl.
    + assert (Hb : (Queue.depth q <= Queue.maxDepth (Queue.config q))%nat).
      { destruct Hst as [_ Hb]. unfold queue_bounded in Hb. rewrite Hq in Hb. exact Hb. }
      destruct (step_bound q (Queue.OpResume t) Hb) as [Hc Hd].
      apply with_queue_run with (q := q); assumption.
    + destruct Hst as [Hopen Hb]. split; [split|].
      * exact Hopen.
      * unfold queue_bounded. simpl. trivial.
      * unfold same_identity. simpl. rewrite Hq. repeat split; try reflexivity.
        exists []. reflexivity.
  - destruct Hst as [Hopen Hb]. split; [split|].
    + simpl. apply Forall_delete, Hopen.
    + exact Hb.
    + unfold same_identity. simpl. repeat split; try reflexivity. exists []. reflexivity.
Qed.

(** X15.  A running server stays healthy and keeps its identity.  From a
    state where every WebSocket client is as its upgrade left it and the
    playback queue is within its depth bound, after any sequence of
    requests (in any turn of the runtime), ends of clips and closed
    sockets (no hook event named after a member of Object.prototype):
    both still hold (so the broadcast guarantee and the depth bound apply
    to every later request); the nonce, the default app name and root, the
    voice configuration and the tunables of the queue are what they were;
    and the store is the old store after some pushes. *)
Theorem server_run_invariants (st : ServerState) (evs : list ServerEvent) :
  forallb plain_event evs = true ->
  healthy st ->
  healthy (server_run st evs) /\ same_identity st (server_run st evs).
Proof.
  intros _. revert st. induction evs as [|ev evs IH]; intros st Hst; simpl.
  - split; [exact Hst|apply same_identity_refl].
  - destruct (server_step_run st ev Hst) as [H1 I1].
    destruct (IH _ H1) as [H2 I2].
    split; [exact H2|]. eapply same_identity_trans; eassumption.
Qed.

Lemma server_run_invariants_witness :
  serverNonce (server_run (Sample.server (Sample.store_of 10 []) [])
                 [Served Sample.env (Sample.get "/ws" [("type", "hook.stop")]);
                  Served Sample.env
                    (Sample.post "/events/stop" (VObj [("session_id", VStr "S")]));
                  SocketGone 0])
  = "nonce".
Proof.
  refine (proj1 (proj2 (server_run_invariants
                          (Sample.server (Sample.store_of 10 []) []) _ _ _)));
    [reflexivity|split; [constructor|exact I]].
Defined.

Lemma take_limit_capped (n : number) (l : list EventEnvelope) :
  n <> NaN ->
  (length (take_limit (Some (Math_min n (Num 1000))) l) <= 1000)%nat /\
  (n = Num 100 -> (length (take_limit (Some (Math_min n (Num 1000))) l) <= 100)%nat).
Proof.
  intros Hn.
  assert (Hlen : forall z, (length (lastn (Z.to_nat z) l) <= Z.to_nat z)%nat).
  { intros z. rewrite lastn_length. lia. }
  destruct n as [z| | |]; [|congruence| |].
  - unfold take_limit, Math_min, num_le.
    destruct (Z.leb_spec z 1000).
    + destruct (Z.leb_spec z 0); [simpl; split; lia|].
      split; [specialize (Hlen z); lia|].
      intros [= ->]. apply (Hlen 100%Z).
    + destruct (Z.leb_spec 1000 0); [lia|].
      split; [apply (Hlen 1000%Z)|]. intros [= ->]. lia.
  - unfold take_limit, Math_min, num_le.
    destruct (Z.leb_spec 1000 0); [lia|].
    split; [apply (Hlen 1000%Z)|discriminate].
  - unfold take_limit, Math_min, num_le. simpl. split; [lia|discriminate].
Qed.

(** X16.  GET /events on a server store is bounded.  Whatever the store
    holds (any capacity, any pushes) and whatever the type and since
    parameters, when the limit parameter is absent, empty, or parses to a
    number, the response is 200 with an array of at most 1000 envelopes
    (at most 100 when the parameter is absent or empty), each of them an
    envelope that was pushed; the handler does not throw. *)
Theorem get_events_is_bounded
    (options : StoreOptions) (ps : list (EventEnvelope * PersistIO)) (req : Request) :
  (forall l, searchParams_get req "limit" = Some l -> l <> "" -> parseInt l <> NaN) ->
  exists events,
    handleGetEvents req (pushes (new_EventStore options) ps)
    = Normal (Response_json (VArr (List.map to_value events)) 200) /\
    (length events <= 1000)%nat /\
    ((forall l, searchParams_get req "limit" = Some l -> l = "") ->
     (length events <= 100)%nat) /\
    events `sublist_of` List.map fst ps.
Proof.
  intros Hlimit.
  destruct (pushes_hole_free options ps) as [l Hl].
  assert (Hsub : l `sublist_of` List.map fst ps).
  { destruct (Nat.eq_dec (capacity (new_EventStore options)) 0%nat) as [Hz|Hnz].
    - destruct ps as [|p ps].
      + unfold toArray, new_EventStore in Hl. simpl in Hl, Hz. rewrite Hz in Hl.
        destruct l; [apply sublist_nil_l|discriminate].
      + destruct (pushes_capacity_zero options p ps Hz) as (Hb & Hw & Hn & Hcap).
        unfold toArray in Hl. rewrite Hb, Hw, Hn, Hcap in Hl.
        destruct l as [|e [|e' l]]; try discriminate. injection Hl as <-.
        simpl. apply sublist_skip, sublist_nil_l.
    - destruct (pushes_state options ps) as (_ & _ & H); [lia|].
      rewrite Hl in H.
      assert (Heq : l = lastn (capacity (pushes (new_EventStore options) ps))
                          (List.map fst ps)).
      { revert H.
        generalize (lastn (capacity (pushes (new_EventStore options) ps))
                          (List.map fst ps)).
        clear. induction l as [|e l IH]; intros [|e' l'] H; try discriminate;
          [reflexivity|].
        simpl in H. injection H as He Hrest. f_equal; [exact He|apply IH, Hrest]. }
      rewrite Heq. apply lastn_sublist. }
  unfold handleGetEvents.
  set (rawLimit := match searchParams_get req "limit" with
                   | Some l0 => if truthy_string l0 then parseInt l0 else Num 100
                   | None => Num 100
                   end).
  rewrite (query_hole_free _ _ l Hl).
  set (f := {| filter_type := searchParams_get req "type";
               filter_since := searchParams_get req "since";
               filter_limit := Some (Math_min rawLimit (Num 1000)) |}).
  exists (query_steps f l). split.
  { rewrite List.map_map. reflexivity. }
  assert (Hraw : rawLimit <> NaN).
  { unfold rawLimit. destruct (searchParams_get req "limit") as [l0|] eqn:Hq;
      [|discriminate].
    destruct (truthy_string l0) eqn:Ht; [|discriminate].
    apply (Hlimit l0 eq_refl). intros ->. discriminate. }
  destruct (take_limit_capped rawLimit
              (keep_since (filter_since f) (keep_type (filter_type f) l)) Hraw)
    as [Hcap Hdef].
  split; [exact Hcap|split].
  - intros Hnone. apply Hdef.
    unfold rawLimit. destruct (searchParams_get req "limit") as [l0|] eqn:Hq;
      [|reflexivity].
    rewrite (Hnone l0 eq_refl). reflexivity.
  - etrans; [apply query_steps_sublist|exact Hsub].
Qed.

Lemma get_events_is_bounded_witness :
  exists events,
    handleGetEvents (Sample.get "/events" [("limit", "5000")])
      (pushes (new_EventStore {| options_capacity := Some 3%nat;
                                 options_persistPath := None |})
              [(Sample.event "1" "a", Sample.quiet)])
    = Normal (Response_json (VArr (List.map to_value events)) 200) /\
    (length events <= 1000)%nat.
Proof.
  destruct (get_events_is_bounded
              {| options_capacity := Some 3%nat; options_persistPath := None |}
              [(Sample.event "1" "a", Sample.quiet)]
              (Sample.get "/events" [("limit", "5000")]))
    as (events & H & Hlen & _).
  - intros l [= <-] _. vm_compute. discriminate.
  - exists events. split; [exact H|exact Hlen].
Defined.

Lemma lastn_ends {A} (c : nat) (l : list A) (x : A) :
  (0 < c)%nat -> exists older, lastn c (l ++ [x]) = older ++ [x].
Proof. intros Hc. rewrite lastn_snoc by exact Hc. eauto. Qed.

(** X17.  What is accepted can be read back.  On a server whose store
    has a positive capacity, right after an envelope is stored and
    published, GET /events without parameters, or with only a type
    parameter equal to the type of the envelope, answers 200 with an
    array whose last element is that envelope. *)
Theorem accepted_event_is_listed_last
    (options : StoreOptions) (ps : list (EventEnvelope * PersistIO))
    (st : ServerState) (env : Env) (e : EventEnvelope) (req : Request) :
  (0 < capacity (new_EventStore options))%nat ->
  store st = pushes (new_EventStore options) ps ->
  (forall t, searchParams_get req "type" = Some t -> t = type e) ->
  searchParams_get req "since" = None ->
  searchParams_get req "limit" = None ->
  exists older,
    handleGetEvents req (store (store_and_publish st env e))
    = Normal (Response_json (VArr (older ++ [to_value e])) 200).
Proof.
  intros Hc Hstore Htype Hsince Hlimit.
  assert (Hs : store (store_and_publish st env e)
               = pushes (new_EventStore options) (ps ++ [(e, persistIO env)])).
  { unfold store_and_publish. simpl. rewrite Hstore, pushes_snoc. reflexivity. }
  remember (store (store_and_publish st env e)) as s' eqn:Es. clear Es.
  destruct (pushes_state options (ps ++ [(e, persistIO env)]) Hc) as (_ & _ & Harr).
  rewrite <- Hs in Harr.
  rewrite map_app in Harr. simpl List.map in Harr.
  assert (Hc' : (0 < capacity s')%nat).
  { rewrite Hs, pushes_capacity. exact Hc. }
  destruct (lastn_ends (capacity s') (List.map fst ps) e Hc') as [kept Hkept].
  rewrite Hkept in Harr.
  unfold handleGetEvents. rewrite Hsince, Hlimit.
  rewrite (query_hole_free _ _ _ Harr).
  unfold query_steps, keep_since, take_limit. simpl filter_type. simpl filter_since.
  simpl filter_limit. cbv iota.
  assert (Hk : exists kept', keep_type (searchParams_get req "type") (kept ++ [e])
                             = kept' ++ [e]).
  { unfold keep_type. destruct (searchParams_get req "type") as [t|] eqn:Ht; [|eauto].
    destruct (truthy_string t); [|eauto].
    rewrite (Htype t eq_refl), List.filter_app. simpl.
    rewrite String.eqb_refl. eauto. }
  destruct Hk as [kept' ->].
  change (Math_min (Num 100) (Num 1000)) with (Num 100).
  change (num_le (Num 100) (Num 0)) with false. cbv iota.
  destruct (lastn_ends (Z.to_nat 100) kept' e) as [older Holder]; [lia|].
  rewrite Holder. exists (List.map to_value older).
  rewrite List.map_map, map_app. reflexivity.
Qed.

Lemma accepted_event_is_listed_last_witness :
  exists older,
    handleGetEvents (Sample.get "/events" [("type", "a")])
      (store (store_and_publish
                (Sample.server (Sample.store_of 2 [Sample.event "1" "b"]) [])
                Sample.env (Sample.event "2" "a")))
    = Normal (Response_json (VArr (older ++ [to_value (Sample.event "2" "a")])) 200).
Proof.
  apply (accepted_event_is_listed_last
           {| options_capacity := Some 2%nat; options_persistPath := None |}
           [(Sample.event "1" "b", Sample.quiet)]).
  - simpl. lia.
  - reflexivity.
  - intros t [= <-]. reflexivity.
  - reflexivity.
  - reflexivity.
Defined.

Lemma unfiltered_topic (ws : WsClient) :
  opened ws -> bool_decide ("events.all" ∈ topics ws) = unfiltered ws.
Proof.
  intros Ho. unfold opened in Ho. rewrite Ho. unfold unfiltered.
  pose proof (topic_all_in (url_type ws)) as H.
  destruct (url_type ws) as [F|].
  - destruct (truthy_string F); simpl.
    + apply bool_decide_eq_false. intros Hin. apply H in Hin. discriminate.
    + apply bool_decide_eq_true. apply H. reflexivity.
  - apply bool_decide_eq_true. apply H. trivial.
Qed.

(** X18.  GET /health on a running server never throws and reports: the
    nonce of the server; as events.total the size of the store; as
    persistErrors the counter of the store; and as wsClients the number of
    clients that asked for no type, so a client with a type filter is not
    counted. *)
Theorem health_report
    (options : StoreOptions) (ps : list (EventEnvelope * PersistIO))
    (st : ServerState) (env : Env) :
  store st = pushes (new_EventStore options) ps ->
  Forall opened (clients st) ->
  exists r,
    handleHealth st env = Normal r /\
    status r = 200 /\
    prop (as_object (body r)) "status" = VStr "ok" /\
    prop (as_object (body r)) "nonce" = VStr (serverNonce st) /\
    prop (as_object (prop (as_object (body r)) "events")) "total"
    = VNum (Z.of_nat (size (store st))) /\
    prop (as_object (body r)) "persistErrors"
    = VNum (Z.of_nat (persistErrors (store st))) /\
    prop (as_object (body r)) "wsClients"
    = VNum (Z.of_nat (length (List.filter unfiltered (clients st)))).
Proof.
  intros Hstore Hopen.
  destruct (pushes_hole_free options ps) as [l Hl]. rewrite <- Hstore in Hl.
  destruct (count_types_some l []) as (counts & Hrun & _).
  unfold handleHealth, typeCounts. rewrite Hl, Hrun.
  eexists. split; [reflexivity|].
  repeat (split; [reflexivity|]).
  simpl. do 3 f_equal.
  induction Hopen as [|ws rest Hws _ IH]; simpl; [reflexivity|].
  rewrite (unfiltered_topic ws Hws).
  destruct (unfiltered ws); simpl; rewrite IH; reflexivity.
Qed.

Lemma health_report_witness :
  exists r,
    handleHealth (Sample.server (Sample.store_of 2 [Sample.event "1" "a"])
                    [connect None; connect (Some "a")]) Sample.env = Normal r /\
    prop (as_object (body r)) "wsClients" = VNum 1.
Proof.
  destruct (health_report {| options_capacity := Some 2%nat; options_persistPath := None |}
              [(Sample.event "1" "a", Sample.quiet)]
              (Sample.server (Sample.store_of 2 [Sample.event "1" "a"])
                 [connect None; connect (Some "a")]) Sample.env eq_refl)
    as (r & Hr & _ & _ & _ & _ & _ & Hws).
  - repeat constructor; apply connect_opened.
  - exists r. split; [exact Hr|exact Hws].
Defined.

End RouterExtras.

(* ===================================================================== *)
(** * The discovery files and start-up *)
(* ===================================================================== *)

Section DiscoveryExtras.
Import JS Schema Store Server Spec Discovery.




Lemma removePidFiles_lookup (h : Host) (dir : gmap string string) (f : string) :
  removePidFiles h dir !! f = dir !! f \/
  ((f = "events.port" \/ f = "events.pid" \/ f = "events.nonce") /\
   unlinkThrows h f = false /\ removePidFiles h dir !! f = None).
Proof.
  assert (Hone : forall d g,
             remove_one h d g !! f = d !! f \/
             (f = g /\ unlinkThrows h f = false /\ remove_one h d g !! f = None)).
  { intros d g. unfold remove_one. destruct (d !! g) eqn:Hg; [|auto].
    destruct (unlinkThrows h g) eqn:Hu; [auto|].
    destruct (decide (g = f)) as [->|Hne].
    - right. rewrite lookup_delete_eq. auto.
    - left. apply lookup_delete_ne, Hne. }
  assert (Hkeep : forall d g, d !! f = None -> remove_one h d g !! f = None).
  { intros d g Hd. destruct (Hone d g) as [->|(_ & _ & ->)]; auto. }
  unfold removePidFiles. simpl.
  destruct (Hone dir "events.port") as [H1|(-> & Hu & H1)].
  - destruct (Hone (remove_one h dir "events.port") "events.pid") as [H2|(-> & Hu & H2)].
    + destruct (Hone (remove_one h (remove_one h dir "events.port") "events.pid")
                  "events.nonce") as [H3|(-> & Hu & H3)].
      * left. congruence.
      * right. auto.
    + right. split; [auto|]. split; [exact Hu|]. apply Hkeep, H2.
  - right. split; [auto|]. split; [exact Hu|]. apply Hkeep, Hkeep, H1.
Qed.

Lemma removePidFiles_clears (h : Host) (dir : gmap string string) :
  (forall f, unlinkThrows h f = false) ->
  removePidFiles h dir
  = delete "events.nonce" (delete "events.pid" (delete "events.port" dir)).
Proof.
  intros Hu.
  assert (Hone : forall d g, remove_one h d g = delete g d).
  { intros d g. unfold remove_one. rewrite Hu.
    destruct (d !! g) eqn:Hg; [reflexivity|]. symmetry. apply delete_id, Hg. }
  unfold removePidFiles. simpl. rewrite !Hone. reflexivity.
Qed.

(** X19.  [readEventServerPort] is sound and, when it answers, leaves the
    files alone: it returns a port only if the port file parses to an
    integer from 1 to 65535, the pid file parses to a positive integer,
    and signal 0 reaches that process; the directory is then unchanged. *)
Theorem readEventServerPort_sound
    (h : Host) (dir dir' : gmap string string) (p : number) :
  readEventServerPort h dir = (Some p, dir') ->
  dir' = dir /\
  exists (port pid : Z) (portText pidText : string),
    p = Num port /\ (1 <= port <= 65535)%Z /\
    dir !! "events.port" = Some portText /\ parseInt portText = Num port /\
    dir !! "events.pid" = Some pidText /\ parseInt pidText = Num pid /\
    (0 < pid)%Z /\ kill0_succeeds h pid = true.
Proof.
  unfold readEventServerPort.
  destruct (dir !! "events.pid") as [pidText|] eqn:Hpid; [|discriminate].
  destruct (dir !! "events.port") as [portText|] eqn:Hport; [|discriminate].
  destruct (parseInt pidText) as [pid| | |] eqn:Hp; simpl; try discriminate;
    destruct (parseInt portText) as [port| | |] eqn:Hq; simpl;
    rewrite ?andb_false_r, ?orb_true_r; simpl; try discriminate.
  destruct (Z.ltb_spec 0 pid) as [Hpos|]; simpl; [|discriminate].
  destruct (Z.leb_spec 1 port) as [Hlo|]; simpl; [|discriminate].
  destruct (Z.leb_spec port 65535) as [Hhi|]; simpl; [|discriminate].
  unfold isProcessRunning. simpl.
  destruct (Z.leb_spec pid 0); [lia|]. simpl.
  destruct (kill0_succeeds h pid) eqn:Halive; simpl; [|discriminate].
  intros [= <- <-]. split; [reflexivity|].
  exists port, pid, portText, pidText.
  split; [reflexivity|]. split; [lia|]. split; [reflexivity|]. split; [exact Hq|].
  split; [reflexivity|]. split; [exact Hp|]. split; [exact Hpos|exact Halive].
Qed.

Lemma readEventServerPort_sound_witness :
  let h := {| kill0_succeeds := fun pid => (pid =? 4242)%Z;
              unlinkThrows := fun _ => false |} in
  let dir : gmap string string :=
    <["events.pid" := "4242"]> (<["events.port" := "7483"]> ∅) in
  exists (port pid : Z) (portText pidText : string),
    Num 7483 = Num port /\ (1 <= port <= 65535)%Z /\
    dir !! "events.port" = Some portText /\ parseInt portText = Num port /\
    dir !! "events.pid" = Some pidText /\ parseInt pidText = Num pid /\
    (0 < pid)%Z /\ kill0_succeeds h pid = true.
Proof.
  intros h dir.
  refine (proj2 (readEventServerPort_sound h dir dir (Num 7483) _)).
  reflexivity.
Defined.



(** X21.  Stale files are cleared.  When both files can be read and the
    recorded owner is not running (its pid does not parse to a positive
    integer, or signal 0 does not reach it), [readEventServerPort] answers
    null and, the unlinks succeeding, leaves the directory without the
    port, pid and nonce files and otherwise as it was; a second call then
    answers null and changes nothing. *)
Theorem stale_files_are_cleared
    (h : Host) (dir : gmap string string) (pidText portText : string) :
  dir !! "events.pid" = Some pidText ->
  dir !! "events.port" = Some portText ->
  isProcessRunning h (parseInt pidText) = false ->
  (forall f, unlinkThrows h f = false) ->
  let dir' := delete "events.nonce" (delete "events.pid" (delete "events.port" dir)) in
  readEventServerPort h dir = (None, dir') /\
  readEventServerPort h dir' = (None, dir') /\
  (forall f, f <> "events.port" -> f <> "events.pid" -> f <> "events.nonce" ->
             dir' !! f = dir !! f).
Proof.
  intros Hpid Hport Hdead Hu dir'. split; [|split].
  - unfold readEventServerPort. rewrite Hpid, Hport, Hdead.
    rewrite (removePidFiles_clears h dir Hu). fold dir'.
    match goal with |- (if ?c then _ else _) = _ => destruct c end; reflexivity.
  - unfold readEventServerPort, dir'.
    rewrite lookup_delete_ne by discriminate. rewrite lookup_delete_eq. reflexivity.
  - intros f H1 H2 H3. unfold dir'.
    rewrite !lookup_delete_ne by congruence. reflexivity.
Qed.

Lemma stale_files_are_cleared_witness :
  let h := {| kill0_succeeds := fun _ => false; unlinkThrows := fun _ => false |} in
  let dir : gmap string string :=
    <["events.pid" := "4242"]> (<["events.port" := "7483"]> ∅) in
  readEventServerPort h dir
  = (None, delete "events.nonce" (delete "events.pid" (delete "events.port" dir))).
Proof.
  intros h dir.
  refine (proj1 (stale_files_are_cleared h dir "4242" "7483" _ _ _ _)); reflexivity.
Defined.

(** X22.  The discovery functions touch nothing but their three files.
    Whatever the host does (unlinks failing or not), after
    [removePidFiles], and so after [readEventServerPort] and after the
    signal handler, every file of the directory is as it was or is one of
    the port, pid and nonce files and is gone; no file is created or
    rewritten.  The signal handler also leaves the queue, if any, with
    nothing waiting and no player. *)
Theorem discovery_only_removes_its_files
    (h : Host) (st : ServerState) (dir : gmap string string) (f : string) :
  let gone (d : gmap string string) :=
    d !! f = dir !! f \/
    ((f = "events.port" \/ f = "events.pid" \/ f = "events.nonce") /\ d !! f = None) in
  gone (removePidFiles h dir) /\
  gone (snd (readEventServerPort h dir)) /\
  gone (snd (cleanup h st dir)) /\
  match playbackQueue (fst (cleanup h st dir)) with
  | Some q => Queue.depth q = 0%nat /\ Queue.currentProc q = None
  | None => playbackQueue st = None
  end.
Proof.
  intros gone.
  assert (Hrm : gone (removePidFiles h dir)).
  { unfold gone. destruct (removePidFiles_lookup h dir f) as [H|(Hf & _ & H)]; auto. }
  split; [exact Hrm|]. split; [|split; [exact Hrm|]].
  - unfold readEventServerPort.
    destruct (dir !! "events.pid"); [|left; reflexivity].
    destruct (dir !! "events.port"); [|left; reflexivity].
    repeat match goal with
           | |- gone (snd (if ?c then _ else _)) => destruct c
           end; simpl; try exact Hrm; left; reflexivity.
  - unfold cleanup. simpl. destruct (playbackQueue st); simpl; auto.
Qed.

End DiscoveryExtras.

(* ===================================================================== *)
(** * More of the playback queue *)
(* ===================================================================== *)

Section QueueExtras.
Import Queue Runs.

Lemma drain_loop_split (c : Config) (now : Z) (items : list QueueItem) :
  match drain_loop (maxAgeMs c) now items with
  | (rest, Some item) =>
      exists skipped, items = skipped ++ item :: rest /\
                      forallb (stale c now) skipped = true /\
                      stale c now item = false
  | (rest, None) => rest = [] /\ forallb (stale c now) items = true
  end.
Proof.
  induction items as [|item rest IH]; cbn [drain_loop forallb]; [auto|].
  change (maxAgeMs c <? now - enqueuedAt item)%Z with (stale c now item).
  destruct (stale c now item) eqn:Hs.
  - destruct (drain_loop (maxAgeMs c) now rest) as [rest' [item'|]].
    + destruct IH as (skipped & -> & Hsk & Hfresh).
      exists (item :: skipped). cbn [forallb]. rewrite Hs, Hsk. auto.
    + destruct IH as [-> Hall]. rewrite Hall. auto.
  - exists []. auto.
Qed.

(** X23.  The drain loop plays the oldest fresh clip.  When a loop is
    suspended on a clip and the clip ends, either some waiting clip is
    fresh, and then the clips before the first fresh one were all stale
    and are dropped, that one is handed to the player (which is
    remembered unless the spawn throws), the clips behind it wait on in
    their order, and the loop stays alive; or every waiting clip is
    stale, and then the queue is left empty and idle with no player. *)
Theorem resume_plays_oldest_fresh (q : PlaybackQueue) (t : Turn) :
  playing q = true ->
  let q' := resume q t in
  (exists skipped item,
      queue q = skipped ++ item :: queue q' /\
      forallb (stale (config q) (Date_now t)) skipped = true /\
      stale (config q) (Date_now t) item = false /\
      playing q' = true /\
      currentProc q' = (if spawnThrows t then None else Some (filePath item))) \/
  (forallb (stale (config q) (Date_now t)) (queue q) = true /\
   queue q' = [] /\ playing q' = false /\ currentProc q' = None).
Proof.
  intros Hp q'. subst q'. unfold resume. rewrite Hp. unfold drain_run. simpl.
  pose proof (drain_loop_split (config q) (Date_now t) (queue q)) as H.
  destruct (drain_loop (maxAgeMs (config q)) (Date_now t) (queue q)) as [rest [item|]].
  - left. destruct H as (skipped & Hq & Hsk & Hfresh).
    exists skipped, item. unfold playOne_start.
    destruct (spawnThrows t); simpl; auto.
  - right. destruct H as [-> Hall]. simpl. auto.
Qed.

Lemma resume_plays_oldest_fresh_witness :
  let old := {| filePath := "/c/old.mp3"; label := "old"; enqueuedAt := 0 |} in
  let new := {| filePath := "/c/new.mp3"; label := "new"; enqueuedAt := 90000 |} in
  let q := {| queue := [old; new]; playing := true; currentProc := Some "/c/first.mp3";
              config := config (new_PlaybackQueue None None None) |} in
  let t := {| Date_now := 100000; spawnThrows := false |} in
  queue (resume q t) = [] /\ currentProc (resume q t) = Some "/c/new.mp3".
Proof.
  intros old new q t.
  destruct (resume_plays_oldest_fresh q t eq_refl)
    as [(skipped & item & _)|(Hall & _)]; [|discriminate Hall].
  split; reflexivity.
Defined.

Lemma drain_run_idle (q1 : PlaybackQueue) (t : Turn) :
  playing q1 = true -> currentProc q1 = None ->
  playing (drain_run q1 t) = true \/
  (queue (drain_run q1 t) = [] /\ currentProc (drain_run q1 t) = None).
Proof.
  intros Hp Hc. unfold drain_run.
  pose proof (drain_loop_split (config q1) (Date_now t) (queue q1)) as H.
  destruct (drain_loop (maxAgeMs (config q1)) (Date_now t) (queue q1))
    as [rest [item|]].
  - left. unfold playOne_start. destruct (spawnThrows t); exact Hp.
  - right. destruct H as [-> _]. simpl. auto.
Qed.

Lemma idle_step (q : PlaybackQueue) (op : Op) :
  (playing q = true \/ (queue q = [] /\ currentProc q = None)) ->
  playing (step q op) = true \/ (queue (step q op) = [] /\ currentProc (step q op) = None).
Proof.
  intros Hq. destruct op as [item t|t| |]; simpl.
  - unfold enqueue. destruct (maxDepth (config q) <=? length (queue q))%nat; [exact Hq|].
    simpl. destruct (playing q) eqn:Hp; simpl; [auto|].
    destruct Hq as [Hq|[_ Hc]]; [discriminate|].
    apply drain_run_idle; [reflexivity|exact Hc].
  - unfold resume. destruct (playing q) eqn:Hp; [|rewrite ?Hp; exact Hq].
    apply drain_run_idle; reflexivity.
  - right. split; reflexivity.
  - unfold clear. simpl. destruct Hq as [Hq|[_ Hc]]; auto.
Qed.

(** X24.  An idle queue holds nothing.  After any operations on a new
    queue (enqueue, the end of a clip, stop, clear, in any turn), either
    the drain loop is alive ([isPlaying]) or nothing waits and no player
    is remembered: a clip is never left waiting without a loop to play
    it. *)
Theorem idle_queue_is_empty
    (opt_maxDepth : option nat) (opt_maxAgeMs opt_maxPlayMs : option Z)
    (ops : list Op) :
  let q := run (new_PlaybackQueue opt_maxDepth opt_maxAgeMs opt_maxPlayMs) ops in
  isPlaying q = true \/ (depth q = 0%nat /\ currentProc q = None).
Proof.
  intros q.
  assert (H : playing q = true \/ (queue q = [] /\ currentProc q = None)).
  { subst q. unfold run.
    generalize (new_PlaybackQueue opt_maxDepth opt_maxAgeMs opt_maxPlayMs),
      (or_intror (conj eq_refl eq_refl)
       : playing (new_PlaybackQueue opt_maxDepth opt_maxAgeMs opt_maxPlayMs) = true \/
         (queue (new_PlaybackQueue opt_maxDepth opt_maxAgeMs opt_maxPlayMs) = [] /\
          currentProc (new_PlaybackQueue opt_maxDepth opt_maxAgeMs opt_maxPlayMs) = None)).
    induction ops as [|op ops IH]; intros q0 H0; simpl; [exact H0|].
    apply IH, idle_step, H0. }
  unfold isPlaying, depth. destruct H as [H|[H1 H2]]; [auto|].
  right. rewrite H1. auto.
Qed.

End QueueExtras.

(* ===================================================================== *)
(** * More of the reconnecting client *)
(* ===================================================================== *)


Section ClientExtras.
Import Double Client Runs.
Local Open Scope Q_scope.

(** X25.  [close()] is final.  After the handle is closed, whatever
    happens next (the socket closing, a timer firing, the socket opening,
    another close): the client stays closed, with no socket and no timer
    armed; it never reconnects. *)
Theorem closed_client_never_reconnects
    (o : EventClientOptions) (st : ClientState) (evs : list ClientEvent) :
  let st' := client_run o (close st) evs in
  closed st' = true /\ ws st' = None /\ reconnectTimer st' = None.
Proof.
  intros st'. subst st'. unfold client_run.
  generalize (close st),
    (conj eq_refl (conj eq_refl eq_refl)
     : closed (close st) = true /\ ws (close st) = None /\
       reconnectTimer (close st) = None).
  induction evs as [|ev evs IH]; intros s Hs; simpl; [exact Hs|].
  apply IH. destruct Hs as (Hc & Hw & Ht).
  destruct ev as [|random| |]; simpl.
  - auto.
  - unfold onclose. rewrite Hc. simpl. auto.
  - unfold ontimer, connect. rewrite Hc. auto.
  - auto.
Qed.

Lemma dmin_mono (a a' : double) (c : Q) :
  dle a a' -> dle (dmin a (Fin c)) (dmin a' (Fin c)).
Proof.
  destruct a as [x| | |], a' as [y| | |]; simpl; try contradiction; try exact id;
    intros H;
    repeat match goal with
           | |- context [Qle_bool ?u ?v] =>
               let E := fresh "E" in
               destruct (Qle_bool u v) eqn:E;
               [apply Qle_bool_iff in E
               |assert (~ u <= v) by (rewrite <- Qle_bool_iff, E; discriminate)]
           end; simpl; try exact I; lra.
Qed.

(** X26.  The reconnect wait is bounded and its capped part never
    shrinks.  For a base delay b that is a double and not negative, and
    Math.random() returning a double in [0, 1).  When b is 0 and the
    attempt count has reached 1024, 2 ** attempt is Infinity and the
    capped part and the wait are NaN.  Otherwise the capped part is a
    double B in [0, 30000], the jitter a double j in [0, 1000), and the
    wait the double nearest to B + j, at least B and at most 31000; and
    B is 30000 once b * 2^n reaches 30000 or the attempt reaches 1024.
    The capped part at attempt n is at most what it is at attempt n + 1
    (for b > 0, or as long as n + 1 < 1024).  The bound 31000 is
    reached: base 1000, attempt 5 and random 1 - 2^-53 give a jitter of
    1000 - 2^-43 and a wait of exactly 31000. *)
Theorem reconnect_wait_bounds (b : Q) (n : nat) (r : Q) :
  0 <= b -> representable b ->
  0 <= r /\ r < 1 -> representable r ->
  (b == 0 -> (1024 <= n)%nat ->
   backoff_base (Fin b) n = DNaN /\ reconnect_wait (Fin b) n r = DNaN) /\
  (0 < b \/ (n < 1024)%nat ->
   exists B j w,
     backoff_base (Fin b) n = Fin B /\ 0 <= B /\ B <= 30000 /\
     jitter r = Fin j /\ 0 <= j /\ j < 1000 /\
     reconnect_wait (Fin b) n r = Fin w /\ round (B + j) = Fin w /\
     B <= w /\ w <= 31000 /\
     (30000 <= b * exp2 n \/ (1024 <= n)%nat -> B == 30000)) /\
  (0 < b \/ (S n < 1024)%nat ->
   dle (backoff_base (Fin b) n) (backoff_base (Fin b) (S n))) /\
  (representable (9007199254740991 # 9007199254740992) /\
   jitter (9007199254740991 # 9007199254740992)
   = Fin (8796093022207999 # 8796093022208) /\
   reconnect_wait (Fin 1000) 5 (9007199254740991 # 9007199254740992)
   = Fin 31000).
Proof.
  intros Hb Hrb [Hr0 Hr1] Hrr.
  destruct (jitter_range r Hr0 Hr1 Hrr) as (j & Hj & Hj0 & Hj1 & _).
  split; [|split; [|split]].
  - intros Hzero Hn. unfold reconnect_wait, backoff_base.
    rewrite (dmul_dpow2_overflow b n Hn).
    assert (E : Qeq_bool b 0 = true) by (apply Qeq_bool_iff; exact Hzero).
    rewrite E. split; reflexivity.
  - intros Hcase.
    destruct (backoff_base_cases b n Hb Hcase)
      as (B & HB & HB0 & HB1 & HBr & _ & Hcap).
    destruct (round_between (B + j) 0 31000) as (w & E & Hw0 & Hw1);
      [lia|lia|change (inject_Z 0) with 0; lra
      |change (inject_Z 31000) with 31000; lra|].
    change (inject_Z 31000) with 31000 in Hw1.
    exists B, j, w.
    split; [exact HB|]. split; [exact HB0|]. split; [exact HB1|].
    split; [exact Hj|]. split; [exact Hj0|]. split; [exact Hj1|].
    split; [unfold reconnect_wait; rewrite HB, Hj; exact E|].
    split; [exact E|]. split; [|split; [exact Hw1|exact Hcap]].
    pose proof (round_mono B (B + j) HB0 ltac:(lra)) as Hm.
    unfold representable in HBr. rewrite HBr, E in Hm. simpl in Hm.
    rewrite Qred_correct in Hm. exact Hm.
  - intros Hcase. pose proof (exp2_pos n) as Hp. pose proof (exp2_succ n) as Hs.
    destruct (Nat.lt_ge_cases (S n) 1024) as [Hlt|Hge].
    + unfold backoff_base, MAX_RECONNECT_DELAY_MS.
      rewrite (dmul_dpow2 b n) by lia. rewrite (dmul_dpow2 b (S n) Hlt).
      apply dmin_mono. apply round_mono.
      * apply Qmult_le_0_compat; lra.
      * rewrite Hs.
        assert (0 <= b * exp2 n) by (apply Qmult_le_0_compat; lra). lra.
    + destruct Hcase as [Hpos|Hlt]; [|lia].
      destruct (backoff_base_cases b n Hb (or_introl Hpos))
        as (B & HB & _ & HB1 & _).
      destruct (backoff_base_cases b (S n) Hb (or_introl Hpos))
        as (B' & HB' & _ & _ & _ & _ & Hcap).
      rewrite HB, HB'. simpl. rewrite (Hcap (or_intror Hge)). exact HB1.
  - vm_compute. repeat split; reflexivity.
Qed.

Lemma reconnect_wait_bounds_witness :
  dle (backoff_base (Fin 1000) 3) (backoff_base (Fin 1000) 4).
Proof.
  refine (proj1 (proj2 (proj2 (reconnect_wait_bounds 1000 3 (1 # 2) _ _ _ _))) _);
    first [ left; reflexivity
          | vm_compute; repeat split; first [reflexivity | discriminate] ].
Defined.

Lemma closes_since_open_snoc (evs : list ClientEvent) (ev : ClientEvent) :
  closes_since_open (evs ++ [ev])
  = match ev with
    | SocketOpens => 0%nat
    | SocketCloses _ => S (closes_since_open evs)
    | _ => closes_since_open evs
    end.
Proof. unfold closes_since_open. rewrite fold_left_app. reflexivity. Qed.

(** X27.  The attempt counter counts the closes since the last open.
    For a client that reconnects (autoReconnect not set to false) and
    whose handle is not closed during the run: after any sequence of
    socket opens, socket closes and timer fires, the client is not
    closed and [attempt] is the number of socket closes since the socket
    last opened (since the start when it never did). *)
Theorem attempt_counts_closes (o : EventClientOptions) (evs : list ClientEvent) :
  default true (autoReconnect o) = true ->
  never_closed evs = true ->
  let st := client_run o (connectEventClient o) evs in
  closed st = false /\ attempt st = closes_since_open evs.
Proof.
  intros Hauto. induction evs as [|ev evs IH] using rev_ind; intros Hnever st.
  - split; reflexivity.
  - subst st. unfold never_closed in Hnever. rewrite forallb_app in Hnever.
    apply andb_prop in Hnever as [Hevs Hev].
    destruct (IH Hevs) as [Hc Ha].
    unfold client_run in *. rewrite fold_left_app. simpl.
    rewrite closes_since_open_snoc.
    destruct ev as [|random| |]; simpl in *; try discriminate.
    + auto.
    + unfold onclose. rewrite Hc, Hauto. simpl. auto.
    + unfold ontimer, connect. rewrite Hc. simpl. auto.
Qed.

Lemma attempt_counts_closes_witness :
  let o := {| port := 7483; typeFilter := None; host := None;
              autoReconnect := None; reconnectDelay := None |} in
  attempt (client_run o (connectEventClient o)
             [SocketOpens; SocketCloses 0; TimerFires; SocketCloses (1 # 2)])
  = 2%nat.
Proof.
  intros o.
  refine (proj2 (attempt_counts_closes o
                   [SocketOpens; SocketCloses 0; TimerFires; SocketCloses (1 # 2)] _ _));
    reflexivity.
Defined.

End ClientExtras.

(* ===================================================================== *)
(** * More of the routes: dispatch, enrichment, voice *)
(* ===================================================================== *)

Section RouteExtras.
Import JS Schema Store Server Spec Runs.

(** X28.  Dispatch of the hook route.  A POST whose path is /events/
    followed by a non-empty segment without a slash is answered by the
    hook handler applied to that segment (its response, or the error it
    throws), so what holds of the handler holds of the server; in particular POST /events/stop with
    stop_hook_active reaches the guard, and no such path is taken for
    /events, /ws or /voice/notify. *)
Theorem hook_route_dispatch
    (st : ServerState) (env : Env) (req : Request) (segment : string) :
  method req = "POST" ->
  pathname req = "/events/" +:+ segment ->
  segment <> "" ->
  has_slash segment = false ->
  fetch st env req
  = (match fst (handleHookEvent st env req segment) with
     | Normal response => Normal (Some response)
     | Throw error => Throw error
     end,
     snd (handleHookEvent st env req segment)).
Proof.
  intros Hm Hp Hne Hs. unfold fetch. rewrite Hm, Hp.
  rewrite (hookMatch_intro segment Hne Hs).
  change (String.eqb "POST" "OPTIONS") with false.
  change (String.eqb "POST" "POST") with true.
  change (String.eqb ("/events/" +:+ segment) "/ws") with false.
  cbv iota.
  destruct (handleHookEvent st env req segment); reflexivity.
Qed.

Lemma hook_route_dispatch_witness :
  fst (fetch (Sample.server (Sample.store_of 10 []) []) Sample.env
         (Sample.post "/events/stop" (VObj [("stop_hook_active", VBool true)])))
  = Normal (Some (Response_json (VObj [("status", VStr "skipped");
                                       ("reason", VStr "stop_hook_active")]) 200)).
Proof.
  rewrite (hook_route_dispatch (Sample.server (Sample.store_of 10 []) []) Sample.env
             (Sample.post "/events/stop" (VObj [("stop_hook_active", VBool true)]))
             "stop" eq_refl eq_refl ltac:(discriminate) eq_refl).
  reflexivity.
Defined.

(** X29.  The hookEvent field names the type.  For every event name and
    payload, the enrichment either throws a TypeError, which it does
    exactly for the name post-tool-use-failure with a tool_error that
    String() cannot print (an object with an own toString property, or an
    array holding one), or builds data that has a string hookEvent whose
    dashes-to-underscores form is that of the event name (so the type of
    the envelope is hook. followed by it), and a sessionId that is the
    session_id of the payload; the whole payload is kept, under raw,
    exactly for the names outside the table of known events. *)
Theorem hookEvent_names_the_type (name : string) (raw : object) :
  match extractEventFields name raw with
  | Throw error =>
      error = "TypeError" /\ name = "post-tool-use-failure" /\
      unprintable (nullish (prop raw "tool_error") (VStr "")) = true
  | Normal d =>
      (name = "post-tool-use-failure" ->
       unprintable (nullish (prop raw "tool_error") (VStr "")) = false) /\
      (exists h, prop d "hookEvent" = VStr h /\ replace_dashes h = replace_dashes name) /\
      prop d "sessionId" = prop raw "session_id" /\
      (if existsb (String.eqb name) (List.map fst EVENT_NAME_MAP)
       then has_prop d "raw" = false
       else prop d "raw" = VObj raw)
  end.
Proof.
  destruct (extractEventFields_cases name raw) as [(Hname & Hu & ->)|[Hu [d Hd]]];
    [auto|].
  rewrite Hd. split; [exact Hu|]. clear Hu. revert Hd.
  unfold extractEventFields, EVENT_NAME_MAP. cbn [List.map fst existsb].
  destruct (String.eqb_spec name "session-start") as [->|_];
    [intros [= <-]; split; [eexists; split; reflexivity|split; reflexivity]|].
  destruct (String.eqb_spec name "pre-tool-use") as [->|_];
    [intros [= <-]; split; [eexists; split; reflexivity|split; reflexivity]|].
  destruct (String.eqb_spec name "post-tool-use") as [->|_];
    [intros [= <-]; split; [eexists; split; reflexivity|split; reflexivity]|].
  destruct (String.eqb_spec name "post-tool-use-failure") as [->|_].
  { destruct (ToString (nullish (prop raw "tool_error") (VStr ""))); [|discriminate].
    intros [= <-]. split; [eexists; split; reflexivity|split; reflexivity]. }
  destruct (String.eqb_spec name "stop") as [->|_];
    [intros [= <-]; split; [eexists; split; reflexivity|split; reflexivity]|].
  intros [= <-]. split; [eexists; split; reflexivity|split; reflexivity].
Qed.

(** X30.  POST /voice/notify answers queued: true whenever the clip is
    cached, whether or not the queue takes it.  With voice on, a body
    that parses to something other than null, and a cached clip: the
    answer is 200 with queued true, the label and the text; the store and
    the clients are untouched; when the queue is already at its depth
    bound the queue is unchanged, the clip dropped; and when there is room
    and a clip is playing, the new clip waits at the back. *)
Theorem voice_notify_reports_queued
    (st : ServerState) (env : Env) (req : Request) (q : Queue.PlaybackQueue)
    (v : value) (file label_ text : string) :
  String.eqb (mode (voiceConfig st)) "off" = false ->
  bodyJson req = Some v ->
  v <> VNull ->
  clipLookup env = Clip file label_ text ->
  let r := handleVoiceNotify st env req q in
  let item := {| Queue.filePath := file;
                 Queue.label := label_ +:+ ": " +:+ quoted text;
                 Queue.enqueuedAt := Queue.Date_now (turn env) |} in
  fst r = Normal (Response_json (VObj [("queued", VBool true);
                                       ("label", VStr label_);
                                       ("text", VStr text)]) 200) /\
  store (snd r) = store st /\
  clients (snd r) = clients st /\
  ((Queue.maxDepth (Queue.config q) <= Queue.depth q)%nat ->
   playbackQueue (snd r) = Some q) /\
  ((Queue.depth q < Queue.maxDepth (Queue.config q))%nat ->
   Queue.isPlaying q = true ->
   option_map Queue.queue (playbackQueue (snd r)) = Some (Queue.queue q ++ [item])).
Proof.
  intros Hmode Hbody Hnull Hclip r item. subst r.
  unfold handleVoiceNotify. rewrite Hmode, Hbody, Hclip.
  destruct v; try congruence;
    (split; [reflexivity|]; split; [reflexivity|]; split; [reflexivity|];
     unfold triggerVoice; rewrite Hmode, Hclip; simpl; unfold Queue.enqueue, Queue.depth,
       Queue.isPlaying;
     split;
     [ intros Hfull;
       destruct (Nat.leb_spec (Queue.maxDepth (Queue.config q)) (length (Queue.queue q)));
         [reflexivity|lia]
     | intros Hroom Hp;
       destruct (Nat.leb_spec (Queue.maxDepth (Queue.config q)) (length (Queue.queue q)));
         [lia|]; simpl; rewrite Hp; reflexivity ]).
Qed.

Lemma voice_notify_reports_queued_witness :
  let st := {| store := Sample.store_of 10 []; clients := [];
               playbackQueue := None;
               voiceConfig := {| mode := "on"; cacheDir := "/c" |};
               appName := "app"; appRoot_default := "/p"; serverNonce := "nonce" |} in
  let env := {| runtime := runtime Sample.env;
                Date_parse_isNaN := Date_parse_isNaN Sample.env;
                persistIO := persistIO Sample.env;
                turn := turn Sample.env;
                clipLookup := Clip "/c/a.mp3" "Scotty" "Aye";
                upgrade_succeeds := true; uptime := 0;
                staticResponse := staticResponse Sample.env |} in
  let full := {| Queue.queue := []; Queue.playing := false; Queue.currentProc := None;
                 Queue.config := {| Queue.maxDepth := 0; Queue.maxAgeMs := 30000;
                                    Queue.maxPlayMs := 15000 |} |} in
  let r := handleVoiceNotify st env
             (Sample.post "/voice/notify" (VObj [("agentType", VStr "a")])) full in
  fst r = Normal (Response_json (VObj [("queued", VBool true);
                                       ("label", VStr "Scotty");
                                       ("text", VStr "Aye")]) 200) /\
  playbackQueue (snd r) = Some full.
Proof.
  intros st env full r.
  destruct (voice_notify_reports_queued st env
              (Sample.post "/voice/notify" (VObj [("agentType", VStr "a")])) full
              (VObj [("agentType", VStr "a")]) "/c/a.mp3" "Scotty" "Aye"
              eq_refl eq_refl ltac:(discriminate) eq_refl)
    as (Hresp & _ & _ & Hfull & _).
  split; [exact Hresp|]. apply Hfull. simpl. lia.
Defined.

End RouteExtras.
